(** * rollstats: rolling statistics over a sliding window

    A shallow embedding of [rollstats/__init__.py]: the derived-statistic
    formulas ([var], [std], [zscore], [pop_var], [pop_std]), the class
    [MemoryFloat] (a number with a history and hooks, wired together by
    [connect]) and the class [Container] ([push], [_pop], [save],
    [subscribe]).

    The Python code is duck-typed over numbers (ints and floats mix freely),
    so the embedding is written once over an interface [PyNum] of the
    operations the code uses, and instantiated twice:
    - [float]: IEEE-754 binary64, the numbers CPython really computes with;
    - [xreal]: the exact-arithmetic reading (real numbers extended with NaN
      and the two infinities), in which the algebraic properties are stated.
      The count [n] is a Python int as long as the code runs (it starts at
      [0] and only sees [+= 1] and [-= 1]), so this reading is the faithful
      one for it.

    Exceptions are values of [result].  The methods are embedded twice:
    in [Container] on the objects the constructor made, a call that raises
    giving the exception only; and in [Live] on the object as it is, where
    [self.n], [self.data], [self.save] and the like are what [setattr] in
    [subscribe] bound them to last and a call that raises leaves the state
    it reached.  The two agree on the containers none of whose own names
    was given to a subscription ([Agreement]). *)

From Stdlib Require Import PrimFloat.
From Stdlib Require Import ZArith Reals Lra Lia.
From Stdlib Require QArith.
From stdpp Require Import base decidable option list countable gmap sets strings.

#[local] Set Warnings "-clear-no-such-hyp".

(** ** Exceptions *)

Inductive exn :=
| ZeroDivisionError
| ValueError
| TypeError
| IndexError
| AttributeError
| RecursionError.

Inductive result (A : Type) :=
| Ok (a : A)
| Raise (e : exn).
Arguments Ok {A} a.
Arguments Raise {A} e.

#[global] Instance result_ret : MRet result := @Ok.
#[global] Instance result_bind : MBind result := λ A B f m,
  match m with
  | Ok a => f a
  | Raise e => Raise e
  end.
#[global] Instance result_fmap : FMap result := λ A B f m,
  match m with
  | Ok a => Ok (f a)
  | Raise e => Raise e
  end.

(** A [for] loop whose body may raise: the first exception ends the loop. *)
Fixpoint for_each {A B : Type} (body : A → B → result A) (a : A) (l : list B)
  : result A :=
  match l with
  | [] => Ok a
  | b :: l' => a' ← body a b; for_each body a' l'
  end.

(** Evaluating a list of expressions left to right. *)
Fixpoint sequence {A : Type} (l : list (result A)) : result (list A) :=
  match l with
  | [] => Ok []
  | m :: l' => a ← m; (a ::.) <$> sequence l'
  end.

(** ** Numbers *)

(** The operations on numbers that the code relies on.  Division and
    [math.sqrt] raise in Python ([ZeroDivisionError], [ValueError]); the
    comparisons are the IEEE ones, false on NaN. *)
Class PyNum (F : Type) := {
  zero : F;
  one : F;
  nan : F;
  fadd : F → F → F;
  fsub : F → F → F;
  fmul : F → F → F;
  fdiv : F → F → result F;
  fsqrt : F → result F;
  feqb : F → F → bool;
  fltb : F → F → bool;
  fleb : F → F → bool
}.

Definition fgtb `{PyNum F} (x y : F) : bool := fltb y x.
Definition fgeb `{PyNum F} (x y : F) : bool := fleb y x.

(** *** binary64 *)

#[global] Instance float_num : PyNum float := {
  zero := 0%float;
  one := 1%float;
  nan := PrimFloat.nan;
  fadd := PrimFloat.add;
  fsub := PrimFloat.sub;
  fmul := PrimFloat.mul;
  fdiv x y :=
    if PrimFloat.eqb y 0%float then Raise ZeroDivisionError
    else Ok (PrimFloat.div x y);
  fsqrt x :=
    if PrimFloat.ltb x 0%float then Raise ValueError
    else Ok (PrimFloat.sqrt x);
  feqb := PrimFloat.eqb;
  fltb := PrimFloat.ltb;
  fleb := PrimFloat.leb
}.

(** *** Exact arithmetic *)

Inductive xreal :=
| XNaN
| XInf (positive : bool)
| XFin (r : R).

#[global] Instance R_eq_dec : EqDecision R := Req_dec_T.
#[global] Instance Rlt_decision (x y : R) : Decision (x < y)%R := Rlt_dec x y.
#[global] Instance Rle_decision (x y : R) : Decision (x <= y)%R := Rle_dec x y.

Module Exact.

Definition neg (x : xreal) : xreal :=
  match x with
  | XNaN => XNaN
  | XInf s => XInf (negb s)
  | XFin r => XFin (- r)
  end.

Definition add (x y : xreal) : xreal :=
  match x, y with
  | XFin a, XFin b => XFin (a + b)
  | XInf s, XFin _ | XFin _, XInf s => XInf s
  | XInf s, XInf s' => if bool_decide (s = s') then XInf s else XNaN
  | _, _ => XNaN
  end.

Definition sub (x y : xreal) : xreal := add x (neg y).

(** The sign of a product with an infinity. *)
Definition scale (s : bool) (r : R) : xreal :=
  if bool_decide (0 < r)%R then XInf s
  else if bool_decide (r < 0)%R then XInf (negb s)
  else XNaN.

Definition mul (x y : xreal) : xreal :=
  match x, y with
  | XFin a, XFin b => XFin (a * b)
  | XInf s, XFin r | XFin r, XInf s => scale s r
  | XInf s, XInf s' => XInf (bool_decide (s = s'))
  | _, _ => XNaN
  end.

Definition div (x y : xreal) : result xreal :=
  match y with
  | XFin b =>
      if bool_decide (b = 0)%R then Raise ZeroDivisionError
      else Ok (match x with
               | XFin a => XFin (a / b)
               | XInf s => scale s b
               | XNaN => XNaN
               end)
  | XInf _ =>
      Ok (match x with
          | XFin _ => XFin 0
          | _ => XNaN
          end)
  | XNaN => Ok XNaN
  end.

Definition sqrt (x : xreal) : result xreal :=
  match x with
  | XFin a =>
      if bool_decide (a < 0)%R then Raise ValueError else Ok (XFin (R_sqrt.sqrt a))
  | XInf true => Ok (XInf true)
  | XInf false => Raise ValueError
  | XNaN => Ok XNaN
  end.

Definition eqb (x y : xreal) : bool :=
  match x, y with
  | XFin a, XFin b => bool_decide (a = b)
  | XInf s, XInf s' => bool_decide (s = s')
  | _, _ => false
  end.

Definition ltb (x y : xreal) : bool :=
  match x, y with
  | XFin a, XFin b => bool_decide (a < b)%R
  | XInf false, XFin _ | XFin _, XInf true | XInf false, XInf true => true
  | _, _ => false
  end.

Definition leb (x y : xreal) : bool :=
  match x, y with
  | XFin a, XFin b => bool_decide (a <= b)%R
  | XInf false, XFin _ | XFin _, XInf true => true
  | XInf s, XInf s' => bool_decide (s = s') || (negb s && s')
  | _, _ => false
  end.

End Exact.

#[global] Instance xreal_num : PyNum xreal := {
  zero := XFin 0;
  one := XFin 1;
  nan := XNaN;
  fadd := Exact.add;
  fsub := Exact.sub;
  fmul := Exact.mul;
  fdiv := Exact.div;
  fsqrt := Exact.sqrt;
  feqb := Exact.eqb;
  fltb := Exact.ltb;
  fleb := Exact.leb
}.

(** ** The derived-statistic formulas

    Each takes the current values of its inputs, in the order of the Python
    parameters ([S_] stands for [S]); a call with another number of arguments is a [TypeError]. *)

Section formulas.
Context `{PyNum F}.

(** [var(S, n)]: sample variance. *)
Definition var (args : list F) : result F :=
  match args with
  | [S_; n] => if fgtb n one then fdiv S_ (fsub n one) else Ok nan
  | _ => Raise TypeError
  end.

(** [std(S, n)]: sample standard deviation. *)
Definition std (args : list F) : result F :=
  match args with
  | [S_; n] => if fgtb n one then q ← fdiv S_ (fsub n one); fsqrt q else Ok nan
  | _ => Raise TypeError
  end.

(** [zscore(S, n, value, M)]: sample z-score. *)
Definition zscore (args : list F) : result F :=
  match args with
  | [S_; n; value; M] =>
      if fgtb S_ zero && fgtb n zero
      then s ← std [S_; n]; fdiv (fsub value M) s
      else Ok nan
  | _ => Raise TypeError
  end.

(** [pop_var(S, n)]: population variance. *)
Definition pop_var (args : list F) : result F :=
  match args with
  | [S_; n] => if fgtb n one then fdiv S_ n else Ok nan
  | _ => Raise TypeError
  end.

(** [pop_std(S, n)]: population standard deviation. *)
Definition pop_std (args : list F) : result F :=
  match args with
  | [S_; n] => if fgtb n one then q ← fdiv S_ n; fsqrt q else Ok nan
  | _ => Raise TypeError
  end.

(** [lambda x: x], the function of [subscribe_mean]. *)
Definition mean_func (args : list F) : result F :=
  match args with
  | [x] => Ok x
  | _ => Raise TypeError
  end.

(** [lambda rec, n: n / rec], the function of [subscribe_harmonic_mean]. *)
Definition harmonic_mean_func (args : list F) : result F :=
  match args with
  | [rec; n] => fdiv n rec
  | _ => Raise TypeError
  end.
End formulas.

(** ** MemoryFloat *)

Module MemoryFloat.
(** [hooks] holds the hooks in the order [add_hook] appended them.  The only
    hooks of this library are the closures that [connect] makes, one per
    link; a hook is named by the index of its link. *)
Record t (F : Type) := mk {
  value : F;
  history : list F;
  hooks : list nat
}.
Arguments mk {F} value history hooks.
Arguments value {F} _.
Arguments history {F} _.
Arguments hooks {F} _.

Section ops.
Context {F : Type}.

(** [MemoryFloat(value)] *)
Definition new (v : F) : t F := mk v [] [].

Definition assign (m : t F) (v : F) : t F := mk v (history m) (hooks m).

Definition add_hook (m : t F) (hook : nat) : t F :=
  mk (value m) (history m) (hooks m ++ [hook]).

(** The first statement of [save]: [self.history.append(self.value)].
    The loop over the hooks needs the objects the hooks reach, and is
    [Container.save_float] below. *)
Definition append (m : t F) : t F :=
  mk (value m) (history m ++ [value m]) (hooks m).

Definition copy (m : t F) : t F := mk (value m) (history m) [].

(** [len(self)] *)
Definition len (m : t F) : nat := length (history m).

(** [[value.history[time] for value in floats]] *)
Definition values_at_time (floats : list (t F)) (time : nat) : result (list F) :=
  sequence ((λ m, match history m !! time with
                  | Some v => Ok v
                  | None => Raise IndexError
                  end) <$> floats).

(** [MemoryFloat.transform]: [func] on the current values, then on the
    entries of the histories at every index of the history of the first
    of [floats]. *)
Definition transform (floats : list (t F)) (func : list F → result F)
  : result (t F) :=
  v ← func (value <$> floats);
  first ← match floats with
          | [] => Raise IndexError
          | m :: _ => Ok m
          end;
  h ← for_each (λ h time,
                  values ← values_at_time floats time;
                  x ← func values;
                  Ok (h ++ [x]))
               [] (seq 0 (len first));
  Ok (mk v h []).
End ops.
End MemoryFloat.

(** ** Container *)

(** The six MemoryFloats a container makes for itself. *)
Inductive primary := Pvalue | Pn | PS | PM | Psum | Preciprocal_sum.

(** The identity of a MemoryFloat of a container ([id(input)] in [connect]):
    one of the six, or the output of the [k]-th call of [subscribe]. *)
Inductive ref :=
| Prim (p : primary)
| Derived (k : nat).

#[global] Instance primary_eq_dec : EqDecision primary.
Proof. solve_decision. Defined.
#[global] Instance ref_eq_dec : EqDecision ref.
Proof. solve_decision. Defined.

Definition primary_code (p : primary) : nat :=
  match p with
  | Pvalue => 0 | Pn => 1 | PS => 2 | PM => 3 | Psum => 4 | Preciprocal_sum => 5
  end.
Definition primary_decode (i : nat) : option primary :=
  match i with
  | 0 => Some Pvalue | 1 => Some Pn | 2 => Some PS | 3 => Some PM
  | 4 => Some Psum | 5 => Some Preciprocal_sum | _ => None
  end.
#[global] Instance primary_countable : Countable primary.
Proof.
  apply (inj_countable primary_code primary_decode). by intros [].
Defined.
#[global] Instance ref_countable : Countable ref.
Proof.
  apply (inj_countable'
           (λ r, match r with Prim p => inl p | Derived k => inr k end)
           (λ s, match s with inl p => Prim p | inr k => Derived k end)).
  by intros [].
Defined.

Module Container.
(** What one call of [MemoryFloat.connect] leaves behind: the closure
    [hook] with its captured [inputs], [func], [all_ids] and the mutable
    [pool], together with the [output] that [subscribe] made for it. *)
Record link (F : Type) := mk_link {
  inputs : list ref;
  func : list F → result F;
  all_ids : gset ref;
  pool : gset ref;
  output : MemoryFloat.t F
}.
Arguments mk_link {F} inputs func all_ids pool output.
Arguments inputs {F} _.
Arguments func {F} _.
Arguments all_ids {F} _.
Arguments pool {F} _.
Arguments output {F} _.

(** [links] holds the subscriptions in the order they were made; [attrs]
    is what [setattr(self, varname, output)] bound: the index of the link
    whose output the attribute [varname] is.  The fields of the six hold
    the objects that the constructor made, which is what [mem_floats]
    keeps, whatever the attributes are bound to later. *)
Record t (F : Type) := mk {
  data : list F;
  window_size : F;
  value : MemoryFloat.t F;
  n : MemoryFloat.t F;
  S : MemoryFloat.t F;
  M : MemoryFloat.t F;
  sum : MemoryFloat.t F;
  reciprocal_sum : MemoryFloat.t F;
  links : list (link F);
  attrs : gmap string nat
}.
Arguments mk {F} data window_size value n S M sum reciprocal_sum links attrs.
Arguments data {F} _.
Arguments window_size {F} _.
Arguments value {F} _.
Arguments n {F} _.
Arguments S {F} _.
Arguments M {F} _.
Arguments sum {F} _.
Arguments reciprocal_sum {F} _.
Arguments links {F} _.
Arguments attrs {F} _.

Section ops.
Context `{PyNum F}.

(** *** Reading and writing the fields *)

Definition prim (c : t F) (p : primary) : MemoryFloat.t F :=
  match p with
  | Pvalue => value c
  | Pn => n c
  | PS => S c
  | PM => M c
  | Psum => sum c
  | Preciprocal_sum => reciprocal_sum c
  end.

Definition set_prim (c : t F) (p : primary) (m : MemoryFloat.t F) : t F :=
  match c with
  | mk d w v n_ s_ m_ sm rs ls at_ =>
      match p with
      | Pvalue => mk d w m n_ s_ m_ sm rs ls at_
      | Pn => mk d w v m s_ m_ sm rs ls at_
      | PS => mk d w v n_ m m_ sm rs ls at_
      | PM => mk d w v n_ s_ m sm rs ls at_
      | Psum => mk d w v n_ s_ m_ m rs ls at_
      | Preciprocal_sum => mk d w v n_ s_ m_ sm m ls at_
      end
  end.

Definition set_data (c : t F) (d : list F) : t F :=
  mk d (window_size c) (value c) (n c) (S c) (M c) (sum c)
     (reciprocal_sum c) (links c) (attrs c).

Definition set_links (c : t F) (ls : list (link F)) : t F :=
  mk (data c) (window_size c) (value c) (n c) (S c) (M c) (sum c)
     (reciprocal_sum c) ls (attrs c).

Definition set_attrs (c : t F) (a : gmap string nat) : t F :=
  mk (data c) (window_size c) (value c) (n c) (S c) (M c) (sum c)
     (reciprocal_sum c) (links c) a.

Definition set_output (l : link F) (m : MemoryFloat.t F) : link F :=
  mk_link (inputs l) (func l) (all_ids l) (pool l) m.

Definition set_pool (l : link F) (s : gset ref) : link F :=
  mk_link (inputs l) (func l) (all_ids l) s (output l).

(** The MemoryFloat a reference denotes; a reference to an output that
    was never made cannot be written in Python (the attribute lookup
    that would produce it raises). *)
Definition get (c : t F) (r : ref) : result (MemoryFloat.t F) :=
  match r with
  | Prim p => Ok (prim c p)
  | Derived k =>
      match links c !! k with
      | Some l => Ok (output l)
      | None => Raise AttributeError
      end
  end.

(** Updating, in place, the MemoryFloat a reference denotes. *)
Definition update (c : t F) (r : ref)
    (f : MemoryFloat.t F → MemoryFloat.t F) : t F :=
  match r with
  | Prim p => set_prim c p (f (prim c p))
  | Derived k =>
      set_links c (alter (λ l, set_output l (f (output l))) k (links c))
  end.

(** [self.<p>.value] *)
Definition cur (c : t F) (p : primary) : F := MemoryFloat.value (prim c p).

(** [self.<p>.assign(v)], and what [+=] and [-=] do to a MemoryFloat. *)
Definition assign (c : t F) (p : primary) (v : F) : t F :=
  update c (Prim p) (λ m, MemoryFloat.assign m v).

(** *** MemoryFloat.save and the hooks of MemoryFloat.connect *)

(** The current values of [inputs], which is what the functions of this
    library read of the MemoryFloats they are called with. *)
Definition read (c : t F) (inputs : list ref) : result (list F) :=
  sequence ((λ r, MemoryFloat.value <$> get c r) <$> inputs).

(** The closure [hook] of link [k], called with [input]; [save_output]
    is [output.save()]. *)
Definition hook (save_output : ref → t F → result (t F))
    (k : nat) (input : ref) (c : t F) : result (t F) :=
  match links c !! k with
  | None => Raise AttributeError
  | Some l =>
      let pool' := pool l ∪ {[ input ]} in
      let c := set_links c (<[k := set_pool l pool']> (links c)) in
      if decide (pool' = all_ids l) then
        args ← read c (inputs l);
        v ← func l args;
        let c := update c (Derived k) (λ m, MemoryFloat.assign m v) in
        c ← save_output (Derived k) c;
        Ok (set_links c (alter (λ l, set_pool l ∅) k (links c)))
      else Ok c
  end.

(** [MemoryFloat.save] of the MemoryFloat [r]: append the value to the
    history, then call the hooks in order.  A hook may save its output,
    whose hooks may save theirs; [depth] bounds the nesting of these
    calls, as the interpreter's recursion limit does. *)
Fixpoint save_float (depth : nat) (r : ref) (c : t F) : result (t F) :=
  match depth with
  | O => Raise RecursionError
  | Datatypes.S depth' =>
      m ← get c r;
      let c := update c r MemoryFloat.append in
      for_each (λ c k, hook (save_float depth') k r c) c (MemoryFloat.hooks m)
  end.

(** The interpreter's recursion limit is a constant of the process, which
    a chain of some hundreds of subscriptions, each to the output of the
    one before, exceeds.  The embedding takes the limit not to be
    reached: [subscribe] only connects MemoryFloats that exist already,
    so that the chains of hooks are never longer than the number of
    links, and [save] is given that depth. *)
Definition recursion_limit (c : t F) : nat := Datatypes.S (length (links c)).

(** [self.mem_floats] *)
Definition mem_floats : list primary :=
  [Pvalue; Pn; PS; PM; Psum; Preciprocal_sum].

(** [Container.save] *)
Definition save (c : t F) : result (t F) :=
  for_each (λ c p, save_float (recursion_limit c) (Prim p) c) c mem_floats.

(** *** subscribe *)

Definition valid (c : t F) (r : ref) : bool :=
  match r with
  | Prim _ => true
  | Derived k => bool_decide (k < length (links c))
  end.

(** [MemoryFloat.connect] on [inputs], [output] and [func], for the
    link that gets index [k]: the closure, then [add_hook] on every
    input, in order. *)
Definition connect (c : t F) (inputs : list ref) (output : MemoryFloat.t F)
    (func : list F → result F) : t F :=
  let k := length (links c) in
  let l := mk_link inputs func (list_to_set inputs) ∅ output in
  let c := set_links c (links c ++ [l]) in
  foldl (λ c r, update c r (λ m, MemoryFloat.add_hook m k)) c inputs.

(** [subscribe], and below it [_pop], [push] and [save], for a container
    none of whose own names ([n], [data], [push], ...) was given to
    [subscribe] as [varname]: [self.n] and the like are then the objects
    of the constructor.  With one of those names [setattr] replaces the
    attribute, and the methods run on what it is bound to: that is
    [Live.subscribe] and [Live.push], which agree with these on the
    containers that are [unshadowed]. *)
Definition subscribe (c : t F) (varname : string) (inputs : list ref)
    (func : list F → result F) : result (t F) :=
  if forallb (valid c) inputs then
    let output := MemoryFloat.new nan in
    let c := set_attrs c (<[varname := length (links c)]> (attrs c)) in
    Ok (connect c inputs output func)
  else Raise AttributeError.

Definition subscribe_var c := subscribe c "var" [Prim PS; Prim Pn] var.
Definition subscribe_std c := subscribe c "std" [Prim PS; Prim Pn] std.
Definition subscribe_pop_var c :=
  subscribe c "pop_var" [Prim PS; Prim Pn] pop_var.
Definition subscribe_pop_std c :=
  subscribe c "pop_std" [Prim PS; Prim Pn] pop_std.
Definition subscribe_z_score c :=
  subscribe c "zscore" [Prim PS; Prim Pn; Prim Pvalue; Prim PM] zscore.
Definition subscribe_mean c := subscribe c "mean" [Prim PM] mean_func.
Definition subscribe_harmonic_mean c :=
  subscribe c "harmonic_mean" [Prim Preciprocal_sum; Prim Pn]
            harmonic_mean_func.

(** [getattr(self, varname)] for a subscribed name. *)
Definition attr (c : t F) (varname : string) : result (MemoryFloat.t F) :=
  match attrs c !! varname with
  | Some k => get c (Derived k)
  | None => Raise AttributeError
  end.

(** *** _pop and push *)

Definition _pop (c : t F) : result (t F) :=
  match data c with
  | [] => Raise IndexError
  | out :: rest =>
      let c := set_data c rest in
      let prev_M := cur c PM in
      let c := assign c Pn (fsub (cur c Pn) one) in
      let c := assign c Psum (fsub (cur c Psum) out) in
      if feqb (cur c Pn) zero then
        let c := assign c PS nan in
        let c := assign c PM nan in
        Ok (assign c Preciprocal_sum nan)
      else
        let cur_diff := fsub out (cur c PM) in
        q ← fdiv cur_diff (cur c Pn);
        let c := assign c PM (fsub (cur c PM) q) in
        let c := assign c PS (fsub (cur c PS) (fmul cur_diff (fsub out prev_M))) in
        if feqb out zero then Ok (assign c Preciprocal_sum nan)
        else
          r ← fdiv one out;
          Ok (assign c Preciprocal_sum (fsub (cur c Preciprocal_sum) r))
  end.

(** The body of the loop of [push] for one datapoint, up to the call of
    [self.save()]. *)
Definition absorb (c : t F) (datapoint : F) : result (t F) :=
  let c := assign c Pvalue datapoint in
  c ← (if fgeb (cur c Pn) (window_size c) then _pop c else Ok c);
  reciprocal ← (if feqb datapoint zero then Ok nan else fdiv one datapoint);
  let c := assign c Pn (fadd (cur c Pn) one) in
  let c := assign c Psum (fadd (cur c Psum) datapoint) in
  if feqb (cur c Pn) one then
    let c := assign c PS zero in
    let c := assign c PM datapoint in
    Ok (assign c Preciprocal_sum reciprocal)
  else
    let prev_M := cur c PM in
    let cur_diff := fsub datapoint prev_M in
    q ← fdiv cur_diff (cur c Pn);
    let c := assign c PM (fadd (cur c PM) q) in
    let c := assign c PS
               (fadd (cur c PS) (fmul cur_diff (fsub datapoint (cur c PM)))) in
    Ok (assign c Preciprocal_sum (fadd (cur c Preciprocal_sum) reciprocal)).

(** The whole body of the loop. *)
Definition push_one (c : t F) (datapoint : F) : result (t F) :=
  c ← absorb c datapoint; save c.

(** [push], called with any number of datapoints.  A container made with [window_size <= 0] has
    its [push] replaced by [lambda datapoints: None], a function of
    exactly one argument. *)
Definition push (c : t F) (datapoints : list F) : result (t F) :=
  if fleb (window_size c) zero then
    match datapoints with
    | [_] => Ok c
    | _ => Raise TypeError
    end
  else
    for_each push_one (set_data c (data c ++ datapoints)) datapoints.

(** [Container(data, window_size)]; [data=None] is the empty list. *)
Definition empty (window_size : F) : t F :=
  mk [] window_size
     (MemoryFloat.new nan) (MemoryFloat.new zero) (MemoryFloat.new nan)
     (MemoryFloat.new nan) (MemoryFloat.new zero) (MemoryFloat.new nan)
     [] ∅.

Definition init (data : list F) (window_size : F) : result (t F) :=
  let c := empty window_size in
  match data with
  | [] => Ok c
  | _ => push c data
  end.

(** [len(self)] *)
Definition len (c : t F) : nat := length (data c).

(** *** Indexing and slicing *)

(** What [container[item]] is called with: an int, or a slice
    [start:stop:step] whose parts may be left out. *)
Inductive item :=
| Index (i : Z)
| Slice (start stop step : option Z).

(** [self.data[i]], on a deque: a negative index counts from the end. *)
Definition index (d : list F) (i : Z) : result F :=
  let len := Z.of_nat (length d) in
  let j := if (i <? 0)%Z then (i + len)%Z else i in
  if ((j <? 0) || (len <=? j))%Z then Raise IndexError
  else match d !! Z.to_nat j with
       | Some x => Ok x
       | None => Raise IndexError
       end.

(** A bound of a slice, clipped as Python's [slice.indices] clips it: the
    length is added to a negative bound, and a bound outside of the list
    is moved to its nearer end. *)
Definition clip (len step i : Z) : Z :=
  if (i <? 0)%Z then
    if (i + len <? 0)%Z then (if (step <? 0)%Z then -1 else 0)%Z
    else (i + len)%Z
  else if (len <=? i)%Z then (if (step <? 0)%Z then len - 1 else len)%Z
  else i.

(** [list(self.data)[start:stop:step]] *)
Definition slice (d : list F) (start stop step : option Z) : result (list F) :=
  let len := Z.of_nat (length d) in
  let step := default 1%Z step in
  if (step =? 0)%Z then Raise ValueError
  else
    let start := match start with
                 | Some i => clip len step i
                 | None => if (step <? 0)%Z then (len - 1)%Z else 0%Z
                 end in
    let stop := match stop with
                | Some i => clip len step i
                | None => if (step <? 0)%Z then (-1)%Z else len
                end in
    let count :=
      if (step <? 0)%Z
      then (if (stop <? start)%Z then (start - stop - 1) / (- step) + 1 else 0)%Z
      else (if (start <? stop)%Z then (stop - start - 1) / step + 1 else 0)%Z in
    Ok (omap (λ k, d !! Z.to_nat (start + Z.of_nat k * step))
             (seq 0 (Z.to_nat count))).

(** [Container.__getitem__] *)
Definition getitem (c : t F) (it : item) : result (F + list F) :=
  match it with
  | Slice start stop step => inr <$> slice (data c) start stop step
  | Index i => inl <$> index (data c) i
  end.
End ops.
End Container.

(** ** The methods on the live object

    The methods as they run on the object itself: an attribute is what
    [setattr] bound it to last, and a call that raises leaves the object
    as it is at the [raise]. *)

Module Live.

Import Container.

(** How a call ends: it returns, or it raises; either way the object is
    left in a state. *)
Inductive outcome (F : Type) :=
| Done (c : t F)
| Raised (e : exn) (c : t F).
Arguments Done {F} c.
Arguments Raised {F} e c.

Section ops.
Context `{PyNum F}.

(** The state a call leaves the object in. *)
Definition left (o : outcome F) : t F :=
  match o with
  | Done c | Raised _ c => c
  end.

(** What the caller sees of a call. *)
Definition returned (o : outcome F) : result (t F) :=
  match o with
  | Done c => Ok c
  | Raised e _ => Raise e
  end.

Definition and_then (o : outcome F) (rest : t F → outcome F) : outcome F :=
  match o with
  | Done c => rest c
  | Raised e c => Raised e c
  end.

(** An expression that may raise, evaluated in the state [c]. *)
Definition eval {A : Type} (c : t F) (m : result A) (rest : A → outcome F)
  : outcome F :=
  match m with
  | Ok a => rest a
  | Raise e => Raised e c
  end.

Fixpoint each {B : Type} (body : t F → B → outcome F) (c : t F)
    (l : list B) : outcome F :=
  match l with
  | [] => Done c
  | b :: l' => and_then (body c b) (λ c, each body c l')
  end.

(** *** Attributes *)

(** The attribute that the constructor binds to each of the six. *)
Definition attribute (p : primary) : string :=
  match p with
  | Pvalue => "value"
  | Pn => "n"
  | PS => "S"
  | PM => "M"
  | Psum => "sum"
  | Preciprocal_sum => "reciprocal_sum"
  end.

(** [self.<p>]: the MemoryFloat of the constructor, unless [setattr] in
    [subscribe] has bound the attribute to an output since. *)
Definition self_ (c : t F) (p : primary) : ref :=
  match attrs c !! attribute p with
  | Some k => Derived k
  | None => Prim p
  end.

(** [r.value]; [attrs] and the inputs of links only hold outputs that
    were made, so that the default is never read. *)
Definition val (c : t F) (r : ref) : F :=
  match get c r with
  | Ok m => MemoryFloat.value m
  | Raise _ => nan
  end.

(** [r.assign(v)], and what [+=] and [-=] do to the MemoryFloat [r]. *)
Definition set_val (c : t F) (r : ref) (v : F) : t F :=
  update c r (λ m, MemoryFloat.assign m v).

(** The right-hand side of [self.n >= self.window_size]: a number, or
    the value of the output that the attribute was bound to. *)
Definition window (c : t F) : F :=
  match attrs c !! "window_size" with
  | Some k => val c (Derived k)
  | None => window_size c
  end.

(** Calling [self.<name>(...)]: an attribute that [subscribe] bound to
    an output is a MemoryFloat, which is not callable. *)
Definition invoke (c : t F) (name : string) (method : t F → outcome F)
  : outcome F :=
  match attrs c !! name with
  | Some _ => Raised TypeError c
  | None => method c
  end.

(** *** MemoryFloat.save and the hooks *)

Definition hook (save_output : ref → t F → outcome F)
    (k : nat) (input : ref) (c : t F) : outcome F :=
  match links c !! k with
  | None => Raised AttributeError c
  | Some l =>
      let pool' := pool l ∪ {[ input ]} in
      let c := set_links c (<[k := set_pool l pool']> (links c)) in
      if decide (pool' = all_ids l) then
        eval c (read c (inputs l)) (λ args,
        eval c (func l args) (λ v,
        let c := set_val c (Derived k) v in
        and_then (save_output (Derived k) c) (λ c,
        Done (set_links c (alter (λ l, set_pool l ∅) k (links c))))))
      else Done c
  end.

Fixpoint save_float (depth : nat) (r : ref) (c : t F) : outcome F :=
  match depth with
  | O => Raised RecursionError c
  | Datatypes.S depth' =>
      eval c (get c r) (λ m,
      let c := update c r MemoryFloat.append in
      each (λ c k, hook (save_float depth') k r c) c (MemoryFloat.hooks m))
  end.

(** [Container.save]: [self.mem_floats] is the tuple of the six that the
    constructor made, unless the attribute was bound to an output, which
    cannot be iterated over. *)
Definition save (c : t F) : outcome F :=
  match attrs c !! "mem_floats" with
  | Some _ => Raised TypeError c
  | None =>
      each (λ c p, save_float (recursion_limit c) (Prim p) c) c mem_floats
  end.

(** *** _pop and push *)

Definition _pop (c : t F) : outcome F :=
  match attrs c !! "data" with
  | Some _ => Raised AttributeError c
  | None =>
      match data c with
      | [] => Raised IndexError c
      | out :: rest =>
          let c := set_data c rest in
          let prev_M := val c (self_ c PM) in
          let c := set_val c (self_ c Pn) (fsub (val c (self_ c Pn)) one) in
          let c := set_val c (self_ c Psum) (fsub (val c (self_ c Psum)) out) in
          if feqb (val c (self_ c Pn)) zero then
            let c := set_val c (self_ c PS) nan in
            let c := set_val c (self_ c PM) nan in
            Done (set_val c (self_ c Preciprocal_sum) nan)
          else
            let cur_diff := fsub out (val c (self_ c PM)) in
            eval c (fdiv cur_diff (val c (self_ c Pn))) (λ q,
            let c := set_val c (self_ c PM) (fsub (val c (self_ c PM)) q) in
            let c := set_val c (self_ c PS)
                       (fsub (val c (self_ c PS))
                             (fmul cur_diff (fsub out prev_M))) in
            if feqb out zero then Done (set_val c (self_ c Preciprocal_sum) nan)
            else
              eval c (fdiv one out) (λ r,
              Done (set_val c (self_ c Preciprocal_sum)
                      (fsub (val c (self_ c Preciprocal_sum)) r))))
      end
  end.

(** The body of the loop of [push] for one datapoint. *)
Definition push_one (c : t F) (datapoint : F) : outcome F :=
  let c := set_val c (self_ c Pvalue) datapoint in
  and_then (if fgeb (val c (self_ c Pn)) (window c) then invoke c "_pop" _pop
            else Done c) (λ c,
  eval c (if feqb datapoint zero then Ok nan else fdiv one datapoint)
    (λ reciprocal,
  let c := set_val c (self_ c Pn) (fadd (val c (self_ c Pn)) one) in
  let c := set_val c (self_ c Psum) (fadd (val c (self_ c Psum)) datapoint) in
  and_then
    (if feqb (val c (self_ c Pn)) one then
       let c := set_val c (self_ c PS) zero in
       let c := set_val c (self_ c PM) datapoint in
       Done (set_val c (self_ c Preciprocal_sum) reciprocal)
     else
       let prev_M := val c (self_ c PM) in
       let cur_diff := fsub datapoint prev_M in
       eval c (fdiv cur_diff (val c (self_ c Pn))) (λ q,
       let c := set_val c (self_ c PM) (fadd (val c (self_ c PM)) q) in
       let c := set_val c (self_ c PS)
                  (fadd (val c (self_ c PS))
                        (fmul cur_diff (fsub datapoint (val c (self_ c PM))))) in
       Done (set_val c (self_ c Preciprocal_sum)
               (fadd (val c (self_ c Preciprocal_sum)) reciprocal))))
    (λ c, invoke c "save" save))).

(** [self.push(datapoints)] *)
Definition push (c : t F) (datapoints : list F) : outcome F :=
  invoke c "push" (λ c,
    if fleb (window_size c) zero then
      match datapoints with
      | [_] => Done c
      | _ => Raised TypeError c
      end
    else
      match attrs c !! "data" with
      | Some _ => Raised AttributeError c
      | None => each push_one (set_data c (data c ++ datapoints)) datapoints
      end).

(** *** subscribe *)

(** [setattr(self, varname, output)]: [__class__] and [__dict__] only
    take a class and a dict, and [__weakref__] cannot be written. *)
Definition setattr (c : t F) (varname : string) (k : nat) : result (t F) :=
  if bool_decide (varname = "__class__") || bool_decide (varname = "__dict__")
  then Raise TypeError
  else if bool_decide (varname = "__weakref__") then Raise AttributeError
  else Ok (set_attrs c (<[varname := k]> (attrs c))).

Definition subscribe (c : t F) (varname : string) (inputs : list ref)
    (func : list F → result F) : outcome F :=
  invoke c "subscribe" (λ c,
    if forallb (valid c) inputs then
      let output := MemoryFloat.new nan in
      eval c (setattr c varname (length (links c))) (λ c,
      Done (connect c inputs output func))
    else Raised AttributeError c).

(** The wrappers read [self.S], [self.n] and so on when they are
    called. *)
Definition subscribe_var (c : t F) : outcome F :=
  invoke c "subscribe_var" (λ c,
    subscribe c "var" [self_ c PS; self_ c Pn] var).
Definition subscribe_std (c : t F) : outcome F :=
  invoke c "subscribe_std" (λ c,
    subscribe c "std" [self_ c PS; self_ c Pn] std).
Definition subscribe_pop_var (c : t F) : outcome F :=
  invoke c "subscribe_pop_var" (λ c,
    subscribe c "pop_var" [self_ c PS; self_ c Pn] pop_var).
Definition subscribe_pop_std (c : t F) : outcome F :=
  invoke c "subscribe_pop_std" (λ c,
    subscribe c "pop_std" [self_ c PS; self_ c Pn] pop_std).
Definition subscribe_z_score (c : t F) : outcome F :=
  invoke c "subscribe_z_score" (λ c,
    subscribe c "zscore"
              [self_ c PS; self_ c Pn; self_ c Pvalue; self_ c PM] zscore).
Definition subscribe_mean (c : t F) : outcome F :=
  invoke c "subscribe_mean" (λ c,
    subscribe c "mean" [self_ c PM] mean_func).
Definition subscribe_harmonic_mean (c : t F) : outcome F :=
  invoke c "subscribe_harmonic_mean" (λ c,
    subscribe c "harmonic_mean" [self_ c Preciprocal_sum; self_ c Pn]
              harmonic_mean_func).
End ops.
End Live.

(** * The vocabulary of the theorems

    What the theorems below say of containers: the invariants of the hook
    graph, the sessions of calls a program makes, and the invariants of
    the statistics in exact arithmetic. *)

(** ** Invariants of the hook graph *)

Module Invariants.
Import Container.

Section invariants.
Context `{PyNum F}.
Implicit Types (c : t F) (l : link F) (m : MemoryFloat.t F) (k : nat) (r : ref).

(** The parts of a link that only [subscribe] writes. *)
Definition link_shape l l' : Prop :=
  inputs l' = inputs l ∧ func l' = func l ∧ all_ids l' = all_ids l ∧
  MemoryFloat.hooks (output l') = MemoryFloat.hooks (output l).

(** [shape c c']: [c'] differs from [c] at most in the histories, in
    the values of the outputs and in the pools. *)
Record shape c c' : Prop := mk_shape {
  shape_data : data c' = data c;
  shape_window_size : window_size c' = window_size c;
  shape_attrs : attrs c' = attrs c;
  shape_cur : ∀ p, cur c' p = cur c p;
  shape_hooks : ∀ p, MemoryFloat.hooks (prim c' p) = MemoryFloat.hooks (prim c p);
  shape_links : Forall2 link_shape (links c) (links c')
}.

(** No output carries the hook of link [k]: no input of [k] is an
    output. *)
Definition isolated c k : Prop :=
  ∀ j l, links c !! j = Some l → k ∉ MemoryFloat.hooks (output l).

(** Link [l] after its barrier fired with [v]: the pool is empty again,
    and the output holds [v], also as the last entry of its history. *)
Definition fire l (v : F) : link F :=
  mk_link (inputs l) (func l) (all_ids l) ∅
          (MemoryFloat.append (MemoryFloat.assign (output l) v)).

(** A link all of whose inputs are primaries, pairwise distinct, and at
    least one. *)
Definition flat l : Prop :=
  inputs l ≠ [] ∧ NoDup (inputs l) ∧ ∀ r, r ∈ inputs l → ∃ p, r = Prim p.

(** The arguments a flat link calls its function with. *)
Definition prim_values c l : list F :=
  (λ r, match r with Prim p => cur c p | Derived _ => nan end) <$> inputs l.

(** The hook of the flat link [k] was added once to each of its inputs
    and to nothing else. *)
Definition wired c k l : Prop :=
  isolated c k ∧
  (∀ p, Prim p ∈ inputs l →
     ∃ hs1 hs2, MemoryFloat.hooks (prim c p) = hs1 ++ k :: hs2 ∧
                (k ∉ hs1) ∧ (k ∉ hs2)) ∧
  (∀ p, Prim p ∉ inputs l → k ∉ MemoryFloat.hooks (prim c p)).

(** The state of link [k] when the primaries in [seen] have been saved
    in this cycle: still waiting, with exactly its inputs among [seen]
    in the pool, or fired, which takes all its inputs to be in [seen]. *)
Definition waiting l (seen : gset ref) (lk : link F) : Prop :=
  lk = set_pool l (all_ids l ∩ seen) ∧ ¬ (all_ids l ⊆ seen).

Definition fired c l (seen : gset ref) (lk : link F) : Prop :=
  all_ids l ⊆ seen ∧ ∃ v, func l (prim_values c l) = Ok v ∧ lk = fire l v.

(** How often [x] occurs in a list. *)
Definition occurrences {A : Type} `{EqDecision A} (x : A) (xs : list A) : nat :=
  length (filter (λ y, y = x) xs).

(** [wf c]: every hook stands where [connect] put it, once for every
    time its link names the MemoryFloat as an input; [all_ids] is the
    set of the inputs; between two pushes the pool of a flat link is
    empty; and a link only has inputs that were there before it. *)
Record wf c : Prop := mk_wf {
  wf_hooks : ∀ r m k, get c r = Ok m →
    occurrences k (MemoryFloat.hooks m) =
      from_option (λ l, occurrences r (inputs l)) 0 (links c !! k);
  wf_all_ids : ∀ k l, links c !! k = Some l → all_ids l = list_to_set (inputs l);
  wf_pool : ∀ k l, links c !! k = Some l → flat l → pool l = ∅;
  wf_inputs : ∀ k l j, links c !! k = Some l → Derived j ∈ inputs l → j < k
}.

(** The parts of a link that [add_hook] on its output does not touch. *)
Definition same_wiring l l' : Prop :=
  inputs l' = inputs l ∧ all_ids l' = all_ids l ∧ pool l' = pool l ∧
  func l' = func l.

Definition add_hooks (k0 : nat) c (rs : list ref) : t F :=
  foldl (λ c r, update c r (λ m, MemoryFloat.add_hook m k0)) c rs.

(** [stats_only c c']: [c'] differs from [c] at most in the data and in
    the values of the primaries. *)
Definition stats_only c c' : Prop :=
  links c' = links c ∧ attrs c' = attrs c ∧ window_size c' = window_size c ∧
  ∀ p, MemoryFloat.hooks (prim c' p) = MemoryFloat.hooks (prim c p) ∧
       MemoryFloat.history (prim c' p) = MemoryFloat.history (prim c p).

(** The parts of [wf] that no hook changes. *)
Definition structured c : Prop :=
  (∀ r m k, get c r = Ok m →
     occurrences k (MemoryFloat.hooks m) =
       from_option (λ l, occurrences r (inputs l)) 0 (links c !! k)) ∧
  (∀ k l j, links c !! k = Some l → Derived j ∈ inputs l → j < k).

(** No function of a link raises in this commit cycle: the function of a
    flat link returns on the current values of the primaries, and every
    other function on any arguments, as many as the link has inputs. *)
Definition defined c : Prop :=
  ∀ k l args, links c !! k = Some l → length args = length (inputs l) →
              (flat l → args = prim_values c l) →
              ∃ v, func l args = Ok v.

(** Sufficient: no function raises on any arguments of the right number. *)
Definition total_funcs c : Prop :=
  ∀ k l args, links c !! k = Some l → length args = length (inputs l) →
              ∃ v, func l args = Ok v.

(** The depth of calls that saving [r] needs at most. *)
Definition enough c (r : ref) (depth : nat) : Prop :=
  match r with
  | Prim _ => length (links c) < depth
  | Derived j => j < length (links c) ∧ length (links c) - j ≤ depth
  end.

(** The container after a commit cycle in which the function of the
    [k]-th link returned [vs !! k]. *)
Definition commit c (vs : list F) : t F :=
  mk (data c) (window_size c)
     (MemoryFloat.append (value c)) (MemoryFloat.append (n c))
     (MemoryFloat.append (S c)) (MemoryFloat.append (M c))
     (MemoryFloat.append (sum c)) (MemoryFloat.append (reciprocal_sum c))
     (zip_with fire (links c) vs) (attrs c).

(** The names that a container uses itself: the attributes that the
    constructor binds, the methods, and the three attributes of every
    object that [setattr] refuses. *)
Definition own_names : list string :=
  ["data"; "window_size"; "value"; "n"; "M"; "sum"; "S"; "reciprocal_sum";
   "mem_floats"; "push"; "_pop"; "save"; "subscribe"; "subscribe_var";
   "subscribe_std"; "subscribe_pop_var"; "subscribe_pop_std";
   "subscribe_z_score"; "subscribe_mean"; "subscribe_harmonic_mean";
   "__class__"; "__dict__"; "__weakref__"].

(** No subscription was given one of the container's own names. *)
Definition unshadowed (c : t F) : Prop :=
  Forall (λ name, attrs c !! name = None) own_names.

(** [k] times [+= 1], from [0]: what [n] is after [k] samples. *)
Fixpoint count (k : nat) : F :=
  match k with
  | O => zero
  | Datatypes.S k => fadd (count k) one
  end.

(** Counting is exact below [N]: [-= 1] undoes [+= 1], a count of at
    least one is not [== 0], a count of one is not [> 1], and a division
    raises only on a divisor that is [== 0].  Python counts [n] in an
    int, where this holds for every [N]. *)
Definition counting (N : nat) : Prop :=
  feqb zero zero = true ∧
  fgtb (count 1) one = false ∧
  (∀ x y : F, feqb y zero = false → ∃ q, fdiv x y = Ok q) ∧
  ∀ j : nat, j < N → fsub (count (Datatypes.S j)) one = count j ∧
                     feqb (count (Datatypes.S j)) zero = false.

(** [tallied c pending]: [n] counts the retained samples but the last
    [pending] ones, no more of them than samples were committed, and the
    statistics are blank while it counts none. *)
Definition tallied c (pending : nat) : Prop :=
  ∃ j : nat, cur c Pn = count j ∧ length (data c) = j + pending ∧
       j ≤ length (MemoryFloat.history (n c)) ∧
       (j = 0 → cur c PS = nan ∧ cur c PM = nan ∧ cur c Preciprocal_sum = nan).

(** A link as [subscribe_var], [subscribe_pop_var] or [subscribe_mean]
    makes it. *)
Definition guarded l : Prop :=
  (inputs l = [Prim PS; Prim Pn] ∧ (func l = var ∨ func l = pop_var)) ∨
  (inputs l = [Prim PM] ∧ func l = mean_func).

(** A test for [flat] that computes. *)
Definition is_prim (r : ref) : bool :=
  match r with Prim _ => true | Derived _ => false end.

Definition flat_test l : bool :=
  bool_decide (inputs l ≠ []) && bool_decide (NoDup (inputs l)) &&
  forallb is_prim (inputs l).

End invariants.
End Invariants.

(** ** Sessions: the calls a program makes on one container *)

Module Calls.
Import Container Invariants.

Section calls.
Context `{PyNum F}.
Implicit Types (c : t F) (l : link F) (m : MemoryFloat.t F) (k : nat) (r : ref).

Inductive call :=
| Push (datapoints : list F)
| Subscribe (varname : string) (inputs : list ref) (func : list F → result F).

Definition step c (o : call) : result (t F) :=
  match o with
  | Push datapoints => push c datapoints
  | Subscribe varname inputs func => subscribe c varname inputs func
  end.

Definition run c (calls : list call) : result (t F) := for_each step c calls.

(** The number of samples pushed by [calls]. *)
Fixpoint pushed (calls : list call) : nat :=
  match calls with
  | [] => 0
  | Push datapoints :: calls' => length datapoints + pushed calls'
  | Subscribe _ _ _ :: calls' => pushed calls'
  end.

(** The calls after the [k]-th call of [subscribe], counted from 0. *)
Fixpoint since (k : nat) (calls : list call) : list call :=
  match calls with
  | [] => []
  | Push _ :: calls' => since k calls'
  | Subscribe _ _ _ :: calls' =>
      match k with
      | O => calls'
      | Datatypes.S k' => since k' calls'
      end
  end.

(** Evicting down to the empty window: [_pop], once for every retained
    sample. *)
Definition evict_all c : result (t F) := for_each (λ c _, _pop c) c (data c).

(** The containers that the constructor, [subscribe] and [push] can
    return when every sample satisfies [sample], in a session in which
    every call returned.  A call of [push] that raises leaves the object
    changed ([Live.left]); those states are not among these. *)
Inductive reachable (sample : F → Prop) : t F → Prop :=
| reachable_init data w c :
    Forall sample data → init data w = Ok c → reachable sample c
| reachable_subscribe c varname inputs func c' :
    reachable sample c → subscribe c varname inputs func = Ok c' →
    reachable sample c'
| reachable_push c datapoints c' :
    reachable sample c → Forall sample datapoints →
    push c datapoints = Ok c' → reachable sample c'.

(** The [i]-th row of new history entries [ws] of the primaries, read
    at the inputs of the flat link [l]. *)
Definition row (ws : primary → list F) l (i : nat) : list F :=
  (λ r, match r with
        | Prim p => default nan (ws p !! i)
        | Derived _ => nan
        end) <$> inputs l.

(** [subscribe_var()], [subscribe_std()], [subscribe_pop_var()],
    [subscribe_pop_std()] and [subscribe_z_score()] on a new container
    of window size [w]. *)
Definition subscribed (w : F) : result (t F) :=
  c ← subscribe_var (empty w); c ← subscribe_std c;
  c ← subscribe_pop_var c; c ← subscribe_pop_std c; subscribe_z_score c.

(** [getattr(c, name).value] *)
Definition now (c : t F) (name : string) : result F :=
  MemoryFloat.value <$> attr c name.

(** [getattr(c, name).history] *)
Definition past (c : t F) (name : string) : result (list F) :=
  MemoryFloat.history <$> attr c name.

(** The samples that [calls] push, in order. *)
Fixpoint samples (calls : list call) : list F :=
  match calls with
  | [] => []
  | Push datapoints :: calls' => datapoints ++ samples calls'
  | Subscribe _ _ _ :: calls' => samples calls'
  end.

End calls.
End Calls.

(** ** Invariants of the statistics in exact arithmetic *)

Module ExactInvariants.
Import Container Invariants Calls.

Implicit Types (c : t xreal) (m : nat).

Definition sum_list (xs : list R) : R := foldr Rplus 0%R xs.

(** The arithmetic mean and the sum of squared deviations from it. *)
Definition mean (xs : list R) : R := (sum_list xs / INR (length xs))%R.

Definition sum_sq_dev (xs : list R) : R :=
  sum_list ((λ x, (x - mean xs) * (x - mean xs))%R <$> xs).

Definition any_sample (x : xreal) : Prop := True.

Definition finite (x : xreal) : Prop := ∃ r, x = XFin r.

(** [counted c pending]: [n] counts the retained samples but the last
    [pending] ones, and stays below [window_size + 1]. *)
Definition counted c (pending : nat) : Prop :=
  ∃ m, cur c Pn = XFin (INR m) ∧ length (data c) = m + pending ∧
       ∀ wr, window_size c = XFin wr → (0 < wr)%R → (INR m < wr + 1)%R.

Definition first_zero c : Prop :=
  feqb (cur c Pn) one = true → cur c PS = zero.

(** [summed c cnt pending]: the retained samples are [cnt] and then
    [pending], and [n] and [sum] are the length and the sum of [cnt]. *)
Definition summed c (cnt pending : list R) : Prop :=
  data c = XFin <$> (cnt ++ pending) ∧
  cur c Pn = XFin (INR (length cnt)) ∧ cur c Psum = XFin (sum_list cnt).

Definition blank c : Prop :=
  cur c PS = XNaN ∧ cur c PM = XNaN ∧ cur c Preciprocal_sum = XNaN.

Definition settled c : Prop := ∃ cnt, summed c cnt [] ∧ (cnt = [] → blank c).

(** The sum of squared deviations from [a]. *)
Definition sq_dev (a : R) (xs : list R) : R :=
  sum_list ((λ x, (x - a) * (x - a))%R <$> xs).

(** [welford c cnt]: the count, the mean and the sum of squared deviations
    are those of [cnt]. *)
Definition welford c (cnt : list R) : Prop :=
  cur c Pn = XFin (INR (length cnt)) ∧
  (cnt ≠ [] → cur c PM = XFin (mean cnt) ∧ cur c PS = XFin (sum_sq_dev cnt)).

(** [kept c cnt pending]: the retained samples are [cnt] and then
    [pending], [n] is the length of [cnt], and [value] is the last of
    [cnt]. *)
Definition kept c (cnt pending : list xreal) : Prop :=
  data c = cnt ++ pending ∧ cur c Pn = XFin (INR (length cnt)) ∧
  (cnt ≠ [] → last cnt = Some (cur c Pvalue)) ∧
  (∀ wr, window_size c = XFin wr → (0 < wr)%R →
         (INR (length cnt) < wr + 1)%R).

(** A sample that is a number for which [ok] holds. *)
Definition sampled (ok : R → Prop) (x : xreal) : Prop := ∃ r, x = XFin r ∧ ok r.

(** [averaged c cnt]: [M] is the mean of [cnt], and [S] is a number that
    is not below the sum of the squared deviations of [cnt]. *)
Definition averaged c (cnt : list R) : Prop :=
  cnt ≠ [] →
  cur c PM = XFin (mean cnt) ∧
  ∃ s, cur c PS = XFin s ∧ (sum_sq_dev cnt <= s)%R.

(** [inverted c cnt]: [reciprocal_sum] is the sum of the reciprocals of
    [cnt]. *)
Definition inverted c (cnt : list R) : Prop :=
  cnt ≠ [] →
  cur c Preciprocal_sum = XFin (sum_list ((λ r, 1 / r)%R <$> cnt)).

End ExactInvariants.

(** ** Samples in binary64 *)

Module Samples.

(** Samples that are not binary64 numbers stand for the nearest one, as
    Python reads them. *)
Definition f0_1 : float := 0x1.999999999999ap-4%float.

Definition f0_2 : float := 0x1.999999999999ap-3%float.

Definition f0_3 : float := 0x1.3333333333333p-2%float.

Definition f0_4 : float := 0x1.999999999999ap-2%float.

Definition f0_6 : float := 0x1.3333333333333p-1%float.

End Samples.

(** * The theorems *)

(** ** Generalities on [result] and [for_each] *)

Lemma bind_Ok {A B : Type} (m : result A) (f : A → result B) (b : B) :
  m ≫= f = Ok b ↔ ∃ a, m = Ok a ∧ f a = Ok b.
Proof.
  destruct m as [a|e]; simpl; split.
  - intros Hf. by exists a.
  - by intros (a' & [= <-] & Hf).
  - discriminate.
  - by intros (a' & [=] & _).
Qed.

Lemma fmap_Ok {A B : Type} (m : result A) (f : A → B) (b : B) :
  f <$> m = Ok b ↔ ∃ a, m = Ok a ∧ b = f a.
Proof.
  destruct m as [a|e]; simpl; split.
  - intros [= <-]. by exists a.
  - by intros (a' & [= <-] & ->).
  - discriminate.
  - by intros (a' & [=] & _).
Qed.

Lemma for_each_app {A B : Type} (body : A → B → result A) (a : A) (l1 l2 : list B) :
  for_each body a (l1 ++ l2) = for_each body a l1 ≫= λ a', for_each body a' l2.
Proof.
  revert a. induction l1 as [|b l1 IH]; intros a; simpl; [done|].
  destruct (body a b) as [a'|e]; simpl; [apply IH|done].
Qed.

(** A property kept by every round of the loop holds when the loop ends. *)
Lemma for_each_invariant {A B : Type} (P : A → Prop) (body : A → B → result A)
    (l : list B) (a a' : A) :
  (∀ x b y, b ∈ l → P x → body x b = Ok y → P y) →
  P a → for_each body a l = Ok a' → P a'.
Proof.
  revert a. induction l as [|b l IH]; intros a Hstep Ha Hrun; simpl in Hrun.
  - by injection Hrun as <-.
  - apply bind_Ok in Hrun as (x & Hb & Hrun).
    apply (IH x); [|eapply Hstep; [left|..]; done|done].
    intros ? b' ? ?. apply Hstep. by right.
Qed.

(** The loop returns when every round does. *)
Lemma for_each_total {A B : Type} (P : A → Prop) (body : A → B → result A)
    (l : list B) (a : A) :
  (∀ x b, b ∈ l → P x → ∃ y, body x b = Ok y ∧ P y) →
  P a → ∃ a', for_each body a l = Ok a' ∧ P a'.
Proof.
  revert a. induction l as [|b l IH]; intros a Hstep Ha; simpl.
  - by exists a.
  - destruct (Hstep a b) as (y & -> & Hy); [by left|done|]. simpl.
    apply IH; [|done]. intros ????. apply Hstep; [by right|done].
Qed.

(** ** What saving never changes *)

Module Shape.
Import Container Invariants.

Section shape.
Context `{PyNum F}.
Implicit Types (c : t F) (l : link F) (m : MemoryFloat.t F).

Lemma link_shape_refl l : link_shape l l.
Proof. done. Qed.

Lemma link_shape_trans l1 l2 l3 :
  link_shape l1 l2 → link_shape l2 l3 → link_shape l1 l3.
Proof. unfold link_shape. intros (?&?&?&?) (?&?&?&?). repeat split; congruence. Qed.

Lemma links_shape_refl (ls : list (link F)) : Forall2 link_shape ls ls.
Proof. induction ls; constructor; auto using link_shape_refl. Qed.

Lemma shape_refl c : shape c c.
Proof. split; auto using links_shape_refl. Qed.

Lemma shape_trans c1 c2 c3 : shape c1 c2 → shape c2 c3 → shape c1 c3.
Proof.
  intros [] []. split; try congruence.
  eapply Forall2_trans; [|done..]. apply link_shape_trans.
Qed.

Lemma shape_length c c' : shape c c' → length (links c') = length (links c).
Proof. intros [_ _ _ _ _ Hl]. symmetry. by eapply Forall2_length. Qed.

Lemma shape_lookup c c' k l :
  shape c c' → links c !! k = Some l →
  ∃ l', links c' !! k = Some l' ∧ link_shape l l'.
Proof. intros [_ _ _ _ _ Hl]. by apply Forall2_lookup_l. Qed.

Lemma shape_lookup_r c c' k l' :
  shape c c' → links c' !! k = Some l' →
  ∃ l, links c !! k = Some l ∧ link_shape l l'.
Proof. intros [_ _ _ _ _ Hl]. by apply Forall2_lookup_r. Qed.

(** *** The field accessors *)

Lemma prim_set_prim c p q m :
  prim (set_prim c p m) q = if decide (p = q) then m else prim c q.
Proof. by destruct c, p, q. Qed.

Lemma data_set_prim c p m : data (set_prim c p m) = data c.
Proof. by destruct c, p. Qed.
Lemma window_size_set_prim c p m : window_size (set_prim c p m) = window_size c.
Proof. by destruct c, p. Qed.
Lemma links_set_prim c p m : links (set_prim c p m) = links c.
Proof. by destruct c, p. Qed.
Lemma attrs_set_prim c p m : attrs (set_prim c p m) = attrs c.
Proof. by destruct c, p. Qed.

Lemma cur_assign c p q v :
  cur (assign c p v) q = if decide (p = q) then v else cur c q.
Proof.
  unfold cur, assign, update. rewrite prim_set_prim. by destruct (decide _).
Qed.

Lemma history_assign c p q v :
  MemoryFloat.history (prim (assign c p v) q) = MemoryFloat.history (prim c q).
Proof.
  unfold assign, update. rewrite prim_set_prim. by destruct (decide _) as [<-|].
Qed.

Lemma hooks_assign c p q v :
  MemoryFloat.hooks (prim (assign c p v) q) = MemoryFloat.hooks (prim c q).
Proof.
  unfold assign, update. rewrite prim_set_prim. by destruct (decide _) as [<-|].
Qed.

Lemma data_assign c p v : data (assign c p v) = data c.
Proof. apply data_set_prim. Qed.
Lemma window_size_assign c p v : window_size (assign c p v) = window_size c.
Proof. apply window_size_set_prim. Qed.
Lemma links_assign c p v : links (assign c p v) = links c.
Proof. apply links_set_prim. Qed.
Lemma attrs_assign c p v : attrs (assign c p v) = attrs c.
Proof. apply attrs_set_prim. Qed.

(** *** Updates that keep the shape *)

Lemma shape_set_links c ls :
  Forall2 link_shape (links c) ls → shape c (set_links c ls).
Proof. by split. Qed.

Lemma shape_update c r f :
  (∀ m, MemoryFloat.value (f m) = MemoryFloat.value m ∨ ∃ k, r = Derived k) →
  (∀ m, MemoryFloat.hooks (f m) = MemoryFloat.hooks m) →
  shape c (update c r f).
Proof.
  intros Hv Hh. destruct r as [p|k]; simpl.
  - split; rewrite ?data_set_prim, ?window_size_set_prim, ?attrs_set_prim,
      ?links_set_prim; auto using links_shape_refl.
    + intros q. unfold cur. rewrite prim_set_prim.
      destruct (decide _) as [<-|]; [|done].
      by destruct (Hv (prim c p)) as [|[? [=]]].
    + intros q. rewrite prim_set_prim. by destruct (decide _) as [<-|].
  - apply shape_set_links, Forall2_alter_r; [apply links_shape_refl|].
    intros l l' _ _ (?&?&?&?). repeat split; simpl; try done.
    by rewrite Hh.
Qed.

Lemma shape_hook (save_output : ref → t F → result (t F)) k r c c' :
  (∀ r x y, save_output r x = Ok y → shape x y) →
  hook save_output k r c = Ok c' → shape c c'.
Proof.
  intros Hsave. unfold hook. destruct (links c !! k) as [l|] eqn:Hk; [|done].
  set (c1 := set_links c _).
  assert (shape c c1) as H1.
  { apply shape_set_links. rewrite <-(list_insert_id (links c) k l) at 1 by done.
    apply Forall2_insert; [apply links_shape_refl|done]. }
  destruct (decide _); [|by intros [= <-]].
  intros (args & _ & (v & _ & (c2 & Hc2 & [= <-])%bind_Ok)%bind_Ok)%bind_Ok.
  eapply shape_trans; [done|]. eapply shape_trans.
  { apply (shape_update c1 (Derived k) (λ m, MemoryFloat.assign m v)); eauto. }
  eapply shape_trans; [by eapply Hsave|].
  apply shape_set_links, Forall2_alter_r; [apply links_shape_refl|].
  by intros ?? _ _ ?.
Qed.

(** [MemoryFloat.save] changes histories, output values and pools only. *)
Lemma shape_save_float depth r c c' :
  save_float depth r c = Ok c' → shape c c'.
Proof.
  revert r c c'. induction depth as [|depth IH]; intros r c c'; [done|].
  simpl. intros (m & _ & Hloop)%bind_Ok.
  eapply shape_trans; [apply (shape_update c r MemoryFloat.append); eauto|].
  eapply (for_each_invariant (shape _)); [|apply shape_refl|done].
  intros x k y _ Hx Hy. eapply shape_trans; [done|].
  eapply shape_hook; [|exact Hy]. apply IH.
Qed.

Lemma shape_save c c' : save c = Ok c' → shape c c'.
Proof.
  unfold save. intros Hs.
  eapply (for_each_invariant (shape c)); [|apply shape_refl|done].
  intros x p y _ Hx Hy. eapply shape_trans; [done|].
  eapply shape_save_float, Hy.
Qed.
End shape.
End Shape.

(** ** The hooks never write to the six primaries *)

Module Primaries.
Import Container Invariants Shape.

Section primaries.
Context `{PyNum F}.
Implicit Types (c : t F) (l : link F) (m : MemoryFloat.t F).

Lemma prim_set_links c ls p : prim (set_links c ls) p = prim c p.
Proof. by destruct p. Qed.

Lemma prim_update_derived c k f p : prim (update c (Derived k) f) p = prim c p.
Proof. apply prim_set_links. Qed.

Lemma prim_hook (save_output : ref → t F → result (t F)) k r c c' p :
  (∀ j x y, save_output (Derived j) x = Ok y → prim y p = prim x p) →
  hook save_output k r c = Ok c' → prim c' p = prim c p.
Proof.
  intros Hsave. unfold hook. destruct (links c !! k) as [l|]; [|done].
  destruct (decide _); [|by intros [= <-]].
  intros (args & _ & (v & _ & (c2 & Hc2 & [= <-])%bind_Ok)%bind_Ok)%bind_Ok.
  rewrite prim_set_links, (Hsave _ _ _ Hc2), prim_update_derived.
  apply prim_set_links.
Qed.

Lemma prim_save_float depth r c c' p :
  save_float depth r c = Ok c' →
  prim c' p = prim (update c r MemoryFloat.append) p.
Proof.
  revert r c c'. induction depth as [|depth IH]; intros r c c'; [done|].
  simpl. intros (m & _ & Hloop)%bind_Ok.
  eapply (for_each_invariant (λ x, prim x p = _)); [|reflexivity|done].
  intros x k y _ Hx Hy. simpl in Hy. rewrite <-Hx.
  eapply prim_hook; [|done]. intros j x' y' Hs.
  by rewrite (IH _ _ _ Hs), prim_update_derived.
Qed.

(** Saving the primary [p] appends its current value to its history and
    leaves the other five as they are. *)
Lemma history_save_float depth p c c' q :
  save_float depth (Prim p) c = Ok c' →
  MemoryFloat.history (prim c' q) =
    if decide (p = q) then MemoryFloat.history (prim c q) ++ [cur c q]
    else MemoryFloat.history (prim c q).
Proof.
  intros Hs. rewrite (prim_save_float _ _ _ _ _ Hs). simpl.
  rewrite prim_set_prim. by destruct (decide _) as [<-|].
Qed.

(** [Container.save] appends to each of the six histories the current
    value, once. *)
Lemma history_save c c' p :
  save c = Ok c' →
  MemoryFloat.history (prim c' p) = MemoryFloat.history (prim c p) ++ [cur c p].
Proof.
  unfold save, mem_floats. cbn [for_each].
  intros (c1 & H1 & (c2 & H2 & (c3 & H3 & (c4 & H4 & (c5 & H5 &
    (c6 & H6 & [= <-])%bind_Ok)%bind_Ok)%bind_Ok)%bind_Ok)%bind_Ok)%bind_Ok.
  rewrite (history_save_float _ _ _ _ p H6), (history_save_float _ _ _ _ p H5),
    (history_save_float _ _ _ _ p H4), (history_save_float _ _ _ _ p H3),
    (history_save_float _ _ _ _ p H2), (history_save_float _ _ _ _ p H1).
  pose proof (shape_cur _ _ (shape_save_float _ _ _ _ H1) p) as E1.
  pose proof (shape_cur _ _ (shape_save_float _ _ _ _ H2) p) as E2.
  pose proof (shape_cur _ _ (shape_save_float _ _ _ _ H3) p) as E3.
  pose proof (shape_cur _ _ (shape_save_float _ _ _ _ H4) p) as E4.
  pose proof (shape_cur _ _ (shape_save_float _ _ _ _ H5) p) as E5.
  rewrite E5, E4, E3, E2, E1.
  destruct p; by repeat case_decide.
Qed.
End primaries.
End Primaries.

(** ** The join barrier of a link *)

Module Barrier.
Import Container Invariants Shape Primaries.

Section barrier.
Context `{PyNum F}.
Implicit Types (c : t F) (l : link F) (m : MemoryFloat.t F) (k : nat).

Lemma isolated_shape c c' k : shape c c' → isolated c k → isolated c' k.
Proof.
  intros Hs Hi j l' Hj.
  destruct (shape_lookup_r _ _ _ _ Hs Hj) as (l & Hl & (_&_&_&Hh)).
  rewrite Hh. eauto.
Qed.

Lemma links_update_ne c r f k :
  r ≠ Derived k → links (update c r f) !! k = links c !! k.
Proof.
  destruct r as [p|j]; simpl; intros Hne.
  - by rewrite links_set_prim.
  - apply list_lookup_alter_ne. congruence.
Qed.

Lemma get_set_pool c k l s r :
  links c !! k = Some l →
  get (set_links c (<[k := set_pool l s]> (links c))) r = get c r.
Proof.
  intros Hk. destruct r as [p|j]; simpl; [by destruct p|].
  destruct (decide (k = j)) as [<-|Hne].
  - rewrite list_lookup_insert_eq, Hk; [done|]. by eapply lookup_lt_Some.
  - by rewrite list_lookup_insert_ne.
Qed.

Lemma read_set_pool c k l s rs :
  links c !! k = Some l →
  read (set_links c (<[k := set_pool l s]> (links c))) rs = read c rs.
Proof.
  intros Hk. unfold read. f_equal. apply list_fmap_ext.
  intros _ r _. by rewrite get_set_pool.
Qed.

(** The steps of [hook] keep the shape. *)
Lemma shape_set_pool c k l s :
  links c !! k = Some l →
  shape c (set_links c (<[k := set_pool l s]> (links c))).
Proof.
  intros Hk. apply shape_set_links.
  rewrite <-(list_insert_id (links c) k l) at 1 by done.
  apply Forall2_insert; [apply links_shape_refl|done].
Qed.

Lemma shape_assign_output c k v :
  shape c (update c (Derived k) (λ m, MemoryFloat.assign m v)).
Proof. apply shape_update; eauto. Qed.

(** *** The hooks of the other links leave link [k] alone *)

Section frame.
Variable save_output : ref → t F → result (t F).
Variable k : nat.
Hypothesis save_output_shape :
  ∀ r x y, save_output r x = Ok y → shape x y.
Hypothesis save_output_frame :
  ∀ b x y, b ≠ k → isolated x k →
    save_output (Derived b) x = Ok y → links y !! k = links x !! k.

Lemma hook_frame b r c c' :
  b ≠ k → isolated c k →
  hook save_output b r c = Ok c' → links c' !! k = links c !! k.
Proof using save_output_shape save_output_frame.
  intros Hb Hi. unfold hook. destruct (links c !! b) as [l|] eqn:Hl; [|done].
  set (c1 := set_links c _).
  assert (links c1 !! k = links c !! k) as E1
    by (by apply list_lookup_insert_ne).
  destruct (decide _); [|by intros [= <-]].
  intros (args & _ & (v & _ & (c2 & Hc2 & [= <-])%bind_Ok)%bind_Ok)%bind_Ok.
  simpl. rewrite list_lookup_alter_ne by done.
  rewrite (save_output_frame _ _ _ Hb) with (2 := Hc2).
  - by rewrite links_update_ne by congruence.
  - eapply isolated_shape; [|done].
    eapply shape_trans; [by apply shape_set_pool|apply shape_assign_output].
Qed.

Lemma loop_frame_gen r hs c c' :
  isolated c k → k ∉ hs →
  for_each (λ c b, hook save_output b r c) c hs = Ok c' →
  links c' !! k = links c !! k.
Proof using save_output_shape save_output_frame.
  intros Hi Hk Hloop.
  eapply (for_each_invariant (λ x, shape c x ∧ links x !! k = links c !! k));
    [|split; [apply shape_refl|done]|done].
  intros x b y Hb [Hs Hx] Hy. split.
  - eapply shape_trans; [done|]. by eapply shape_hook.
  - rewrite <-Hx. eapply hook_frame; [|by eapply isolated_shape|done].
    intros ->. done.
Qed.
End frame.

Lemma save_float_frame depth r c c' k :
  isolated c k → r ≠ Derived k →
  (∀ p, r = Prim p → k ∉ MemoryFloat.hooks (prim c p)) →
  save_float depth r c = Ok c' → links c' !! k = links c !! k.
Proof.
  revert r c c'. induction depth as [|depth IH]; intros r c c' Hi Hr Hp; [done|].
  simpl. intros (m & Hm & Hloop)%bind_Ok.
  rewrite <-(links_update_ne c r MemoryFloat.append k) by done.
  eapply loop_frame_gen; [apply shape_save_float| |
    eapply isolated_shape; [|done]; apply shape_update; eauto| |done].
  - intros b x y Hb Hx. apply IH; [done|congruence|done].
  - destruct r as [p|j]; simpl in Hm.
    + injection Hm as <-. by apply Hp.
    + destruct (links c !! j) as [l|] eqn:Hl; [|done].
      injection Hm as <-. by eapply Hi.
Qed.

Lemma loop_frame depth r hs c c' k :
  isolated c k → k ∉ hs →
  for_each (λ c b, hook (save_float depth) b r c) c hs = Ok c' →
  links c' !! k = links c !! k.
Proof.
  apply loop_frame_gen; [apply shape_save_float|].
  intros b x y Hb Hx. apply save_float_frame; [done|congruence|done].
Qed.

(** *** What the hook of link [k] does to link [k] *)

Lemma save_float_self depth c c' k l :
  isolated c k → links c !! k = Some l →
  save_float depth (Derived k) c = Ok c' →
  links c' !! k = Some (set_output l (MemoryFloat.append (output l))).
Proof.
  intros Hi Hk. destruct depth as [|depth]; [done|]. simpl. rewrite Hk. simpl.
  intros Hloop. erewrite loop_frame; [| |by eapply Hi|done].
  - simpl. by rewrite list_lookup_alter_eq, Hk.
  - eapply isolated_shape; [|done].
    apply (shape_update c (Derived k) MemoryFloat.append); eauto.
Qed.

Lemma hook_self depth r c c' k l :
  isolated c k → links c !! k = Some l →
  hook (save_float depth) k r c = Ok c' →
  if decide (pool l ∪ {[ r ]} = all_ids l)
  then ∃ args v, read c (inputs l) = Ok args ∧ func l args = Ok v ∧
                 links c' !! k = Some (fire l v)
  else links c' !! k = Some (set_pool l (pool l ∪ {[ r ]})).
Proof.
  intros Hi Hk. unfold hook. rewrite Hk.
  assert (k < length (links c)) as Hlt by by eapply lookup_lt_Some.
  destruct (decide _).
  - rewrite read_set_pool by done.
    intros (args & Hargs & (v & Hv & (c2 & Hc2 & [= <-])%bind_Ok)%bind_Ok)%bind_Ok.
    exists args, v. split_and!; [done..|]. simpl.
    rewrite list_lookup_alter_eq.
    match type of Hc2 with save_float _ _ ?cx = _ =>
      assert (isolated cx k) as Hi';
      [|assert (links cx !! k =
                Some (set_output (set_pool l (pool l ∪ {[ r ]}))
                                 (MemoryFloat.assign (output l) v))) as Hk']
    end.
    { eapply isolated_shape; [|done].
      eapply shape_trans; [by apply shape_set_pool|apply shape_assign_output]. }
    { unfold update. simpl.
      by rewrite list_lookup_alter_eq, list_lookup_insert_eq by done. }
    by rewrite (save_float_self _ _ _ _ _ Hi' Hk' Hc2).
  - intros [= <-]. simpl. by rewrite list_lookup_insert_eq.
Qed.

Lemma read_flat c l : flat l → read c (inputs l) = Ok (prim_values c l).
Proof.
  intros (_ & _ & Hp). unfold read, prim_values.
  induction (inputs l) as [|r rs IH]; [done|].
  destruct (Hp r) as [p ->]; [by left|].
  rewrite !fmap_cons. cbn [sequence]. rewrite IH; [done|].
  intros ??. apply Hp. by right.
Qed.

Lemma prim_values_shape c c' l : shape c c' → prim_values c' l = prim_values c l.
Proof.
  intros Hs. unfold prim_values. apply list_fmap_ext.
  intros _ [p|?] _; [apply Hs|done].
Qed.

(** Saving a primary that link [k] does not listen to, or listens to
    once. *)
Lemma save_prim_other depth p c c' k :
  isolated c k → k ∉ MemoryFloat.hooks (prim c p) →
  save_float depth (Prim p) c = Ok c' → links c' !! k = links c !! k.
Proof.
  intros Hi Hk. apply save_float_frame; [done..|]. by intros ? [= <-].
Qed.

Lemma save_prim_once depth p c c' k l hs1 hs2 :
  isolated c k → links c !! k = Some l → flat l →
  MemoryFloat.hooks (prim c p) = hs1 ++ k :: hs2 → k ∉ hs1 → k ∉ hs2 →
  save_float depth (Prim p) c = Ok c' →
  if decide (pool l ∪ {[ Prim p ]} = all_ids l)
  then ∃ v, func l (prim_values c l) = Ok v ∧ links c' !! k = Some (fire l v)
  else links c' !! k = Some (set_pool l (pool l ∪ {[ Prim p ]})).
Proof.
  intros Hi Hk Hflat Hhs H1 H2. destruct depth as [|depth]; [done|].
  simpl. rewrite Hhs, for_each_app. cbn [for_each].
  set (c0 := set_prim c p _).
  assert (shape c c0) as Hs0
    by (apply (shape_update c (Prim p) MemoryFloat.append); eauto).
  intros (x & Hx & (y & Hy & Hz)%bind_Ok)%bind_Ok.
  assert (shape c0 x) as Hsx.
  { eapply (for_each_invariant (shape c0)); [|apply shape_refl|exact Hx].
    intros ??? _ ? Hh. eapply shape_trans; [done|].
    eapply shape_hook; [apply shape_save_float|exact Hh]. }
  assert (shape x y) as Hsy
    by (eapply shape_hook; [apply shape_save_float|exact Hy]).
  assert (isolated x k) as Hix by eauto using isolated_shape.
  assert (links x !! k = Some l) as Hkx.
  { rewrite (loop_frame _ _ _ c0 x k) with (3 := Hx);
      [|by eapply isolated_shape|done].
    unfold c0. by rewrite links_set_prim. }
  pose proof (hook_self _ _ _ _ _ _ Hix Hkx Hy) as Hself.
  rewrite (loop_frame _ _ _ y c' k) with (3 := Hz);
    [|by eapply isolated_shape|done].
  destruct (decide _); [|done].
  destruct Hself as (args & v & Hargs & Hv & Hl). exists v. split; [|done].
  rewrite read_flat in Hargs by done. injection Hargs as <-.
  by rewrite <-(prim_values_shape c x) by eauto using shape_trans.
Qed.

(** *** One commit cycle *)

Lemma wired_shape c c' k l : shape c c' → wired c k l → wired c' k l.
Proof.
  intros Hs (Hi & Hin & Hout). split; [by eapply isolated_shape|].
  split; intros p Hp; rewrite (shape_hooks _ _ Hs); auto.
Qed.

Lemma save_step c0 c c' k l lk p (seen : gset ref) :
  flat l → all_ids l = list_to_set (inputs l) →
  shape c0 c → wired c k l → Prim p ∉ seen →
  links c !! k = Some lk →
  waiting l seen lk ∨ fired c0 l seen lk →
  save_float (recursion_limit c) (Prim p) c = Ok c' →
  ∃ lk', links c' !! k = Some lk' ∧
    (waiting l (seen ∪ {[ Prim p ]}) lk' ∨ fired c0 l (seen ∪ {[ Prim p ]}) lk').
Proof.
  intros Hflat Hall Hs (Hi & Hin & Hout) Hp Hk Hstate Hsave.
  destruct (decide (Prim p ∈ inputs l)) as [Hmem|Hmem].
  - destruct Hstate as [[-> Hnot]|[Hsub _]]; [|set_solver].
    destruct (Hin p Hmem) as (hs1 & hs2 & Hhs & H1 & H2).
    pose proof (save_prim_once _ _ _ _ _ _ _ _ Hi Hk Hflat Hhs H1 H2 Hsave)
      as Hone.
    simpl in Hone. destruct (decide _) as [Heq|Hne].
    + destruct Hone as (v & Hv & Hl). eexists. split; [done|]. right.
      split; [set_solver|]. exists v. split; [|done].
      by rewrite <-(prim_values_shape c0 c).
    + eexists. split; [done|]. left. split.
      * unfold set_pool. simpl. f_equal. set_solver.
      * intros Hsub. apply Hne. set_solver.
  - rewrite <-(save_prim_other _ _ _ _ _ Hi (Hout p Hmem) Hsave) in Hk.
    eexists. split; [done|].
    destruct Hstate as [[-> Hnot]|[Hsub Hv]]; [left|right].
    + split; [f_equal; set_solver|set_solver].
    + split; [set_solver|done].
Qed.

Lemma save_loop c0 ps : ∀ c c' k l lk (seen : gset ref),
  flat l → all_ids l = list_to_set (inputs l) →
  shape c0 c → wired c k l →
  NoDup ps → (∀ p, p ∈ ps → Prim p ∉ seen) →
  links c !! k = Some lk →
  waiting l seen lk ∨ fired c0 l seen lk →
  for_each (λ c p, save_float (recursion_limit c) (Prim p) c) c ps = Ok c' →
  ∃ lk', links c' !! k = Some lk' ∧
    (waiting l (seen ∪ list_to_set (Prim <$> ps)) lk' ∨
     fired c0 l (seen ∪ list_to_set (Prim <$> ps)) lk').
Proof.
  induction ps as [|p ps IH];
    intros c c' k l lk seen Hflat Hall Hs Hw Hnd Hseen Hk Hstate Hrun.
  - injection Hrun as <-. exists lk. split; [done|].
    by replace (seen ∪ list_to_set (Prim <$> [])) with seen by set_solver.
  - cbn [for_each] in Hrun. apply bind_Ok in Hrun as (c1 & Hc1 & Hrun).
    apply NoDup_cons in Hnd as [Hp Hnd].
    destruct (save_step c0 c c1 k l lk p seen) as (lk1 & Hk1 & Hstate1);
      [done|done|done|done|apply Hseen; by left|done|done|done|].
    assert (shape c c1) as Hs1 by by eapply shape_save_float.
    destruct (IH c1 c' k l lk1 (seen ∪ {[ Prim p ]})) as (lk' & Hk' & Hstate');
      [done|done|by eapply shape_trans|by eapply wired_shape|done| |done..|].
    { intros q Hq. apply not_elem_of_union. split; [apply Hseen; by right|].
      intros ?%elem_of_singleton. simplify_eq. done. }
    exists lk'. split; [done|].
    by replace (seen ∪ list_to_set (Prim <$> p :: ps))
      with (seen ∪ {[ Prim p ]} ∪ list_to_set (Prim <$> ps)) by set_solver.
Qed.

(** In one commit cycle the barrier of a flat link fires exactly once:
    its output is assigned the function of the current values of the
    primaries, and that value is appended to its history. *)
Lemma save_fires c c' k l :
  flat l → all_ids l = list_to_set (inputs l) → pool l = ∅ →
  wired c k l → links c !! k = Some l →
  save c = Ok c' →
  ∃ v, func l (prim_values c l) = Ok v ∧ links c' !! k = Some (fire l v).
Proof.
  intros Hflat Hall Hpool Hw Hk Hsave.
  destruct (save_loop c mem_floats c c' k l l ∅) as (lk & Hlk & Hstate);
    [done|done|apply shape_refl|done| |set_solver|done| |done|].
  { unfold mem_floats. repeat (apply NoDup_cons; split; [set_solver|]).
    apply NoDup_nil_2. }
  { left. split.
    - destruct l. simpl in *. subst. unfold set_pool. simpl. f_equal. set_solver.
    - destruct Hflat as (Hne & _). destruct (inputs l) as [|r rs] eqn:E; [done|].
      rewrite Hall. set_solver. }
  destruct Hstate as [[_ Hnot]|[_ (v & Hv & ->)]]; [|by exists v].
  exfalso. apply Hnot. rewrite Hall. destruct Hflat as (_ & _ & Hprim).
  intros r Hr%elem_of_list_to_set. destruct (Hprim r Hr) as [p ->].
  unfold mem_floats. destruct p; set_solver.
Qed.
End barrier.
End Barrier.

(** ** Containers as the constructor, [subscribe] and [push] leave them *)

Module Wf.
Import Container Invariants Shape Primaries Barrier.

Section wf.
Context `{PyNum F}.
Implicit Types (c : t F) (l : link F) (m : MemoryFloat.t F) (k : nat) (r : ref).

Lemma occurrences_app {A : Type} `{EqDecision A} (x : A) (xs ys : list A) :
  occurrences x (xs ++ ys) = occurrences x xs + occurrences x ys.
Proof. unfold occurrences. by rewrite filter_app, length_app. Qed.

Lemma occurrences_cons {A : Type} `{EqDecision A} (x y : A) (xs : list A) :
  occurrences x (y :: xs) = (if decide (y = x) then 1 else 0) + occurrences x xs.
Proof.
  unfold occurrences. rewrite filter_cons. by destruct (decide _).
Qed.

Lemma occurrences_zero {A : Type} `{EqDecision A} (x : A) (xs : list A) :
  occurrences x xs = 0 ↔ x ∉ xs.
Proof.
  induction xs as [|y xs IH]; [by split; [intros _ ?%elem_of_nil|]|].
  rewrite occurrences_cons, not_elem_of_cons.
  destruct (decide _); [|rewrite <-IH]; split; try lia; naive_solver.
Qed.

Lemma occurrences_one {A : Type} `{EqDecision A} (x : A) (xs : list A) :
  occurrences x xs = 1 →
  ∃ xs1 xs2, xs = xs1 ++ x :: xs2 ∧ (x ∉ xs1) ∧ (x ∉ xs2).
Proof.
  induction xs as [|y xs IH]; [done|]. rewrite occurrences_cons.
  destruct (decide (y = x)) as [->|Hne]; simpl; intros Hn.
  - exists [], xs. split_and!; [done|apply not_elem_of_nil|].
    apply occurrences_zero. lia.
  - destruct (IH Hn) as (xs1 & xs2 & -> & H1 & H2).
    exists (y :: xs1), xs2. split_and!; [done| |done].
    apply not_elem_of_cons. by split.
Qed.

Lemma occurrences_NoDup {A : Type} `{EqDecision A} (x : A) (xs : list A) :
  NoDup xs → occurrences x xs = if decide (x ∈ xs) then 1 else 0.
Proof.
  induction 1 as [|y xs Hy Hnd IH]; [done|]. rewrite occurrences_cons, IH.
  destruct (decide (y = x)) as [->|Hne].
  - rewrite decide_False by done. rewrite decide_True by by left. done.
  - destruct (decide (x ∈ xs)).
    + rewrite decide_True by by right. done.
    + rewrite decide_False; [done|]. apply not_elem_of_cons. by split.
Qed.

Lemma wf_empty (w : F) : wf (empty w).
Proof.
  split; try done. intros [p|j] m k; simpl; [|done].
  intros [= <-]. by destruct p.
Qed.

(** The hook of a flat link stands once in each of its inputs. *)
Lemma wf_wired c k l : wf c → links c !! k = Some l → flat l → wired c k l.
Proof.
  intros Hwf Hk (Hne & Hnd & Hprim). split_and!.
  - intros j lj Hj. apply occurrences_zero.
    rewrite (wf_hooks c Hwf (Derived j) (output lj) k) by (simpl; by rewrite Hj).
    rewrite Hk. simpl. apply occurrences_zero.
    intros [p [=]]%Hprim.
  - intros p Hp. apply occurrences_one.
    rewrite (wf_hooks c Hwf (Prim p) (prim c p) k), Hk by done. simpl.
    rewrite occurrences_NoDup by done. by rewrite decide_True.
  - intros p Hp. apply occurrences_zero.
    rewrite (wf_hooks c Hwf (Prim p) (prim c p) k), Hk by done. simpl.
    by apply occurrences_zero.
Qed.

(** *** subscribe *)

Lemma occurrences_replicate (k k0 cnt : nat) :
  occurrences k (replicate cnt k0) = if decide (k0 = k) then cnt else 0.
Proof.
  induction cnt as [|cnt IH]; simpl; [by destruct (decide _)|].
  rewrite occurrences_cons, IH. by destruct (decide _).
Qed.

Lemma get_update c r0 r f :
  get (update c r0 f) r = if decide (r = r0) then f <$> get c r else get c r.
Proof.
  destruct r0 as [p0|j0], r as [p|j]; simpl.
  - rewrite prim_set_prim.
    destruct (decide (p0 = p)) as [->|]; [by rewrite decide_True|].
    rewrite decide_False; [done|congruence].
  - by rewrite links_set_prim.
  - by destruct p.
  - destruct (decide (j0 = j)) as [->|Hne].
    + rewrite decide_True, list_lookup_alter_eq by done.
      by destruct (links c !! j).
    + rewrite decide_False, list_lookup_alter_ne by congruence. done.
Qed.

Lemma same_wiring_update c r f :
  Forall2 same_wiring (links c) (links (update c r f)).
Proof.
  assert (∀ ls : list (link F), Forall2 same_wiring ls ls) as Hrefl
    by (induction ls; by constructor).
  destruct r as [p|j]; simpl; [by rewrite links_set_prim|].
  apply Forall2_alter_r; [done|]. by intros ?? _ _ ?.
Qed.

Section add_hooks.
Variable k0 : nat.

Lemma add_hooks_links rs : ∀ c, Forall2 same_wiring (links c) (links (add_hooks k0 c rs)).
Proof.
  induction rs as [|r rs IH]; intros c; simpl.
  - induction (links c); by constructor.
  - eapply Forall2_trans; [|apply same_wiring_update|apply IH].
    unfold same_wiring. intros ??? (?&?&?&?) (?&?&?&?). split_and!; congruence.
Qed.

Lemma add_hooks_get rs : ∀ c r,
  get (add_hooks k0 c rs) r =
    (λ m, MemoryFloat.mk (MemoryFloat.value m) (MemoryFloat.history m)
            (MemoryFloat.hooks m ++ replicate (occurrences r rs) k0))
    <$> get c r.
Proof.
  induction rs as [|r0 rs IH]; intros c r; simpl.
  - destruct (get c r) as [[]|]; simpl; [|done]. by rewrite app_nil_r.
  - rewrite IH, get_update, occurrences_cons.
    destruct (decide (r = r0)) as [->|Hne].
    + rewrite decide_True by done.
      destruct (get c r0) as [[]|]; simpl; [|done].
      by rewrite <-app_assoc.
    + rewrite decide_False by congruence. done.
Qed.
End add_hooks.

Lemma wf_connect c rs output func :
  wf c → forallb (valid c) rs = true → MemoryFloat.hooks output = [] →
  wf (connect c rs output func).
Proof.
  intros Hwf Hvalid Hout. unfold connect.
  set (k0 := length (links c)).
  set (l0 := mk_link rs func (list_to_set rs) ∅ output).
  set (c1 := set_links c (links c ++ [l0])).
  change (wf (add_hooks k0 c1 rs)).
  pose proof (add_hooks_links k0 rs c1) as Hlinks.
  assert (∀ j, Derived j ∈ rs → j < k0) as Hrs.
  { intros j Hj. rewrite forallb_forall in Hvalid.
    apply list_elem_of_In, Hvalid in Hj. simpl in Hj. by apply bool_decide_eq_true in Hj. }
  assert (∀ k l', links (add_hooks k0 c1 rs) !! k = Some l' →
            ∃ l, (links c ++ [l0]) !! k = Some l ∧ same_wiring l l') as Hl'
    by (intros k l' Hk'; by eapply Forall2_lookup_r in Hlinks).
  assert (∀ k l, (links c ++ [l0]) !! k = Some l →
            (k < k0 ∧ links c !! k = Some l) ∨ (k = k0 ∧ l = l0)) as Hsplit.
  { intros k l Hk. apply lookup_app_Some in Hk as [Hk|[Hge Hk]].
    - left. split; [by eapply lookup_lt_Some|done].
    - right. fold k0 in Hge, Hk. destruct (k - k0) as [|?] eqn:E; [|done].
      injection Hk as <-. split; [lia|done]. }
  split.
  - intros r m' k. rewrite add_hooks_get. intros (m & Hm & ->)%fmap_Ok. simpl.
    rewrite occurrences_app, occurrences_replicate.
    assert (occurrences k (MemoryFloat.hooks m) =
            from_option (λ l, occurrences r (inputs l)) 0 (links c !! k)) as ->.
    { destruct r as [p|j]; simpl in Hm.
      - apply (wf_hooks c Hwf (Prim p)). rewrite <-Hm. by destruct p.
      - destruct (decide (j < k0)) as [Hlt|Hge].
        + rewrite lookup_app_l in Hm by done.
          by apply (wf_hooks c Hwf (Derived j)).
        + destruct (links c !! k) as [l|] eqn:Hk.
          * simpl. destruct ((links c ++ [l0]) !! j) as [lj|] eqn:Hj; [|done].
            destruct (Hsplit _ _ Hj) as [[? _]|[-> ->]]; [lia|].
            injection Hm as <-. simpl. rewrite Hout.
            symmetry. apply occurrences_zero. intros Hin.
            pose proof (wf_inputs c Hwf _ _ _ Hk Hin).
            apply lookup_lt_Some in Hk. lia.
          * simpl. destruct ((links c ++ [l0]) !! j) as [lj|] eqn:Hj; [|done].
            destruct (Hsplit _ _ Hj) as [[? _]|[-> ->]]; [lia|].
            injection Hm as <-. simpl. by rewrite Hout. }
    destruct (links (add_hooks k0 c1 rs) !! k) as [l'|] eqn:Hk'.
    + destruct (Hl' _ _ Hk') as (l & Hl & (Hin & _)). simpl. rewrite Hin.
      destruct (Hsplit _ _ Hl) as [[Hlt ->]|[-> ->]]; simpl.
      * rewrite decide_False by lia. lia.
      * rewrite decide_True by done.
        rewrite (lookup_ge_None_2 (links c) k0) by (unfold k0; lia). done.
    + simpl. apply lookup_ge_None_1 in Hk'.
      rewrite <-(Forall2_length _ _ _ Hlinks) in Hk'. simpl in Hk'.
      rewrite length_app in Hk'. simpl in Hk'. fold k0 in Hk'.
      rewrite decide_False by lia.
      rewrite (lookup_ge_None_2 (links c) k) by (fold k0; lia). done.
  - intros k l' Hk'. destruct (Hl' _ _ Hk') as (l & Hl & (-> & -> & _)).
    destruct (Hsplit _ _ Hl) as [[_ Hk]|[_ ->]]; [|done].
    by eapply wf_all_ids.
  - intros k l' Hk' Hflat. destruct (Hl' _ _ Hk') as (l & Hl & (Hi & _ & -> & _)).
    destruct (Hsplit _ _ Hl) as [[_ Hk]|[_ ->]]; [|done].
    eapply wf_pool; [done..|]. unfold flat in *. by rewrite <-Hi.
  - intros k l' j Hk'. destruct (Hl' _ _ Hk') as (l & Hl & (-> & _)).
    destruct (Hsplit _ _ Hl) as [[_ Hk]|[-> ->]]; [by eapply wf_inputs|].
    apply Hrs.
Qed.

Lemma wf_set_attrs c a : wf c → wf (set_attrs c a).
Proof.
  intros [Hh ? ? ?]. by split.
Qed.

Lemma wf_subscribe c varname rs func c' :
  wf c → subscribe c varname rs func = Ok c' → wf c'.
Proof.
  intros Hwf. unfold subscribe. destruct (forallb _ _) eqn:Hvalid; [|done].
  intros [= <-]. apply wf_connect; [by apply wf_set_attrs|done..].
Qed.

(** *** push *)

Lemma stats_only_refl c : stats_only c c.
Proof. by repeat split. Qed.

Lemma stats_only_trans c1 c2 c3 :
  stats_only c1 c2 → stats_only c2 c3 → stats_only c1 c3.
Proof.
  intros (?&?&?&H12) (?&?&?&H23). split_and!; try congruence.
  intros p. destruct (H12 p), (H23 p). split; congruence.
Qed.

Lemma stats_only_assign c p v : stats_only c (assign c p v).
Proof.
  split_and!; [apply links_assign|apply attrs_assign|apply window_size_assign|].
  intros q. by rewrite hooks_assign, history_assign.
Qed.

Lemma stats_only_set_data c d : stats_only c (set_data c d).
Proof. by split_and!. Qed.

Ltac stats_only_steps :=
  repeat first
    [ apply stats_only_refl
    | eapply stats_only_trans; [|apply stats_only_assign]
    | eapply stats_only_trans; [|apply stats_only_set_data] ].

Lemma stats_only_pop c c' : _pop c = Ok c' → stats_only c c'.
Proof.
  unfold _pop. destruct (data c) as [|out rest]; [done|].
  destruct (feqb _ _).
  - intros [= <-]. stats_only_steps.
  - intros (q & _ & Hc)%bind_Ok. destruct (feqb _ _).
    + injection Hc as <-. stats_only_steps.
    + apply bind_Ok in Hc as (r & _ & [= <-]). stats_only_steps.
Qed.

Lemma stats_only_absorb c x c' : absorb c x = Ok c' → stats_only c c'.
Proof.
  unfold absorb. intros (c1 & Hc1 & (rcp & _ & Hc)%bind_Ok)%bind_Ok.
  assert (stats_only c c1) as Hs1.
  { destruct (fgeb _ _).
    - eapply stats_only_trans; [apply stats_only_assign|by apply stats_only_pop].
    - injection Hc1 as <-. apply stats_only_assign. }
  eapply stats_only_trans; [done|]. destruct (feqb _ _).
  - injection Hc as <-. stats_only_steps.
  - apply bind_Ok in Hc as (q & _ & [= <-]). stats_only_steps.
Qed.

Lemma wf_stats_only c c' : wf c → stats_only c c' → wf c'.
Proof.
  intros [Hh Ha Hp Hi] (Hl & _ & _ & Hprim). split; rewrite Hl; try done.
  intros [p|j] m k; simpl; [|rewrite Hl; apply (Hh (Derived j))].
  intros [= <-]. destruct (Hprim p) as [-> _]. by apply (Hh (Prim p)).
Qed.

(** A commit cycle keeps a container well formed. *)
Lemma wf_save c c' : wf c → save c = Ok c' → wf c'.
Proof.
  intros Hwf Hsave. pose proof (shape_save _ _ Hsave) as Hs.
  destruct Hwf as [Hh Ha Hp Hi]. split.
  - intros r m' k Hm'.
    assert (∃ m, get c r = Ok m ∧ MemoryFloat.hooks m' = MemoryFloat.hooks m)
      as (m & Hm & ->).
    { destruct r as [p|j]; simpl in *.
      - injection Hm' as <-. eexists. split; [done|]. apply Hs.
      - destruct (links c' !! j) as [l'|] eqn:Hj; [|done]. injection Hm' as <-.
        destruct (shape_lookup_r _ _ _ _ Hs Hj) as (l & -> & (_&_&_&?)). eauto. }
    rewrite (Hh _ _ k Hm).
    destruct (links c' !! k) as [l'|] eqn:Hk.
    + destruct (shape_lookup_r _ _ _ _ Hs Hk) as (l & -> & (Hin&_)).
      simpl. by rewrite Hin.
    + apply lookup_ge_None_1 in Hk. rewrite (shape_length _ _ Hs) in Hk.
      by rewrite lookup_ge_None_2.
  - intros k l' Hk.
    destruct (shape_lookup_r _ _ _ _ Hs Hk) as (l & Hl & (Hin&_&Hal&_)).
    rewrite Hin, Hal. eauto.
  - intros k l' Hk Hflat.
    destruct (shape_lookup_r _ _ _ _ Hs Hk) as (l & Hl & (Hin&_)).
    assert (flat l) as Hfl by (unfold flat in *; by rewrite <-Hin).
    destruct (save_fires c c' k l) as (v & _ & Hk'); eauto.
    { by apply wf_wired. }
    rewrite Hk in Hk'. by injection Hk' as ->.
  - intros k l' j Hk.
    destruct (shape_lookup_r _ _ _ _ Hs Hk) as (l & Hl & (Hin&_)).
    rewrite Hin. eauto.
Qed.

Lemma wf_push_one c x c' : wf c → push_one c x = Ok c' → wf c'.
Proof.
  intros Hwf (c1 & Hc1 & Hsave)%bind_Ok.
  eapply wf_save; [|done]. eapply wf_stats_only; [done|].
  by eapply stats_only_absorb.
Qed.

Lemma wf_push c xs c' : wf c → push c xs = Ok c' → wf c'.
Proof.
  intros Hwf. unfold push. destruct (fleb _ _).
  - destruct xs as [|? [|??]]; try done. by intros [= <-].
  - intros Hrun. eapply (for_each_invariant wf); [|
      eapply wf_stats_only; [done|apply stats_only_set_data]|done].
    intros ??? _. apply wf_push_one.
Qed.

Lemma wf_init data w c : init data w = Ok c → wf c.
Proof.
  unfold init. destruct data as [|x xs]; [intros [= <-]; apply wf_empty|].
  apply wf_push, wf_empty.
Qed.

(** What one sample does to the histories: each primary gets its
    current value appended, and so does the output of every flat link,
    after it has been assigned the function of the current values of
    the primaries. *)
Lemma push_one_primary c x c' p :
  push_one c x = Ok c' →
  MemoryFloat.history (prim c' p) = MemoryFloat.history (prim c p) ++ [cur c' p].
Proof.
  intros (c1 & Hc1 & Hsave)%bind_Ok.
  rewrite (history_save _ _ p Hsave), (shape_cur _ _ (shape_save _ _ Hsave)).
  by destruct (stats_only_absorb _ _ _ Hc1) as (_&_&_&Hp), (Hp p) as [_ ->].
Qed.

Lemma push_one_flat c x c' k l :
  wf c → links c !! k = Some l → flat l → push_one c x = Ok c' →
  ∃ v, func l (prim_values c' l) = Ok v ∧ links c' !! k = Some (fire l v).
Proof.
  intros Hwf Hk Hflat (c1 & Hc1 & Hsave)%bind_Ok.
  pose proof (stats_only_absorb _ _ _ Hc1) as Hs1.
  assert (wf c1) as Hwf1 by by eapply wf_stats_only.
  destruct Hs1 as (Hl & _). rewrite <-Hl in Hk.
  rewrite (prim_values_shape c1 c') by by apply shape_save.
  eapply save_fires; eauto using wf_all_ids, wf_pool, wf_wired.
Qed.

(** *** A commit cycle returns *)

Lemma wf_structured c : wf c → structured c.
Proof. by intros []. Qed.

Lemma structured_shape c c' : shape c c' → structured c → structured c'.
Proof.
  intros Hs [Hh Hi]. split.
  - intros r m' k Hm'.
    assert (∃ m, get c r = Ok m ∧ MemoryFloat.hooks m' = MemoryFloat.hooks m)
      as (m & Hm & ->).
    { destruct r as [p|j]; simpl in *.
      - injection Hm' as <-. eexists. split; [done|]. apply Hs.
      - destruct (links c' !! j) as [l'|] eqn:Hj; [|done]. injection Hm' as <-.
        destruct (shape_lookup_r _ _ _ _ Hs Hj) as (l & -> & (_&_&_&?)). eauto. }
    rewrite (Hh _ _ k Hm).
    destruct (links c' !! k) as [l'|] eqn:Hk.
    + destruct (shape_lookup_r _ _ _ _ Hs Hk) as (l & -> & (Hin&_)).
      simpl. by rewrite Hin.
    + apply lookup_ge_None_1 in Hk. rewrite (shape_length _ _ Hs) in Hk.
      by rewrite lookup_ge_None_2.
  - intros k l' j Hk.
    destruct (shape_lookup_r _ _ _ _ Hs Hk) as (l & Hl & (Hin&_)).
    rewrite Hin. eauto.
Qed.

(** A hook in the hooks of [r] is the hook of a link with input [r]. *)
Lemma hook_index c r m k :
  structured c → get c r = Ok m → k ∈ MemoryFloat.hooks m →
  ∃ l, links c !! k = Some l ∧ r ∈ inputs l.
Proof.
  intros [Hh _] Hm Hk. pose proof (Hh r m k Hm) as Ho.
  destruct (links c !! k) as [l|]; simpl in Ho.
  - exists l. split; [done|]. destruct (decide (r ∈ inputs l)) as [|Hn]; [done|].
    apply occurrences_zero in Hn. rewrite Hn in Ho.
    by apply occurrences_zero in Ho.
  - by apply occurrences_zero in Ho.
Qed.

Lemma total_funcs_defined c : total_funcs c → defined c.
Proof. intros Ht k l args Hk Hlen _. eauto. Qed.

Lemma defined_shape c c' : shape c c' → defined c → defined c'.
Proof.
  intros Hs Ht k l' args Hk Hlen Hargs.
  destruct (shape_lookup_r _ _ _ _ Hs Hk) as (l & Hl & (Hin&Hf&_)).
  rewrite Hf. eapply Ht; [done|by rewrite <-Hin|].
  intros Hflat. rewrite Hargs by (unfold flat in *; by rewrite Hin).
  rewrite (prim_values_shape c c') by done.
  unfold prim_values. by rewrite Hin.
Qed.

Lemma read_total c rs :
  (∀ r, r ∈ rs → valid c r = true) →
  ∃ args, read c rs = Ok args ∧ length args = length rs.
Proof.
  unfold read. induction rs as [|r rs IH]; intros Hv; [by exists []|].
  destruct IH as (args & Hargs & Hlen); [intros ??; apply Hv; by right|].
  assert (∃ m, get c r = Ok m) as [m Hm].
  { specialize (Hv r (list_elem_of_here _ _)). destruct r as [p|j]; simpl in *; [eauto|].
    apply bool_decide_eq_true, lookup_lt_is_Some in Hv as [l ->]. eauto. }
  exists (MemoryFloat.value m :: args). rewrite fmap_cons. cbn [sequence].
  rewrite Hm, Hargs. simpl. by rewrite Hlen.
Qed.

Lemma save_float_total depth : ∀ r c,
  structured c → defined c → enough c r depth →
  ∃ c', save_float depth r c = Ok c'.
Proof.
  induction depth as [|depth IH]; intros r c Hst Ht Hen.
  { destruct r; simpl in Hen; lia. }
  assert (∃ m, get c r = Ok m) as [m Hm].
  { destruct r as [p|j]; simpl in *; [eauto|].
    destruct Hen as [[l ->]%lookup_lt_is_Some _]. eauto. }
  simpl. rewrite Hm. simpl.
  set (c0 := update c r MemoryFloat.append).
  assert (shape c c0) as Hs0 by (apply shape_update; eauto).
  destruct (for_each_total (shape c)
              (λ c k, hook (save_float depth) k r c) (MemoryFloat.hooks m) c0)
    as (c' & Hc' & _); [|done|by exists c'].
  intros x k Hk Hsx.
  assert (∃ y, hook (save_float depth) k r x = Ok y) as [y Hy];
    [|exists y; split; [done|];
      eapply shape_trans; [done|];
      eapply shape_hook; [apply shape_save_float|done]].
  destruct (hook_index c r m k Hst Hm Hk) as (l & Hl & Hr).
  destruct (shape_lookup _ _ _ _ Hsx Hl) as (lx & Hlx & (Hin&Hf&_)).
  unfold hook. rewrite Hlx. destruct (decide _); [|eauto].
  set (x1 := set_links x _).
  assert (shape x x1) as Hs1 by by apply shape_set_pool.
  assert (k < length (links c)) as Hlt by by eapply lookup_lt_Some.
  destruct (read_total x1 (inputs lx)) as (args & Hargs & Hlen).
  { intros r' Hr'. destruct r' as [p|j]; [done|]. simpl.
    apply bool_decide_eq_true.
    rewrite length_insert, (shape_length _ _ Hsx).
    rewrite Hin in Hr'. destruct Hst as [_ Hi]. pose proof (Hi _ _ _ Hl Hr'). lia. }
  rewrite Hargs. simpl.
  destruct (Ht k l args) as [v Hv]; [done|by rewrite <-Hin|..].
  { intros Hflat. rewrite read_flat in Hargs
      by (unfold flat in *; by rewrite Hin).
    injection Hargs as <-.
    rewrite (prim_values_shape c x1) by by eapply shape_trans.
    unfold prim_values. by rewrite Hin. }
  rewrite Hf, Hv. simpl.
  change (set_links x1 _)
    with (update x1 (Derived k) (λ m, MemoryFloat.assign m v)).
  set (x2 := update x1 _ _).
  assert (shape c x2) as Hs2.
  { eapply shape_trans; [done|]. eapply shape_trans; [done|].
    apply shape_assign_output. }
  destruct (IH (Derived k) x2) as [y ->];
    [by eapply structured_shape|by eapply defined_shape| |by eexists].
  unfold enough. rewrite (shape_length _ _ Hs2). split; [done|].
  destruct r as [p|j]; simpl in Hen; [lia|].
  destruct Hst as [_ Hi]. pose proof (Hi _ _ _ Hl Hr). lia.
Qed.

Lemma save_total c :
  structured c → defined c → ∃ c', save c = Ok c'.
Proof.
  intros Hst Ht. unfold save.
  destruct (for_each_total (shape c)
              (λ c p, save_float (recursion_limit c) (Prim p) c) mem_floats c)
    as (c' & Hc' & _); [|apply shape_refl|by exists c'].
  intros x p _ Hsx.
  destruct (save_float_total (recursion_limit x) (Prim p) x) as [y Hy];
    [by eapply structured_shape|by eapply defined_shape|
     unfold recursion_limit; simpl; lia|].
  exists y. split; [done|]. eapply shape_trans; [done|].
  by eapply shape_save_float.
Qed.

(** *** The commit cycle of a container with flat links only *)

Lemma container_eq c c' :
  data c = data c' → window_size c = window_size c' →
  (∀ p, prim c p = prim c' p) → links c = links c' → attrs c = attrs c' →
  c = c'.
Proof.
  destruct c, c'. simpl. intros -> -> Hp -> ->.
  pose proof (Hp Pvalue). pose proof (Hp Pn). pose proof (Hp PS).
  pose proof (Hp PM). pose proof (Hp Psum). pose proof (Hp Preciprocal_sum).
  simpl in *. by subst.
Qed.

(** With flat links only, the hooks compute what a direct recomputation
    of every output from the primaries computes. *)
Lemma save_flat c vs :
  wf c → Forall flat (links c) →
  Forall2 (λ l v, func l (prim_values c l) = Ok v) (links c) vs →
  save c = Ok (commit c vs).
Proof.
  intros Hwf Hflat Hvs.
  destruct (save_total c) as [c' Hsave]; [by apply wf_structured| |].
  { intros k l args Hk _ Hargs.
    destruct (Forall2_lookup_l _ _ _ _ _ Hvs Hk) as (v & _ & Hv).
    exists v. rewrite Hargs; [done|]. by eapply Forall_lookup_1. }
  rewrite Hsave. f_equal. pose proof (shape_save _ _ Hsave) as Hs.
  apply container_eq; simpl; try apply Hs.
  - intros p. transitivity (MemoryFloat.append (prim c p)); [|by destruct p].
    pose proof (shape_cur _ _ Hs p) as Hv. pose proof (shape_hooks _ _ Hs p) as Hh.
    pose proof (history_save _ _ p Hsave) as Hhist.
    unfold cur in *. destruct (prim c' p), (prim c p).
    unfold MemoryFloat.append. simpl in *. by subst.
  - apply list_eq. intros k. rewrite lookup_zip_with.
    destruct (links c !! k) as [l|] eqn:Hk; simpl.
    + destruct (Forall2_lookup_l _ _ _ _ _ Hvs Hk) as (v & -> & Hv). simpl.
      assert (flat l) as Hfl by by eapply Forall_lookup_1.
      destruct (save_fires c c' k l) as (v' & Hv' & ->);
        eauto using wf_all_ids, wf_pool, wf_wired.
      rewrite Hv in Hv'. by injection Hv' as <-.
    + apply lookup_ge_None_2. rewrite (shape_length _ _ Hs).
      by apply lookup_ge_None_1.
Qed.

Lemma push_one_commit c x c1 vs :
  wf c → Forall flat (links c) → absorb c x = Ok c1 →
  Forall2 (λ l v, func l (prim_values c1 l) = Ok v) (links c1) vs →
  push_one c x = Ok (commit c1 vs).
Proof.
  intros Hwf Hflat Hc1 Hvs. unfold push_one. rewrite Hc1. simpl.
  pose proof (stats_only_absorb _ _ _ Hc1) as Hs.
  apply save_flat; [by eapply wf_stats_only| |done].
  destruct Hs as (-> & _). done.
Qed.

Lemma flat_test_correct l : flat_test l = true → flat l.
Proof.
  unfold flat_test. intros [[H1 H2]%andb_prop H3]%andb_prop.
  apply bool_decide_eq_true in H1, H2. split_and!; [done..|].
  intros r Hr. rewrite forallb_forall in H3.
  apply list_elem_of_In, H3 in Hr. destruct r; [eauto|done].
Qed.
End wf.
End Wf.

(** ** Sessions: a container, then calls of [subscribe] and [push] *)

Module Session.
Import Container Invariants Calls Shape Primaries Barrier Wf.

Section session.
Context `{PyNum F}.
Implicit Types (c : t F) (l : link F) (m : MemoryFloat.t F) (k : nat) (r : ref).

(** *** What [subscribe] changes *)

Lemma data_update c r f : data (update c r f) = data c.
Proof. destruct r; simpl; [apply data_set_prim|done]. Qed.

Lemma window_size_update c r f : window_size (update c r f) = window_size c.
Proof. destruct r; simpl; [apply window_size_set_prim|done]. Qed.

Lemma data_add_hooks k0 rs : ∀ c, data (add_hooks k0 c rs) = data c.
Proof.
  induction rs as [|r rs IH]; intros c; simpl; [done|].
  by rewrite IH, data_update.
Qed.

Lemma window_size_add_hooks k0 rs : ∀ c,
  window_size (add_hooks k0 c rs) = window_size c.
Proof.
  induction rs as [|r rs IH]; intros c; simpl; [done|].
  by rewrite IH, window_size_update.
Qed.

Lemma subscribe_spec c varname rs f c' :
  subscribe c varname rs f = Ok c' →
  data c' = data c ∧ window_size c' = window_size c ∧
  (∀ p, cur c' p = cur c p ∧
        MemoryFloat.history (prim c' p) = MemoryFloat.history (prim c p)) ∧
  length (links c') = Datatypes.S (length (links c)) ∧
  (∀ k l, links c !! k = Some l →
     ∃ l', links c' !! k = Some l' ∧ inputs l' = inputs l ∧ func l' = func l ∧
           MemoryFloat.value (output l') = MemoryFloat.value (output l) ∧
           MemoryFloat.history (output l') = MemoryFloat.history (output l)) ∧
  (∃ l0, links c' !! length (links c) = Some l0 ∧ inputs l0 = rs ∧
         func l0 = f ∧ MemoryFloat.history (output l0) = []).
Proof.
  unfold subscribe. destruct (forallb _ _); [|done]. intros [= <-].
  unfold connect. simpl. set (k0 := length (links c)).
  set (l0 := mk_link rs f (list_to_set rs) ∅ (MemoryFloat.new nan)).
  set (c1 := set_links _ _).
  change (foldl _ c1 rs) with (add_hooks k0 c1 rs).
  pose proof (add_hooks_links k0 rs c1) as Hlinks.
  pose proof (add_hooks_get k0 rs c1) as Hget.
  assert (∀ k l, links c1 !! k = Some l →
            ∃ l', links (add_hooks k0 c1 rs) !! k = Some l' ∧
                  inputs l' = inputs l ∧ func l' = func l ∧
                  MemoryFloat.value (output l') = MemoryFloat.value (output l) ∧
                  MemoryFloat.history (output l') = MemoryFloat.history (output l))
    as Hold.
  { intros k l Hk.
    destruct (Forall2_lookup_l _ _ _ _ _ Hlinks Hk) as (l' & Hk' & (?&_&_&?)).
    exists l'. pose proof (Hget (Derived k)) as Hg.
    unfold get in Hg. rewrite Hk', Hk in Hg. simpl in Hg. injection Hg as ->.
    by split_and!. }
  split_and!.
  - by rewrite data_add_hooks.
  - by rewrite window_size_add_hooks.
  - intros p. pose proof (Hget (Prim p)) as Hg. unfold get in Hg.
    simpl in Hg. injection Hg as Hp.
    unfold cur. rewrite Hp. simpl. by destruct p.
  - rewrite <-(Forall2_length _ _ _ Hlinks). simpl. rewrite length_app. simpl. lia.
  - intros k l Hk. apply Hold. simpl. by apply lookup_app_l_Some.
  - destruct (Hold k0 l0) as (l' & ? & ? & ? & _ & ?).
    { simpl. unfold k0. by rewrite list_lookup_middle. }
    by exists l'.
Qed.

(** *** What [push] changes *)

Lemma window_size_push_one c x c' :
  push_one c x = Ok c' → window_size c' = window_size c.
Proof.
  intros (c1 & Hc1 & Hsave)%bind_Ok.
  rewrite (shape_window_size _ _ (shape_save _ _ Hsave)).
  by destruct (stats_only_absorb _ _ _ Hc1) as (_&_&?&_).
Qed.

Lemma window_size_push c xs c' : push c xs = Ok c' → window_size c' = window_size c.
Proof.
  unfold push. destruct (fleb _ _).
  - destruct xs as [|? [|??]]; try done. by intros [= <-].
  - intros Hrun.
    eapply (for_each_invariant (λ x, window_size x = window_size c)
              _ _ (set_data c (data c ++ xs))); [|reflexivity|exact Hrun].
    intros ??? _ <-. apply window_size_push_one.
Qed.

(** The loop of [push]: every sample appends one entry to the history
    of each primary and one to the output of each flat link, which is
    the function of the link on the entries that the same sample
    appended to its inputs. *)
Lemma push_loop xs : ∀ c c' k l,
  wf c → links c !! k = Some l → flat l →
  for_each push_one c xs = Ok c' →
  ∃ l' vs (ws : primary → list F),
    links c' !! k = Some l' ∧ inputs l' = inputs l ∧ func l' = func l ∧
    MemoryFloat.history (output l') = MemoryFloat.history (output l) ++ vs ∧
    length vs = length xs ∧
    (∀ p, MemoryFloat.history (prim c' p) = MemoryFloat.history (prim c p) ++ ws p ∧
          length (ws p) = length xs) ∧
    (∀ i v, vs !! i = Some v → func l (row ws l i) = Ok v).
Proof.
  induction xs as [|x xs IH]; intros c c' k l Hwf Hk Hflat Hrun.
  - injection Hrun as <-. exists l, [], (λ _, []).
    split_and!; try done; [by rewrite app_nil_r|].
    intros p. by rewrite app_nil_r.
  - cbn [for_each] in Hrun. apply bind_Ok in Hrun as (c1 & Hc1 & Hrun).
    destruct (push_one_flat _ _ _ _ _ Hwf Hk Hflat Hc1) as (v & Hv & Hk1).
    assert (flat (fire l v)) as Hflat1 by done.
    destruct (IH c1 c' k (fire l v)) as (l' & vs & ws & Hk' & Hin & Hf & Hh & Hlen & Hp & Hrow);
      [by eapply wf_push_one|done..|].
    exists l', (v :: vs), (λ p, cur c1 p :: ws p).
    split_and!; try done.
    + rewrite Hh. simpl. by rewrite <-app_assoc.
    + simpl. by rewrite Hlen.
    + intros p. destruct (Hp p) as [-> Hlenp].
      rewrite (push_one_primary _ _ _ p Hc1), <-app_assoc. simpl. by rewrite Hlenp.
    + intros [|i] v'; simpl.
      * by intros [= <-].
      * apply Hrow.
Qed.

Lemma push_histories c xs c' k l :
  wf c → fleb (window_size c) zero = false →
  links c !! k = Some l → flat l →
  push c xs = Ok c' →
  ∃ l' vs (ws : primary → list F),
    links c' !! k = Some l' ∧ inputs l' = inputs l ∧ func l' = func l ∧
    MemoryFloat.history (output l') = MemoryFloat.history (output l) ++ vs ∧
    length vs = length xs ∧
    (∀ p, MemoryFloat.history (prim c' p) = MemoryFloat.history (prim c p) ++ ws p ∧
          length (ws p) = length xs) ∧
    (∀ i v, vs !! i = Some v → func l (row ws l i) = Ok v).
Proof.
  intros Hwf Hw Hk Hflat. unfold push. rewrite Hw. intros Hrun.
  eapply (push_loop xs (set_data c (data c ++ xs))) in Hrun as
    (l' & vs & ws & ? & ? & ? & ? & ? & Hp & ?); [| |done..].
  - exists l', vs, ws. split_and!; try done.
  - eapply wf_stats_only; [done|apply stats_only_set_data].
Qed.

Lemma push_loop_primaries xs p : ∀ c c',
  for_each push_one c xs = Ok c' →
  length (MemoryFloat.history (prim c' p)) =
    length (MemoryFloat.history (prim c p)) + length xs.
Proof.
  induction xs as [|x xs IH]; intros c c' Hrun.
  - injection Hrun as <-. simpl. lia.
  - cbn [for_each] in Hrun. apply bind_Ok in Hrun as (c1 & Hc1 & Hrun).
    rewrite (IH _ _ Hrun), (push_one_primary _ _ _ p Hc1), length_app. simpl. lia.
Qed.

Lemma push_primaries c xs c' p :
  fleb (window_size c) zero = false → push c xs = Ok c' →
  length (MemoryFloat.history (prim c' p)) =
    length (MemoryFloat.history (prim c p)) + length xs.
Proof.
  unfold push. intros ->. intros Hrun.
  rewrite (push_loop_primaries _ p _ _ Hrun). by destruct p.
Qed.

Lemma links_push c xs c' :
  push c xs = Ok c' → Forall2 link_shape (links c) (links c').
Proof.
  unfold push. destruct (fleb _ _).
  - destruct xs as [|? [|??]]; try done. intros [= <-]. apply links_shape_refl.
  - intros Hrun.
    eapply (for_each_invariant (λ x, Forall2 link_shape (links c) (links x))
              _ _ (set_data c (data c ++ xs))); [|apply links_shape_refl|exact Hrun].
    intros x y z _ Hx (c1 & Hc1 & Hsave)%bind_Ok.
    eapply Forall2_trans; [apply link_shape_trans|done|].
    destruct (stats_only_absorb _ _ _ Hc1) as (<- & _).
    apply (shape_save _ _ Hsave).
Qed.

(** *** The lengths of the histories along a session *)

Lemma run_lengths calls : ∀ c0 c,
  wf c0 → fleb (window_size c0) zero = false → run c0 calls = Ok c →
  (∀ p, length (MemoryFloat.history (prim c p)) =
          length (MemoryFloat.history (prim c0 p)) + pushed calls) ∧
  (∀ k l, links c !! k = Some l → flat l →
     match links c0 !! k with
     | Some l0 =>
         inputs l0 = inputs l ∧
         length (MemoryFloat.history (output l)) =
           length (MemoryFloat.history (output l0)) + pushed calls
     | None =>
         length (MemoryFloat.history (output l)) =
           pushed (since (k - length (links c0)) calls)
     end).
Proof.
  induction calls as [|o calls IH]; intros c0 c Hwf Hw Hrun.
  { injection Hrun as <-. split; [intros p; simpl; lia|].
    intros k l -> _. simpl. split; [done|lia]. }
  unfold run in Hrun. cbn [for_each] in Hrun.
  apply bind_Ok in Hrun as (c1 & Hc1 & Hrun).
  destruct o as [xs|v rs f]; simpl in Hc1.
  - destruct (IH c1 c) as [Hprim Hlinks];
      [by eapply wf_push|by rewrite (window_size_push _ _ _ Hc1)|done|].
    split.
    { intros p. rewrite Hprim, (push_primaries _ _ _ p Hw Hc1). simpl. lia. }
    intros k l Hk Hflat. specialize (Hlinks k l Hk Hflat).
    pose proof (links_push _ _ _ Hc1) as Hsh.
    destruct (links c0 !! k) as [l0|] eqn:Hk0.
    + destruct (Forall2_lookup_l _ _ _ _ _ Hsh Hk0) as (l1 & Hk1 & _).
      rewrite Hk1 in Hlinks. destruct Hlinks as [Hin Hlen].
      assert (flat l1) as Hflat1 by (unfold flat in *; by rewrite Hin).
      destruct (Forall2_lookup_l _ _ _ _ _ Hsh Hk0) as (? & ? & (Hin0 & _)).
      simplify_eq.
      assert (flat l0) as Hflat0 by (unfold flat in *; by rewrite <-Hin0).
      destruct (push_histories _ _ _ _ _ Hwf Hw Hk0 Hflat0 Hc1)
        as (l1' & vs & ws & Hk1' & _ & _ & Hh & Hvs & _).
      simplify_eq. split; [congruence|].
      rewrite Hlen, Hh, length_app. simpl. lia.
    + assert (links c1 !! k = None) as Hk1.
      { apply lookup_ge_None_2. rewrite <-(Forall2_length _ _ _ Hsh).
        by apply lookup_ge_None_1. }
      rewrite Hk1 in Hlinks. simpl.
      by rewrite (Forall2_length _ _ _ Hsh).
  - destruct (subscribe_spec _ _ _ _ _ Hc1)
      as (_ & Hw1 & Hp1 & Hlen1 & Hold & (lnew & Hnew & _ & _ & Hnil)).
    destruct (IH c1 c) as [Hprim Hlinks];
      [by eapply wf_subscribe|by rewrite Hw1|done|].
    split.
    { intros p. rewrite Hprim. destruct (Hp1 p) as [_ ->]. done. }
    intros k l Hk Hflat. specialize (Hlinks k l Hk Hflat).
    destruct (links c0 !! k) as [l0|] eqn:Hk0.
    + destruct (Hold _ _ Hk0) as (l1 & Hk1 & Hin1 & _ & _ & Hh1).
      rewrite Hk1 in Hlinks. destruct Hlinks as [Hin Hlen].
      split; [congruence|]. rewrite Hlen, Hh1. done.
    + apply lookup_ge_None_1 in Hk0. simpl.
      destruct (decide (k = length (links c0))) as [->|Hne].
      * rewrite Hnew in Hlinks. destruct Hlinks as [_ ->].
        rewrite Hnil, Nat.sub_diag. done.
      * rewrite (lookup_ge_None_2 (links c1) k) in Hlinks by lia.
        rewrite Hlen1 in Hlinks.
        replace (k - length (links c0))
          with (Datatypes.S (k - Datatypes.S (length (links c0)))) by lia.
        done.
Qed.

Lemma run_wf calls : ∀ c0 c, wf c0 → run c0 calls = Ok c → wf c.
Proof.
  intros c0 c Hwf Hrun. eapply (for_each_invariant wf); [|done..].
  intros x [xs|v rs f] y _ Hx; simpl; [by apply wf_push|by apply wf_subscribe].
Qed.

Lemma run_window_size calls : ∀ c0 c,
  run c0 calls = Ok c → window_size c = window_size c0.
Proof.
  intros c0 c Hrun.
  eapply (for_each_invariant (λ x, window_size x = window_size c0));
    [|reflexivity|exact Hrun].
  intros x [xs|v rs f] y _ <-; simpl; [apply window_size_push|].
  intros Hs. by destruct (subscribe_spec _ _ _ _ _ Hs) as (_ & ? & _).
Qed.

(** C2, as amended.  In a session that starts at the constructor, take a
    derived value [l] whose inputs are primaries, pairwise distinct and
    at least one, and a call of [push] with the samples [xs] that
    returns, on a container with a positive window size.  Then the
    call appends exactly one value per sample to the history of the
    output, as it appends one per sample to the history of each
    primary, and the [i]-th appended value is the function of [l] on
    the [i]-th values appended to its inputs: the barrier fired once per
    sample, never zero times and never twice. *)
Theorem join_barrier_fires_once_per_sample data w calls c0 c k l xs c' :
  init data w = Ok c0 → run c0 calls = Ok c →
  links c !! k = Some l → flat l →
  fleb (window_size c) zero = false →
  push c xs = Ok c' →
  ∃ l' vs (ws : primary → list F),
    links c' !! k = Some l' ∧
    MemoryFloat.history (output l') = MemoryFloat.history (output l) ++ vs ∧
    length vs = length xs ∧
    (∀ p, MemoryFloat.history (prim c' p) =
            MemoryFloat.history (prim c p) ++ ws p ∧
          length (ws p) = length xs) ∧
    (∀ i v, vs !! i = Some v → func l (row ws l i) = Ok v).
Proof.
  intros Hinit Hrun Hk Hflat Hw Hpush.
  assert (wf c) as Hwf by eauto using run_wf, wf_init.
  destruct (push_histories _ _ _ _ _ Hwf Hw Hk Hflat Hpush)
    as (l' & vs & ws & ? & _ & _ & ? & ? & ? & ?).
  by exists l', vs, ws.
Qed.

(** C3, as amended.  In a session that starts at the constructor with a
    positive window size, the history of each primary is as long as the
    number of samples pushed so far, the initial data included, and the
    history of a derived value whose inputs are primaries, pairwise
    distinct and at least one, is as long as the number of samples
    pushed since it was subscribed.  (The count [n] stops growing at
    the first eviction; the histories do not.) *)
Theorem history_length_is_samples_pushed data w calls c0 c :
  fleb w zero = false →
  init data w = Ok c0 → run c0 calls = Ok c →
  (∀ p, length (MemoryFloat.history (prim c p)) = length data + pushed calls) ∧
  (∀ k l, links c !! k = Some l → flat l →
     length (MemoryFloat.history (output l)) = pushed (since k calls)).
Proof.
  intros Hw Hinit Hrun.
  assert (run (empty w) (Push data :: calls) = Ok c ∨
          (data = [] ∧ run (empty w) calls = Ok c)) as Hrun'.
  { unfold init in Hinit. destruct data as [|x data].
    - injection Hinit as <-. by right.
    - left. unfold run. cbn [for_each step]. by rewrite Hinit. }
  destruct Hrun' as [Hrun'|[-> Hrun']];
    destruct (run_lengths _ _ _ (wf_empty w) Hw Hrun') as [Hprim Hlinks].
  - split.
    + intros p. rewrite Hprim. by destruct p.
    + intros k l Hk Hflat. specialize (Hlinks k l Hk Hflat). simpl in Hlinks.
      by rewrite Nat.sub_0_r in Hlinks.
  - split.
    + intros p. rewrite Hprim. by destruct p.
    + intros k l Hk Hflat. specialize (Hlinks k l Hk Hflat). simpl in Hlinks.
      by rewrite Nat.sub_0_r in Hlinks.
Qed.

(** *** A container with a window size of zero or less *)

Lemma push_disabled_one c x :
  fleb (window_size c) zero = true → push c [x] = Ok c.
Proof. unfold push. by intros ->. Qed.

Lemma push_disabled_arity c xs :
  fleb (window_size c) zero = true → length xs ≠ 1 →
  push c xs = Raise TypeError.
Proof. unfold push. intros ->. by destruct xs as [|? [|??]]. Qed.
End session.
End Session.

(** ** Containers none of whose own names was given to a subscription *)

Module Guard.
Import Container Invariants Calls.
Import Shape Primaries Wf Session.

Section guard.
Context `{PyNum F}.
Implicit Types (c : t F).

Lemma unshadowed_lookup c name :
  unshadowed c → name ∈ own_names → attrs c !! name = None.
Proof. intros Hu. by apply (proj1 (Forall_forall _ _) Hu). Qed.

Lemma unshadowed_attrs c c' : attrs c' = attrs c → unshadowed c → unshadowed c'.
Proof. unfold unshadowed. by intros ->. Qed.

Lemma unshadowed_assign c p v : unshadowed c → unshadowed (assign c p v).
Proof. apply unshadowed_attrs, attrs_assign. Qed.

Lemma unshadowed_set_data c d : unshadowed c → unshadowed (set_data c d).
Proof. by apply unshadowed_attrs. Qed.

Lemma unshadowed_empty (w : F) : unshadowed (empty w).
Proof. apply Forall_forall. intros name _. apply lookup_empty. Qed.

Lemma unshadowed_push_one c x c' :
  push_one c x = Ok c' → unshadowed c → unshadowed c'.
Proof.
  intros (c1 & Hc1 & Hsave)%bind_Ok. apply unshadowed_attrs.
  rewrite (shape_attrs _ _ (shape_save _ _ Hsave)).
  by destruct (stats_only_absorb _ _ _ Hc1) as (_ & -> & _).
Qed.

Lemma unshadowed_push c xs c' : push c xs = Ok c' → unshadowed c → unshadowed c'.
Proof.
  unfold push. destruct (fleb _ _).
  - destruct xs as [|? [|??]]; try done. by intros [= <-].
  - intros Hrun Hu.
    eapply (for_each_invariant unshadowed); [|by apply unshadowed_set_data|done].
    intros x b y _ Hx Hy. by eapply unshadowed_push_one.
Qed.

Lemma unshadowed_init data w c : init data w = Ok c → unshadowed c.
Proof.
  unfold init. destruct data as [|x xs].
  - intros [= <-]. apply unshadowed_empty.
  - intros Hp. eapply unshadowed_push; [done|apply unshadowed_empty].
Qed.

Lemma attrs_update c r f : attrs (update c r f) = attrs c.
Proof. destruct r; [apply attrs_set_prim|done]. Qed.

Lemma attrs_connect c inputs output func :
  attrs (connect c inputs output func) = attrs c.
Proof.
  unfold connect.
  set (c0 := set_links c _). change (attrs c) with (attrs c0).
  generalize c0. clear c0.
  induction inputs as [|r rs IH]; intros c0; [done|].
  simpl. rewrite IH. apply attrs_update.
Qed.

(** A subscription under another name than the container's own leaves
    it unshadowed. *)
Lemma unshadowed_subscribe c varname inputs func c' :
  varname ∉ own_names → subscribe c varname inputs func = Ok c' →
  unshadowed c → unshadowed c'.
Proof.
  intros Hv Hs Hu. unfold subscribe in Hs.
  destruct (forallb _ _); [|done]. injection Hs as <-.
  apply Forall_forall. intros name Hname. rewrite attrs_connect. simpl.
  rewrite lookup_insert_ne by (by intros ->).
  by apply unshadowed_lookup.
Qed.
End guard.

(** [unshadowed] of a concrete container. *)
Ltac unshadowed_now :=
  repeat (apply Forall_cons_2; [vm_compute; reflexivity|]); apply Forall_nil_2.
End Guard.

(** ** The methods on the live object and on the constructor's objects *)

Module Agreement.
Import Live.
Import Container Invariants Calls.
Import Shape Primaries Wf Session Guard.
Section agreement.
Context `{PyNum F}.
Implicit Types (c : t F).

Lemma for_each_plain {B : Type} (body' : t F → B → outcome F)
    (body : t F → B → result (t F)) (l : list B) :
  (∀ c b, returned (body' c b) = body c b) →
  ∀ c, returned (Live.each body' c l) = for_each body c l.
Proof.
  intros Hb. induction l as [|b l IH]; intros c; [done|].
  cbn [Live.each for_each]. rewrite <-Hb.
  destruct (body' c b) as [c'|e c']; [apply IH|done].
Qed.

Lemma hook_plain (save_output' : ref → t F → outcome F)
    (save_output : ref → t F → result (t F)) k input c :
  (∀ r c, returned (save_output' r c) = save_output r c) →
  returned (Live.hook save_output' k input c)
  = Container.hook save_output k input c.
Proof.
  intros Hs. unfold Live.hook, Container.hook.
  destruct (links c !! k) as [l|]; [|done]. cbv zeta.
  destruct (decide _); [|done].
  destruct (read _ _) as [args|]; [|done]. cbn.
  destruct (func l args) as [v|]; [|done]. cbn.
  unfold set_val. rewrite <-Hs.
  by destruct (save_output' _ _).
Qed.

Lemma save_float_plain depth : ∀ r c,
  returned (Live.save_float depth r c) = Container.save_float depth r c.
Proof.
  induction depth as [|depth IH]; intros r c; [done|].
  cbn [Live.save_float Container.save_float].
  destruct (get c r) as [m|]; [|done]. cbn.
  apply for_each_plain. intros c' k. by apply hook_plain.
Qed.

Lemma save_plain c :
  attrs c !! "mem_floats" = None →
  returned (Live.save c) = Container.save c.
Proof.
  intros Hm. unfold Live.save, Container.save. rewrite Hm.
  apply for_each_plain. intros c' p. apply save_float_plain.
Qed.

Lemma self_plain c p : unshadowed c → self_ c p = Prim p.
Proof.
  intros Hu. unfold self_.
  rewrite (unshadowed_lookup c (attribute p) Hu); [done|].
  destruct p; unfold own_names; set_solver.
Qed.

Lemma window_plain c : unshadowed c → window c = window_size c.
Proof.
  intros Hu. unfold window.
  rewrite (unshadowed_lookup c "window_size" Hu); [done|].
  unfold own_names; set_solver.
Qed.

Lemma invoke_plain c name method :
  unshadowed c → name ∈ own_names → invoke c name method = method c.
Proof. intros Hu Hn. unfold invoke. by rewrite (unshadowed_lookup c name Hu). Qed.

Lemma attrs_set_val c r v : attrs (set_val c r v) = attrs c.
Proof. unfold set_val. destruct r; [apply attrs_set_prim|done]. Qed.

Lemma unshadowed_set_val c r v : unshadowed c → unshadowed (set_val c r v).
Proof. apply unshadowed_attrs, attrs_set_val. Qed.

Lemma val_prim c p : val c (Prim p) = cur c p.
Proof. done. Qed.

Lemma set_val_prim c p v : set_val c (Prim p) v = assign c p v.
Proof. done. Qed.

Lemma pop_plain c :
  unshadowed c → returned (Live._pop c) = Container._pop c.
Proof.
  intros Hu. unfold Live._pop, Container._pop.
  rewrite (unshadowed_lookup c "data" Hu) by (unfold own_names; set_solver).
  destruct (data c) as [|out rest]; [done|]. cbv zeta.
  assert (unshadowed (set_data c rest)) as Hu0 by (by apply unshadowed_set_data).
  generalize dependent (set_data c rest). intros c0 Hu0.
  rewrite !(self_plain c0 _ Hu0), !val_prim, !set_val_prim.
  set (c1 := assign c0 Pn _).
  assert (unshadowed c1) as Hu1 by (by apply unshadowed_assign).
  rewrite !(self_plain c1 _ Hu1), !val_prim, !set_val_prim.
  set (c2 := assign c1 Psum _).
  assert (unshadowed c2) as Hu2 by (by apply unshadowed_assign).
  rewrite !(self_plain c2 _ Hu2), !val_prim, !set_val_prim.
  destruct (feqb (cur c2 Pn) zero).
  - set (c3 := assign c2 PS _).
    assert (unshadowed c3) as Hu3 by (by apply unshadowed_assign).
    rewrite !(self_plain c3 _ Hu3), !set_val_prim.
    set (c4 := assign c3 PM _).
    assert (unshadowed c4) as Hu4 by (by apply unshadowed_assign).
    by rewrite !(self_plain c4 _ Hu4), !set_val_prim.
  - destruct (fdiv _ _) as [q|]; [|done]. cbn [eval mbind result_bind].
    set (c3 := assign c2 PM _).
    assert (unshadowed c3) as Hu3 by (by apply unshadowed_assign).
    rewrite !(self_plain c3 _ Hu3), !val_prim, !set_val_prim.
    set (c4 := assign c3 PS _).
    assert (unshadowed c4) as Hu4 by (by apply unshadowed_assign).
    rewrite !(self_plain c4 _ Hu4), !val_prim, !set_val_prim.
    destruct (feqb out zero); [done|].
    by destruct (fdiv one out).
Qed.

Lemma unshadowed_pop c c' : Live._pop c = Done c' → unshadowed c → unshadowed c'.
Proof.
  intros Hp Hu. apply (unshadowed_attrs c); [|done].
  pose proof (pop_plain c Hu) as Hr. rewrite Hp in Hr. simpl in Hr.
  symmetry in Hr. by destruct (stats_only_pop _ _ Hr) as (_ & -> & _).
Qed.

Lemma push_one_plain c x :
  unshadowed c → returned (Live.push_one c x) = Container.push_one c x.
Proof.
  intros Hu. unfold Live.push_one, Container.push_one, absorb. cbv zeta.
  rewrite !(self_plain c _ Hu), !set_val_prim.
  set (c0 := assign c Pvalue x).
  assert (unshadowed c0) as Hu0 by (by apply unshadowed_assign).
  rewrite !(self_plain c0 _ Hu0), !val_prim, (window_plain c0 Hu0).
  rewrite (invoke_plain c0 "_pop") by (done || unfold own_names; set_solver).
  assert (∃ o, o = (if fgeb (cur c0 Pn) (window_size c0) then Live._pop c0
                    else Done c0) ∧
               returned o = (if fgeb (cur c0 Pn) (window_size c0)
                             then Container._pop c0 else Ok c0) ∧
               ∀ c1, o = Done c1 → unshadowed c1) as (o & <- & Ho & Hu1).
  { eexists. split; [done|]. destruct (fgeb _ _).
    - split; [by apply pop_plain|]. intros c1 Hc1. by eapply unshadowed_pop.
    - split; [done|]. by intros c1 [= <-]. }
  rewrite <-Ho. destruct o as [c1|e c1]; [|done].
  specialize (Hu1 c1 eq_refl). cbn [and_then returned mbind result_bind].
  destruct (if feqb x zero then Ok nan else fdiv one x) as [reciprocal|];
    [|done].
  cbn [eval mbind result_bind].
  rewrite !(self_plain c1 _ Hu1), !val_prim, !set_val_prim.
  set (c2 := assign c1 Pn _).
  assert (unshadowed c2) as Hu2 by (by apply unshadowed_assign).
  rewrite !(self_plain c2 _ Hu2), !val_prim, !set_val_prim.
  set (c3 := assign c2 Psum _).
  assert (unshadowed c3) as Hu3 by (by apply unshadowed_assign).
  rewrite !(self_plain c3 _ Hu3), !val_prim, !set_val_prim.
  destruct (feqb (cur c3 Pn) one).
  - set (c4 := assign c3 PS _).
    assert (unshadowed c4) as Hu4 by (by apply unshadowed_assign).
    rewrite !(self_plain c4 _ Hu4), !set_val_prim.
    set (c5 := assign c4 PM _).
    assert (unshadowed c5) as Hu5 by (by apply unshadowed_assign).
    rewrite !(self_plain c5 _ Hu5), !set_val_prim.
    set (c6 := assign c5 Preciprocal_sum _).
    assert (unshadowed c6) as Hu6 by (by apply unshadowed_assign).
    cbn [and_then mbind result_bind].
    rewrite (invoke_plain c6 "save") by (done || unfold own_names; set_solver).
    apply save_plain, (unshadowed_lookup c6 _ Hu6). unfold own_names; set_solver.
  - destruct (fdiv _ _) as [q|]; [|done]. cbn [eval mbind result_bind].
    set (c4 := assign c3 PM _).
    assert (unshadowed c4) as Hu4 by (by apply unshadowed_assign).
    rewrite !(self_plain c4 _ Hu4), !val_prim, !set_val_prim.
    set (c5 := assign c4 PS _).
    assert (unshadowed c5) as Hu5 by (by apply unshadowed_assign).
    rewrite !(self_plain c5 _ Hu5), !val_prim, !set_val_prim.
    set (c6 := assign c5 Preciprocal_sum _).
    assert (unshadowed c6) as Hu6 by (by apply unshadowed_assign).
    cbn [and_then mbind result_bind].
    rewrite (invoke_plain c6 "save") by (done || unfold own_names; set_solver).
    apply save_plain, (unshadowed_lookup c6 _ Hu6). unfold own_names; set_solver.
Qed.

Lemma push_loop_plain xs : ∀ c,
  unshadowed c →
  returned (Live.each Live.push_one c xs)
  = for_each Container.push_one c xs.
Proof.
  induction xs as [|x xs IH]; intros c Hu; [done|].
  cbn [Live.each for_each].
  pose proof (push_one_plain c x Hu) as Hx.
  destruct (Live.push_one c x) as [c1|e c1]; simpl in Hx; rewrite <-Hx; [|done].
  cbn [and_then mbind result_bind]. apply IH.
  by eapply unshadowed_push_one.
Qed.


Lemma subscribe_plain c varname inputs func :
  unshadowed c → varname ∉ own_names →
  returned (Live.subscribe c varname inputs func)
  = Container.subscribe c varname inputs func.
Proof.
  intros Hu Hv. unfold Live.subscribe, Container.subscribe.
  rewrite (invoke_plain c "subscribe") by (done || unfold own_names; set_solver).
  destruct (forallb _ _); [|done]. unfold setattr.
  rewrite !bool_decide_eq_false_2; [done|..];
    intros ->; apply Hv; unfold own_names; set_solver.
Qed.
End agreement.

End Agreement.

(** ** The running statistics *)

(** Case analysis along the branches of [absorb] and [_pop], in a
    hypothesis [H : ... = Ok _] and in the goal. *)
Ltac split_run H :=
  repeat (cbn in H; match type of H with
  | context [if ?b then _ else _] => destruct b eqn:?
  | context [match ?d with [] => _ | _ :: _ => _ end] => destruct d
  | context [mbind _ (fdiv ?a ?b)] => destruct (fdiv a b) eqn:?
  | context [mbind _ (Exact.div _ ?x)] => is_var x; destruct x
  | Raise _ = Ok _ => discriminate H
  end).

Ltac split_goal :=
  repeat (cbn; match goal with
  | |- context [if ?b then _ else _] => destruct b eqn:?
  | |- context [match ?d with [] => _ | _ :: _ => _ end] => destruct d
  | |- context [mbind _ (Exact.div _ ?x)] => is_var x; destruct x
  end).

Ltac destruct_container c :=
  destruct c as [? ? [? ? ?] [? ? ?] [? ? ?] [? ? ?] [? ? ?] [? ? ?] ? ?].

Module Welford.
Import Container Invariants Calls ExactInvariants Samples.
Import Shape Primaries Wf Session.

Section any_numbers.
Context `{PyNum F}.

(** A sample that is counted as the first one zeroes [S]. *)
Lemma absorb_first (c : t F) x c1 :
  absorb c x = Ok c1 → feqb (cur c1 Pn) one = true →
  cur c1 PS = zero ∧ cur c1 PM = x.
Proof.
  destruct_container c. unfold absorb, _pop. intros Hc.
  split_run Hc; injection Hc as <-; cbn; try done; congruence.
Qed.

Lemma push_one_first (c : t F) x c' :
  push_one c x = Ok c' → feqb (cur c' Pn) one = true →
  cur c' PS = zero ∧ cur c' PM = x.
Proof.
  intros (c1 & Hc1 & Hsave)%bind_Ok.
  rewrite !(shape_cur _ _ (shape_save _ _ Hsave)). by eapply absorb_first.
Qed.
End any_numbers.

(** *** In exact arithmetic *)

Lemma sum_list_app xs ys : sum_list (xs ++ ys) = (sum_list xs + sum_list ys)%R.
Proof. induction xs as [|x xs IH]; simpl; [lra|]. rewrite IH. lra. Qed.

Lemma fgeb_zero_window (w : xreal) (m : nat) :
  fleb w zero = false → fgeb (XFin (INR m)) w = true → 1 ≤ m.
Proof. destruct m; [|lia]. unfold fgeb. simpl. congruence. Qed.

(** [absorb] returns: no division in it is by zero. *)
Lemma absorb_total (c : t xreal) (x : xreal) (m pend : nat) :
  fleb (window_size c) zero = false →
  cur c Pn = XFin (INR m) → length (data c) = m + Datatypes.S pend →
  ∃ c1, absorb c x = Ok c1.
Proof.
  destruct_container c. unfold absorb, _pop. cbn. intros Hw -> Hlen.
  change (Exact.leb window_size0 (XFin (INR m)))
    with (fgeb (XFin (INR m)) window_size0) in *.
  pose proof (pos_INR m).
  destruct (fgeb (XFin (INR m)) window_size0) eqn:Hge.
  - pose proof (fgeb_zero_window _ _ Hw Hge) as Hm. apply le_INR in Hm. simpl in Hm.
    split_goal; try (simpl in Hlen; lia); try (by eexists);
      cbn in *; repeat case_bool_decide; try lra; try congruence.
  - split_goal; try (by eexists);
      cbn in *; repeat case_bool_decide; try lra; try congruence.
Qed.

(** The count follows the retained samples: an eviction and the new
    sample leave it as it is, the new sample alone adds one. *)
Lemma absorb_count (c : t xreal) (x : xreal) c1 (m pend : nat) :
  fleb (window_size c) zero = false →
  cur c Pn = XFin (INR m) → length (data c) = m + Datatypes.S pend →
  absorb c x = Ok c1 →
  ∃ m1, cur c1 Pn = XFin (INR m1) ∧ length (data c1) = m1 + pend ∧
        m1 = (if fgeb (cur c Pn) (window_size c) then m else Datatypes.S m).
Proof.
  destruct_container c. unfold absorb, _pop. cbn. intros Hw -> Hlen Hc.
  change (Exact.leb window_size0 (XFin (INR m)))
    with (fgeb (XFin (INR m)) window_size0) in *.
  destruct (fgeb (XFin (INR m)) window_size0) eqn:Hge.
  - pose proof (fgeb_zero_window _ _ Hw Hge). exists m.
    split_run Hc; try (simpl in Hlen; lia); injection Hc as <-; cbn in *;
      (split; [f_equal; lra|split; [lia|done]]).
  - exists (Datatypes.S m). rewrite S_INR.
    split_run Hc; injection Hc as <-; cbn in *;
      (split; [done|split; [lia|done]]).
Qed.

(** The sum follows the retained samples, when they are finite. *)
Lemma absorb_sum (c : t xreal) (x : R) c1 (cnt pend : list R) :
  fleb (window_size c) zero = false →
  data c = XFin <$> (cnt ++ x :: pend) →
  cur c Pn = XFin (INR (length cnt)) → cur c Psum = XFin (sum_list cnt) →
  absorb c (XFin x) = Ok c1 →
  ∃ cnt1, data c1 = XFin <$> (cnt1 ++ pend) ∧
          cur c1 Pn = XFin (INR (length cnt1)) ∧
          cur c1 Psum = XFin (sum_list cnt1) ∧ cnt1 ≠ [].
Proof.
  destruct_container c. unfold absorb, _pop. cbn. intros Hw -> -> -> Hc.
  change (Exact.leb window_size0 (XFin (INR (length cnt))))
    with (fgeb (XFin (INR (length cnt))) window_size0) in *.
  destruct (fgeb (XFin (INR (length cnt))) window_size0) eqn:Hge.
  - pose proof (fgeb_zero_window _ _ Hw Hge) as Hm.
    destruct cnt as [|r cnt]; [simpl in Hm; lia|].
    exists (cnt ++ [x]). rewrite <-app_assoc, length_app, sum_list_app.
    rewrite length_cons, Nat.add_1_r in *. rewrite !S_INR in *.
    split_run Hc; injection Hc as <-; cbn in *;
      (split_and!; [done|f_equal; lra|
         f_equal; unfold sum_list; simpl; lra|by destruct cnt]).
  - exists (cnt ++ [x]). rewrite <-app_assoc, length_app, sum_list_app.
    rewrite Nat.add_1_r, !S_INR.
    split_run Hc; injection Hc as <-; cbn in *;
      (split_and!; [done|f_equal; lra|
         f_equal; unfold sum_list; simpl; lra|by destruct cnt]).
Qed.

(** One eviction. *)
Lemma pop_sum (c : t xreal) (r : R) (cnt : list R) :
  data c = XFin <$> (r :: cnt) →
  cur c Pn = XFin (INR (length cnt) + 1) →
  cur c Psum = XFin (r + sum_list cnt) →
  ∃ c', _pop c = Ok c' ∧ data c' = XFin <$> cnt ∧
        cur c' Pn = XFin (INR (length cnt)) ∧
        cur c' Psum = XFin (sum_list cnt) ∧
        (cnt = [] → cur c' PS = XNaN ∧ cur c' PM = XNaN ∧
                    cur c' Preciprocal_sum = XNaN).
Proof.
  destruct_container c. unfold _pop. cbn. intros -> -> ->.
  pose proof (pos_INR (length cnt)) as Hpos.
  split_goal; cbn in *; repeat case_bool_decide; try lra;
    (eexists; split; [reflexivity|]; cbn;
     split_and!; [done|f_equal; lra|f_equal; unfold sum_list; simpl; lra|]).
  all: try done.
  all: intros ->; simpl in *; lra.
Qed.
End Welford.

(** ** Sessions in exact arithmetic *)

Module ExactRuns.
Import Container Invariants Calls ExactInvariants Samples.
Import Shape Primaries Wf Session Guard Welford.

Implicit Types (c : t xreal) (m : nat).

Lemma Forall_finite (xs : list xreal) : Forall finite xs → ∃ rs, xs = XFin <$> rs.
Proof.
  induction 1 as [|x xs [r ->] _ [rs ->]]; [by exists []|by exists (r :: rs)].
Qed.

Lemma cur_save c c' p : save c = Ok c' → cur c' p = cur c p.
Proof. intros Hs. apply (shape_cur _ _ (shape_save _ _ Hs)). Qed.

Lemma data_save c c' : save c = Ok c' → data c' = data c.
Proof. intros Hs. apply (shape_data _ _ (shape_save _ _ Hs)). Qed.

Lemma window_size_absorb c x c1 : absorb c x = Ok c1 → window_size c1 = window_size c.
Proof. intros Hc. by destruct (stats_only_absorb _ _ _ Hc) as (_&_&?&_). Qed.

(** *** The count *)

Lemma counted_push_one c x c' pending :
  fleb (window_size c) zero = false →
  counted c (Datatypes.S pending) → push_one c x = Ok c' → counted c' pending.
Proof.
  intros Hw (m & Hn & Hlen & Hb) (c1 & Hc1 & Hsave)%bind_Ok.
  destruct (absorb_count _ _ _ _ _ Hw Hn Hlen Hc1) as (m1 & Hn1 & Hlen1 & Hm1).
  exists m1. rewrite (cur_save _ _ _ Hsave), (data_save _ _ Hsave).
  rewrite (shape_window_size _ _ (shape_save _ _ Hsave)),
    (window_size_absorb _ _ _ Hc1).
  split_and!; [done..|]. intros wr Hwr Hpos. specialize (Hb wr Hwr Hpos).
  rewrite Hn, Hwr in Hm1. unfold fgeb in Hm1. simpl in Hm1.
  case_bool_decide; subst m1; [done|]. rewrite S_INR. lra.
Qed.

Lemma counted_loop xs : ∀ c c',
  fleb (window_size c) zero = false →
  counted c (length xs) → for_each push_one c xs = Ok c' → counted c' 0.
Proof.
  induction xs as [|x xs IH]; intros c c' Hw Hc Hrun.
  - by injection Hrun as <-.
  - cbn [for_each] in Hrun. apply bind_Ok in Hrun as (c1 & Hc1 & Hrun).
    apply (IH c1); [by rewrite (window_size_push_one _ _ _ Hc1)| |done].
    by eapply counted_push_one.
Qed.

Lemma counted_set_data c xs :
  counted c 0 → counted (set_data c (data c ++ xs)) (length xs).
Proof.
  intros (m & Hn & Hlen & Hb). exists m. split_and!; [done| |done].
  simpl. rewrite length_app. lia.
Qed.

Lemma counted_push c xs c' : counted c 0 → push c xs = Ok c' → counted c' 0.
Proof.
  intros Hc. unfold push. destruct (fleb _ _) eqn:Hw.
  - destruct xs as [|? [|??]]; try done. by intros [= <-].
  - apply counted_loop; [done|]. by apply counted_set_data.
Qed.

Lemma counted_empty (w : xreal) : counted (empty w) 0.
Proof.
  exists 0. split_and!; [done..|]. simpl. intros wr _ ?. lra.
Qed.

Lemma counted_reachable c : reachable any_sample c → counted c 0.
Proof.
  induction 1 as [data w c _ Hinit|c v rs f c' _ IH Hs|c xs c' _ IH _ Hp].
  - unfold init in Hinit. destruct data as [|x xs].
    + injection Hinit as <-. apply counted_empty.
    + eapply counted_push; [apply counted_empty|done].
  - destruct IH as (m & Hn & Hlen & Hb).
    destruct (subscribe_spec _ _ _ _ _ Hs) as (Hd & Hw & Hp & _).
    exists m. rewrite Hd, Hw. destruct (Hp Pn) as [-> _]. done.
  - by eapply counted_push.
Qed.

(** [push] returns when no subscribed function raises. *)
Lemma total_funcs_stats_only c c' : stats_only c c' → total_funcs c → total_funcs c'.
Proof. intros (Hl & _) Ht. unfold total_funcs. by rewrite Hl. Qed.

Lemma push_one_total c x pending :
  wf c → total_funcs c → fleb (window_size c) zero = false →
  counted c (Datatypes.S pending) → ∃ c', push_one c x = Ok c'.
Proof.
  intros Hwf Ht Hw (m & Hn & Hlen & _).
  destruct (absorb_total c x m pending) as [c1 Hc1]; [done..|].
  pose proof (stats_only_absorb _ _ _ Hc1) as Hs.
  destruct (save_total c1) as [c' Hc'].
  - by eapply wf_structured, wf_stats_only.
  - by eapply total_funcs_defined, total_funcs_stats_only.
  - exists c'. unfold push_one. by rewrite Hc1.
Qed.

Lemma total_funcs_push_one c x c' : push_one c x = Ok c' → total_funcs c → total_funcs c'.
Proof.
  intros (c1 & Hc1 & Hsave)%bind_Ok Ht k l' args Hk Hlen.
  destruct (shape_lookup_r _ _ _ _ (shape_save _ _ Hsave) Hk) as (l & Hl & (Hin&Hf&_)).
  rewrite Hf. eapply (total_funcs_stats_only c c1);
    [by eapply stats_only_absorb|done..|by rewrite <-Hin].
Qed.

Lemma push_loop_total xs : ∀ c,
  wf c → total_funcs c → fleb (window_size c) zero = false →
  counted c (length xs) → ∃ c', for_each push_one c xs = Ok c'.
Proof.
  induction xs as [|x xs IH]; intros c Hwf Ht Hw Hc; [by eexists|].
  destruct (push_one_total c x (length xs)) as [c1 Hc1]; [done..|].
  cbn [for_each]. rewrite Hc1. simpl. apply IH.
  - by eapply wf_push_one.
  - by eapply total_funcs_push_one.
  - by rewrite (window_size_push_one _ _ _ Hc1).
  - by eapply counted_push_one.
Qed.

Lemma reachable_wf {F} `{PyNum F} (sample : F → Prop) (c : t F) :
  reachable sample c → wf c.
Proof.
  induction 1; eauto using wf_init, wf_subscribe, wf_push.
Qed.

(** C9, as amended.  In a session in which every call returned and no
    subscription was given one of the container's own names: after
    every call of [push], the one of the constructor included, [n] is the
    number of retained samples, whatever the window size and the samples
    are. *)
Theorem count_is_length c :
  reachable any_sample c → unshadowed c →
  cur c Pn = XFin (INR (length (data c))).
Proof.
  intros Hr _. destruct (counted_reachable c Hr) as (m & -> & -> & _).
  by rewrite Nat.add_0_r.
Qed.

(** With a positive, finite window size the count stays below
    [window_size + 1], in a session in which every call returned and no
    subscription was given one of the container's own names. *)
Lemma count_below_window_plus_one c (wr : R) (m : nat) :
  reachable any_sample c → unshadowed c →
  window_size c = XFin wr → (0 < wr)%R →
  cur c Pn = XFin (INR m) → (INR m < wr + 1)%R.
Proof.
  intros Hr _ Hw Hpos Hn. destruct (counted_reachable c Hr) as (m' & Hn' & _ & Hb).
  rewrite Hn in Hn'. injection Hn' as ->. by apply Hb.
Qed.

(** The count is at most [window_size] when that is a positive whole
    number, in a session in which every call returned and no
    subscription was given one of the container's own names. *)
Lemma count_within_whole_window c (size m : nat) :
  reachable any_sample c → unshadowed c →
  window_size c = XFin (INR size) → 0 < size →
  cur c Pn = XFin (INR m) → m ≤ size.
Proof.
  intros Hr _ Hw Hpos Hn. destruct (counted_reachable c Hr) as (m' & Hn' & _ & Hb).
  rewrite Hn in Hn'. injection Hn' as Hm%INR_eq. subst m'.
  pose proof (Hb (INR size) Hw (lt_0_INR _ Hpos)) as Hlt.
  rewrite <-S_INR in Hlt. apply INR_lt in Hlt. lia.
Qed.

(** *** One sample in the window *)

Lemma first_zero_push c xs c' : first_zero c → push c xs = Ok c' → first_zero c'.
Proof.
  intros Hc. unfold push. destruct (fleb _ _).
  - destruct xs as [|? [|??]]; try done. by intros [= <-].
  - intros Hrun.
    eapply (for_each_invariant first_zero _ _ (set_data c (data c ++ xs)));
      [|done|exact Hrun].
    intros x y z _ _ Hz Hn. by destruct (push_one_first _ _ _ Hz Hn).
Qed.

Lemma first_zero_reachable c : reachable any_sample c → first_zero c.
Proof.
  induction 1 as [data w c _ Hinit|c v rs f c' _ IH Hs|c xs c' _ IH _ Hp].
  - assert (first_zero (empty w)) as He.
    { unfold first_zero. simpl. by rewrite bool_decide_eq_false_2 by lra. }
    unfold init in Hinit. destruct data as [|x xs].
    + by injection Hinit as <-.
    + by eapply first_zero_push.
  - destruct (subscribe_spec _ _ _ _ _ Hs) as (_ & _ & Hp & _).
    unfold first_zero. destruct (Hp Pn) as [-> _], (Hp PS) as [-> _]. done.
  - by eapply first_zero_push.
Qed.

(** C10, as amended.  In every state the constructor, [subscribe] and
    [push] return, when no subscription was given one of the container's
    own names: [n = 1] implies [S = 0], so that [zscore] takes its NaN
    branch. *)
Theorem one_sample_has_zero_S c :
  reachable any_sample c → unshadowed c → cur c Pn = XFin 1 →
  cur c PS = XFin 0 ∧
  zscore [cur c PS; cur c Pn; cur c Pvalue; cur c PM] = Ok XNaN.
Proof.
  intros Hr _ Hn. pose proof (first_zero_reachable c Hr) as Hz.
  unfold first_zero in Hz. rewrite Hn in Hz. simpl in Hz.
  rewrite bool_decide_eq_true_2 in Hz by done. specialize (Hz eq_refl).
  split; [done|]. rewrite Hz. unfold zscore, fgtb. simpl.
  by rewrite bool_decide_eq_false_2 by lra.
Qed.

(** *** The sum, with finite samples *)

Lemma summed_push_one c x c' cnt pending :
  fleb (window_size c) zero = false →
  summed c cnt (x :: pending) → push_one c (XFin x) = Ok c' →
  ∃ cnt', summed c' cnt' pending ∧ cnt' ≠ [].
Proof.
  intros Hw (Hd & Hn & Hs) (c1 & Hc1 & Hsave)%bind_Ok.
  destruct (absorb_sum _ _ _ _ _ Hw Hd Hn Hs Hc1) as (cnt' & ? & ? & ? & ?).
  exists cnt'. unfold summed.
  by rewrite !(cur_save _ _ _ Hsave), (data_save _ _ Hsave).
Qed.

Lemma summed_loop xs : ∀ c c' cnt,
  fleb (window_size c) zero = false →
  summed c cnt xs → (cnt = [] → blank c) →
  for_each push_one c (XFin <$> xs) = Ok c' →
  ∃ cnt', summed c' cnt' [] ∧ (cnt' = [] → blank c').
Proof.
  induction xs as [|x xs IH]; intros c c' cnt Hw Hc Hb Hrun.
  - injection Hrun as <-. by exists cnt.
  - rewrite fmap_cons in Hrun. cbn [for_each] in Hrun.
    apply bind_Ok in Hrun as (c1 & Hc1 & Hrun).
    destruct (summed_push_one _ _ _ _ _ Hw Hc Hc1) as (cnt1 & Hc1' & Hne).
    apply (IH c1 c' cnt1); [by rewrite (window_size_push_one _ _ _ Hc1)|done..].
Qed.

Lemma settled_push c xs c' :
  settled c → push c (XFin <$> xs) = Ok c' → settled c'.
Proof.
  intros (cnt & (Hd & Hn & Hs) & Hb). unfold push. destruct (fleb _ _) eqn:Hw.
  - destruct xs as [|? [|??]]; try done. intros [= <-]. by exists cnt.
  - apply (summed_loop xs _ _ cnt); [done| |done].
    split; [|done]. simpl. rewrite Hd, app_nil_r. by rewrite fmap_app.
Qed.

Lemma settled_reachable c : reachable finite c → settled c.
Proof.
  induction 1 as [data w c Hfin Hinit|c v rs f c' _ IH Hs|c xs c' _ IH Hfin Hp].
  - assert (settled (empty w)) as He by by exists [].
    unfold init in Hinit. destruct data as [|x xs].
    + by injection Hinit as <-.
    + apply Forall_finite in Hfin as [rs Hrs]. rewrite Hrs in Hinit.
      by eapply settled_push.
  - destruct IH as (cnt & (Hd & Hn & Hsm) & Hb).
    destruct (subscribe_spec _ _ _ _ _ Hs) as (Hd' & _ & Hp & _).
    exists cnt. unfold summed, blank.
    rewrite Hd'. destruct (Hp Pn) as [-> _], (Hp Psum) as [-> _],
      (Hp PS) as [-> _], (Hp PM) as [-> _], (Hp Preciprocal_sum) as [-> _].
    done.
  - apply Forall_finite in Hfin as [rs ->]. by eapply settled_push.
Qed.

Lemma evict_loop cnt : ∀ c (ticks : list xreal),
  length ticks = length cnt →
  summed c cnt [] → (cnt = [] → blank c) →
  ∃ c', for_each (λ c _, _pop c) c ticks = Ok c' ∧
        summed c' [] [] ∧ blank c'.
Proof.
  induction cnt as [|r cnt IH]; intros c ticks Hlen Hc Hb.
  - destruct ticks; [|done]. exists c. split_and!; [done..|by apply Hb].
  - destruct ticks as [|tick ticks]; [done|]. destruct Hc as (Hd & Hn & Hs).
    rewrite app_nil_r in Hd. rewrite length_cons, S_INR in Hn.
    destruct (pop_sum c r cnt Hd Hn Hs) as (c1 & Hc1 & Hd1 & Hn1 & Hs1 & Hb1).
    cbn [for_each]. rewrite Hc1. simpl. apply IH; [by injection Hlen|..].
    + split_and!; [by rewrite app_nil_r|done..].
    + done.
Qed.

(** In exact arithmetic: from any state that the constructor,
    [subscribe] and [push] return on finite samples, evicting every
    retained sample leaves the empty window with [n = 0], [S], [M] and
    [reciprocal_sum] NaN and [sum] exactly 0. *)
Lemma evict_all_exact c :
  reachable finite c →
  ∃ c', evict_all c = Ok c' ∧ data c' = [] ∧
        cur c' Pn = XFin 0 ∧ cur c' PS = XNaN ∧ cur c' PM = XNaN ∧
        cur c' Preciprocal_sum = XNaN ∧ cur c' Psum = XFin 0.
Proof.
  intros (cnt & Hc & Hb)%settled_reachable.
  destruct (evict_loop cnt c (data c)) as (c' & Hc' & (Hd & Hn & Hs) & (?&?&?));
    [|done..|].
  { destruct Hc as (-> & _). by rewrite length_fmap, app_nil_r. }
  exists c'. by split_and!.
Qed.
(** *** The mean and the sum of squared deviations, before any eviction *)

Lemma sq_dev_shift (a b : R) xs :
  sq_dev a xs =
    (sq_dev b xs + 2 * (b - a) * (sum_list xs - INR (length xs) * b)
     + INR (length xs) * ((b - a) * (b - a)))%R.
Proof.
  unfold sq_dev. induction xs as [|x xs IH].
  - simpl. lra.
  - rewrite !fmap_cons, length_cons, S_INR. unfold sum_list in *. simpl.
    rewrite IH. lra.
Qed.

Lemma sum_sq_dev_mean xs : sum_sq_dev xs = sq_dev (mean xs) xs.
Proof. done. Qed.

Lemma sq_dev_mean (a : R) xs :
  xs ≠ [] →
  sq_dev a xs =
    (sum_sq_dev xs + INR (length xs) * ((mean xs - a) * (mean xs - a)))%R.
Proof.
  intros Hne. rewrite (sq_dev_shift a (mean xs)), sum_sq_dev_mean.
  assert (0 < INR (length xs))%R as Hpos.
  { apply lt_0_INR. destruct xs; [done|simpl; lia]. }
  unfold mean. replace (INR (length xs) * (sum_list xs / INR (length xs)))%R
    with (sum_list xs) by (field; lra).
  lra.
Qed.

Lemma mean_snoc xs x :
  xs ≠ [] →
  mean (xs ++ [x]) = (mean xs + (x - mean xs) / (INR (length xs) + 1))%R.
Proof.
  intros Hne. unfold mean. rewrite sum_list_app, length_app, Nat.add_1_r, S_INR.
  assert (0 < INR (length xs))%R as Hpos.
  { apply lt_0_INR. destruct xs; [done|simpl; lia]. }
  unfold sum_list at 2. simpl. field. lra.
Qed.

(** Welford's update of the sum of squared deviations. *)
Lemma sum_sq_dev_snoc xs x :
  xs ≠ [] →
  sum_sq_dev (xs ++ [x]) =
    (sum_sq_dev xs + (x - mean xs) * (x - mean (xs ++ [x])))%R.
Proof.
  intros Hne. rewrite (sum_sq_dev_mean (xs ++ [x])). unfold sq_dev.
  rewrite fmap_app, sum_list_app. fold (sq_dev (mean (xs ++ [x])) xs).
  rewrite (sq_dev_mean _ xs Hne), (mean_snoc xs x Hne).
  assert (0 < INR (length xs))%R as Hpos.
  { apply lt_0_INR. destruct xs; [done|simpl; lia]. }
  unfold sum_list. simpl. field. lra.
Qed.

Lemma mean_one x : mean [x] = x.
Proof. unfold mean, sum_list. simpl. field. Qed.

Lemma sum_sq_dev_one x : sum_sq_dev [x] = 0%R.
Proof. unfold sum_sq_dev. rewrite mean_one. unfold sum_list. simpl. lra. Qed.

(** The first sample, and Welford's update for the later ones, when
    nothing is evicted. *)
Lemma absorb_one c (x : R) c1 :
  fgeb (cur c Pn) (window_size c) = false → cur c Pn = XFin 0 →
  absorb c (XFin x) = Ok c1 →
  data c1 = data c ∧
  cur c1 Pn = XFin 1 ∧ cur c1 PM = XFin x ∧ cur c1 PS = XFin 0.
Proof.
  destruct_container c. unfold absorb, fgeb. cbn. intros Hge -> Hc.
  rewrite Hge in Hc. cbn in Hc.
  rewrite (bool_decide_eq_true_2 (0 + 1 = 1)%R) in Hc by lra.
  split_run Hc; injection Hc as <-; cbn;
    (split_and!; [done|f_equal; lra|done..]).
Qed.

Lemma absorb_update c (x k m s : R) c1 :
  (0 < k)%R → fgeb (cur c Pn) (window_size c) = false →
  cur c Pn = XFin k → cur c PM = XFin m → cur c PS = XFin s →
  absorb c (XFin x) = Ok c1 →
  data c1 = data c ∧
  cur c1 Pn = XFin (k + 1) ∧ cur c1 PM = XFin (m + (x - m) / (k + 1)) ∧
  cur c1 PS = XFin (s + (x - m) * (x - (m + (x - m) / (k + 1)))).
Proof.
  destruct_container c. unfold absorb, fgeb. cbn. intros Hk Hge -> -> -> Hc.
  rewrite Hge in Hc. cbn in Hc.
  rewrite (bool_decide_eq_false_2 (k + 1 = 1)%R) in Hc by lra.
  rewrite (bool_decide_eq_false_2 (k + 1 = 0)%R) in Hc by lra.
  split_run Hc; injection Hc as <-; cbn; done.
Qed.

Lemma absorb_welford c (x : R) (cnt : list R) c1 :
  fgeb (cur c Pn) (window_size c) = false → welford c cnt →
  absorb c (XFin x) = Ok c1 → data c1 = data c ∧ welford c1 (cnt ++ [x]).
Proof.
  intros Hge [Hn Hms] Hc. unfold welford.
  rewrite length_app, Nat.add_1_r, S_INR.
  destruct (decide (cnt = [])) as [->|Hne].
  - destruct (absorb_one _ _ _ Hge Hn Hc) as (Hd & Hn1 & HM1 & HS1).
    rewrite Hn1, HM1, HS1. simpl app. rewrite mean_one, sum_sq_dev_one.
    split_and!; [done|f_equal; simpl; lra|done].
  - destruct (Hms Hne) as [HM HS].
    assert (0 < INR (length cnt))%R as Hpos.
    { apply lt_0_INR. destruct cnt; [done|simpl; lia]. }
    destruct (absorb_update _ _ _ _ _ _ Hpos Hge Hn HM HS Hc)
      as (Hd & Hn1 & HM1 & HS1).
    rewrite Hn1, HM1, HS1, sum_sq_dev_snoc, mean_snoc by done. done.
Qed.

Lemma welford_push_one c (x : R) (cnt : list R) c' :
  fgeb (cur c Pn) (window_size c) = false → welford c cnt →
  push_one c (XFin x) = Ok c' → data c' = data c ∧ welford c' (cnt ++ [x]).
Proof.
  intros Hge Hw (c1 & Hc1 & Hsave)%bind_Ok. unfold welford.
  rewrite !(cur_save _ _ _ Hsave), (data_save _ _ Hsave).
  by eapply absorb_welford.
Qed.

(** No eviction at a count of [k] means none at a lower count, and a
    window size above zero. *)
Lemma fgeb_count_le (w : xreal) (j k : nat) :
  fgeb (XFin (INR k)) w = false → j ≤ k → fgeb (XFin (INR j)) w = false.
Proof.
  unfold fgeb. destruct w as [|[]|wr]; simpl; try done.
  intros Hk%bool_decide_eq_false Hle%le_INR.
  apply bool_decide_eq_false. lra.
Qed.

Lemma fgeb_count_window (w : xreal) (k : nat) :
  fgeb (XFin (INR k)) w = false → fleb w zero = false.
Proof.
  unfold fgeb. destruct w as [|[]|wr]; simpl; try done.
  intros Hk%bool_decide_eq_false. pose proof (pos_INR k).
  apply bool_decide_eq_false. lra.
Qed.

Lemma welford_loop (xs : list R) : ∀ c (cnt : list R) c',
  welford c cnt →
  fgeb (XFin (INR (length cnt + length xs - 1))) (window_size c) = false →
  for_each push_one c (XFin <$> xs) = Ok c' →
  data c' = data c ∧ welford c' (cnt ++ xs).
Proof.
  induction xs as [|x xs IH]; intros c cnt c' Hw Hge Hrun.
  - injection Hrun as <-. by rewrite app_nil_r.
  - rewrite fmap_cons in Hrun. cbn [for_each] in Hrun.
    apply bind_Ok in Hrun as (c1 & Hc1 & Hrun).
    destruct (welford_push_one c x cnt c1) as [Hd Hw1]; [|done..|].
    { destruct Hw as [-> _]. eapply fgeb_count_le; [done|]. simpl. lia. }
    destruct (IH c1 (cnt ++ [x]) c' Hw1) as [Hd' Hw']; [|done|].
    { rewrite (window_size_push_one _ _ _ Hc1), length_app. simpl.
      replace (length cnt + 1 + length xs - 1)
        with (length cnt + Datatypes.S (length xs) - 1) by lia. done. }
    rewrite <-app_assoc in Hw'. split; [congruence|done].
Qed.

(** In exact arithmetic, as long as nothing is evicted: a container
    made with the samples [xs], at least one, and a window that holds them
    all has their number in [n], their mean in [M] and the sum of their
    squared deviations from the mean in [S]. *)
Theorem welford_before_eviction (xs : list R) (w : xreal) :
  xs ≠ [] → fgeb (XFin (INR (length xs - 1))) w = false →
  ∃ c, init (XFin <$> xs) w = Ok c ∧ data c = XFin <$> xs ∧
       cur c Pn = XFin (INR (length xs)) ∧ cur c PM = XFin (mean xs) ∧
       cur c PS = XFin (sum_sq_dev xs).
Proof.
  intros Hne Hge. pose proof (fgeb_count_window _ _ Hge) as Hw.
  unfold init. destruct xs as [|x xs]; [done|]. rewrite fmap_cons.
  rewrite <-fmap_cons. unfold push. simpl window_size. rewrite Hw.
  set (c0 := set_data (empty w) (data (empty w) ++ (XFin <$> x :: xs))).
  destruct (push_loop_total (XFin <$> x :: xs) c0) as [c Hc].
  - eapply wf_stats_only; [apply wf_empty|apply stats_only_set_data].
  - intros k l args Hk. done.
  - done.
  - apply counted_set_data, counted_empty.
  - exists c. split; [done|].
    destruct (welford_loop (x :: xs) c0 [] c) as (Hd & Hn & Hms); [done|done..|].
    rewrite Hd. destruct Hms as [HM HS]; done.
Qed.
End ExactRuns.

(** ** Runs on binary64 *)

Module OnFloats.
Import Container Invariants Calls ExactInvariants Samples Barrier Wf Session.

(** C1: with [window_size = 2], pushing 1, 2, 3 evicts 1 and leaves 2, 3,
    whose squared deviations from their mean 2.5 sum to 0.5; [S] is 0.75. *)
Lemma S_after_eviction :
  ∃ c, init [1; 2; 3]%float 2%float = Ok c ∧
       data c = [2; 3]%float ∧ cur c PM = 2.5%float ∧
       cur c PS = 0.75%float ∧
       ((2 - 2.5) * (2 - 2.5) + (3 - 2.5) * (3 - 2.5) = 0.5)%float.
Proof. eexists. split; [vm_compute; reflexivity|]. by vm_compute. Qed.

(** C2: a link with the same primary twice among its inputs fires twice
    for one sample. *)
Lemma duplicate_input_fires_twice :
  ∃ c l, (c ← init [] infinity;
          c ← subscribe c "twice" [Prim PS; Prim PS] var;
          push c [1%float]) = Ok c ∧
         links c !! 0 = Some l ∧ inputs l = [Prim PS; Prim PS] ∧
         length (MemoryFloat.history (prim c PS)) = 1 ∧
         length (MemoryFloat.history (output l)) = 2.
Proof. eexists _, _. split; [vm_compute; reflexivity|]. by vm_compute. Qed.

(** C3: with [window_size = 1], after pushing 1 and 2 the count is 1 and
    every history has two entries. *)
Lemma history_longer_than_n :
  ∃ c, init [1; 2]%float 1%float = Ok c ∧
       data c = [2%float] ∧ cur c Pn = 1%float ∧
       MemoryFloat.history (n c) = [1; 1]%float ∧
       ∀ p, MemoryFloat.len (prim c p) = 2.
Proof.
  eexists. split; [vm_compute; reflexivity|]. split_and!; try by vm_compute.
  by intros [].
Qed.

(** C4: pushing 1 and -1 with [harmonic_mean] subscribed.  The second
    sample brings [reciprocal_sum] to 0, and the commit raises. *)
Lemma harmonic_mean_raises :
  ∃ c c1, (c ← init [] infinity; c ← subscribe_harmonic_mean c;
           push c [1%float]) = Ok c ∧
          absorb c (-1)%float = Ok c1 ∧
          cur c1 Preciprocal_sum = 0%float ∧
          save c1 = Raise ZeroDivisionError ∧
          push c [(-1)%float] = Raise ZeroDivisionError.
Proof.
  eexists _, _. split; [vm_compute; reflexivity|].
  split; [vm_compute; reflexivity|]. by vm_compute.
Qed.

(** C5: a container with [window_size = 0] accepts [push] with one
    datapoint only. *)
Lemma push_disabled_raises :
  push (empty 0%float) [1%float] = Ok (empty 0%float) ∧
  push (empty 0%float) [1; 2]%float = Raise TypeError ∧
  push (empty 0%float) [] = Raise TypeError ∧
  init [1; 2]%float 0%float = Raise TypeError ∧
  init [1; 2]%float (-100)%float = Raise TypeError.
Proof. by vm_compute. Qed.


(** C7: with [window_size = 2.5], three samples are retained. *)
Lemma fractional_window_overfull :
  ∃ c, init [1; 2; 3]%float 2.5%float = Ok c ∧
       data c = [1; 2; 3]%float ∧ cur c Pn = 3%float ∧
       window_size c = 2.5%float ∧ fleb (cur c Pn) (window_size c) = false.
Proof. eexists. split; [vm_compute; reflexivity|]. by vm_compute. Qed.
End OnFloats.

(** * Evaluation in exact arithmetic *)

(** The rational number a constant expression over the reals denotes. *)
Ltac rational_of e :=
  lazymatch e with
  | (?a + ?b)%R =>
      let x := rational_of a in let y := rational_of b in
      constr:(QArith_base.Qplus x y)
  | (?a - ?b)%R =>
      let x := rational_of a in let y := rational_of b in
      constr:(QArith_base.Qminus x y)
  | (?a * ?b)%R =>
      let x := rational_of a in let y := rational_of b in
      constr:(QArith_base.Qmult x y)
  | (?a / ?b)%R =>
      let x := rational_of a in let y := rational_of b in
      constr:(QArith_base.Qdiv x y)
  | (- ?a)%R => let x := rational_of a in constr:(QArith_base.Qopp x)
  | IZR ?z => constr:(QArith_base.inject_Z z)
  end.

(** An integer or a fraction of two integers. *)
Ltac is_literal e :=
  lazymatch e with
  | IZR ?z => idtac
  | (IZR ?a / IZR (Zpos ?b))%R => idtac
  end.

(** The value of a constant expression, as a literal. *)
Ltac literal_of e :=
  let q := rational_of e in
  let q' := eval vm_compute in (Qreduction.Qred q) in
  lazymatch q' with
  | QArith_base.Qmake ?a 1%positive => constr:(IZR a)
  | QArith_base.Qmake ?a ?b => constr:((IZR a / IZR (Zpos b))%R)
  end.

(** Constant subterms are replaced by their value, a reduced fraction. *)
Ltac rnorm :=
  repeat match goal with
  | |- context [XFin ?e] =>
      tryif is_literal e then fail else
      (let v := literal_of e in replace e with v by (field; lra))
  | |- context [R_sqrt.sqrt ?e] =>
      tryif is_literal e then fail else
      (let v := literal_of e in replace e with v by (field; lra))
  | |- context [R_sqrt.sqrt 0] => rewrite sqrt_0
  end.

(** A comparison of constants is decided. *)
Ltac rdec :=
  match goal with
  | |- context [bool_decide ?P] =>
      first [ rewrite (bool_decide_eq_true_2 P) by lra
            | rewrite (bool_decide_eq_false_2 P) by lra ]
  end.

(** Evaluation, deciding the comparisons met on the way. *)
Ltac xcalc := repeat (cbn; rnorm; rdec); cbn; rnorm.

(** ** Concrete runs *)

Module Scenario.
Import Container Invariants Calls ExactInvariants Samples.
Import Shape Barrier Wf Session Guard Welford ExactRuns.

#[local] Arguments push_one : simpl never.
#[local] Arguments save : simpl never.

Lemma bind_ok_l {A B} (a : A) (f : A → result B) : Ok a ≫= f = f a.
Proof. reflexivity. Qed.

Lemma push_unfold `{PyNum F} (c : t F) xs :
  fleb (window_size c) zero = false →
  push c xs = for_each push_one (set_data c (data c ++ xs)) xs.
Proof. unfold push. by intros ->. Qed.

(** Every link of a concrete container is flat. *)
Ltac flat_all :=
  repeat (apply Forall_cons_2; [apply flat_test_correct; vm_compute; reflexivity|]);
  apply Forall_nil_2.

(** The values the functions of the links return in this commit cycle. *)
Ltac funcs_all :=
  repeat (apply List.Forall2_cons; [unfold prim_values; xcalc; reflexivity|]);
  apply List.Forall2_nil.

(** The goal is about [push c xs], and [Hwf : wf c]. *)
Ltac push_start Hwf :=
  rewrite push_unfold by (xcalc; reflexivity);
  lazymatch goal with
  | |- context [set_data ?c ?d] =>
      apply (wf_stats_only _ (set_data c d)) in Hwf; [|apply stats_only_set_data]
  end;
  unfold set_data in Hwf |- *; cbn in Hwf; cbn.

(** One sample: the statistics by [absorb], the commit by
    [push_one_commit]. *)
Ltac push_step Hwf :=
  lazymatch goal with
  | |- context [push_one ?c ?x] =>
    let Ha := fresh "Ha" in let Hp := fresh "Hp" in
    let Hfl := fresh "Hfl" in let Hvs := fresh "Hvs" in
    eassert (absorb c x = Ok _) as Ha
      by (unfold absorb, _pop; xcalc; reflexivity);
    assert (Forall flat (links c)) as Hfl by flat_all;
    lazymatch type of Ha with
    | _ = Ok ?c1 =>
      eassert (Forall2 (λ l v, func l (prim_values c1 l) = Ok v) (links c1) _)
        as Hvs by funcs_all
    end;
    pose proof (push_one_commit _ _ _ _ Hwf Hfl Ha Hvs) as Hp;
    unfold commit in Hp; cbn in Hp;
    rewrite Hp, bind_ok_l; cbn beta;
    apply (wf_push_one _ _ _ Hwf) in Hp; clear Ha Hfl Hvs Hwf; rename Hp into Hwf
  end.

(** The index a subscribed name stands for. *)
Ltac attr_index :=
  lazymatch goal with
  | |- context [@lookup string nat _ _ ?k ?m] =>
      let v := eval vm_compute in (@lookup string nat _ _ k m) in
      change (@lookup string nat _ _ k m) with v
  end.

Section scenario.
Context `{PyNum F}.

Lemma wf_subscribed (w : F) c : subscribed w = Ok c → wf c.
Proof.
  unfold subscribed. intros Hc.
  repeat (apply bind_Ok in Hc as (? & ?%wf_subscribe & Hc);
          [|first [apply wf_empty|done]]).
  apply wf_subscribe in Hc; done.
Qed.
End scenario.

(** C1: in exact arithmetic, with [window_size = 2], pushing 1, 2, 3 leaves
    2 and 3, whose squared deviations from their mean sum to 1/2, and [S]
    is 3/4. *)
Lemma S_after_eviction_exact :
  ∃ c, init [XFin 1; XFin 2; XFin 3] (XFin 2) = Ok c ∧
       data c = [XFin 2; XFin 3] ∧ cur c Pn = XFin 2 ∧
       cur c PS = XFin (3 / 4) ∧
       sum_sq_dev [2; 3]%R = (1 / 2)%R.
Proof.
  eexists. split.
  { unfold init, push, push_one, absorb, _pop, save. xcalc. reflexivity. }
  cbn. split_and!; [done..|]. unfold sum_sq_dev, mean. simpl. lra.
Qed.

(** C8, as amended.  The scenario of the specification, with
    [window_size = 3] and [var], [std], [pop_var], [pop_std] and [zscore]
    subscribed before any data.  In exact arithmetic, pushing 1, 1, 1 gives
    0, 0, 0, 0 and NaN, and pushing 0 then gives 1/3, sqrt(1/3), 2/9,
    sqrt(2/9) and -2 sqrt(1/3), with the history NaN, 0, 0, 1/3 of [var].
    In binary64 the values after 1, 1, 1 are the same; after 0, [pop_std]
    and [zscore] are the numbers that [sqrt(2/9)] and [-2 * sqrt(1/3)]
    evaluate to, and [var], [std] and [pop_var] are the binary64 numbers
    next above those of [1/3], [sqrt(1/3)] and [2/9]. *)
Theorem window_three_scenario :
  (∃ c0 c3 c4, subscribed (XFin 3) = Ok c0 ∧
     push c0 [XFin 1; XFin 1; XFin 1] = Ok c3 ∧
     push c3 [XFin 0] = Ok c4 ∧
     now c3 "var" = Ok (XFin 0) ∧ now c3 "std" = Ok (XFin 0) ∧
     now c3 "pop_var" = Ok (XFin 0) ∧ now c3 "pop_std" = Ok (XFin 0) ∧
     now c3 "zscore" = Ok XNaN ∧
     now c4 "var" = Ok (XFin (1 / 3)) ∧
     now c4 "std" = Ok (XFin (R_sqrt.sqrt (1 / 3))) ∧
     now c4 "pop_var" = Ok (XFin (2 / 9)) ∧
     now c4 "pop_std" = Ok (XFin (R_sqrt.sqrt (2 / 9))) ∧
     now c4 "zscore" = Ok (XFin (-2 * R_sqrt.sqrt (1 / 3))) ∧
     past c4 "var" = Ok [XNaN; XFin 0; XFin 0; XFin (1 / 3)]) ∧
  (∃ c0 c3 c4, subscribed 3%float = Ok c0 ∧
     push c0 [1; 1; 1]%float = Ok c3 ∧
     push c3 [0%float] = Ok c4 ∧
     now c3 "var" = Ok 0%float ∧ now c3 "std" = Ok 0%float ∧
     now c3 "pop_var" = Ok 0%float ∧ now c3 "pop_std" = Ok 0%float ∧
     now c3 "zscore" = Ok PrimFloat.nan ∧
     now c4 "var" = Ok (next_up (1 / 3))%float ∧
     now c4 "std" = Ok (next_up (PrimFloat.sqrt (1 / 3)))%float ∧
     now c4 "pop_var" = Ok (next_up (2 / 9))%float ∧
     now c4 "pop_std" = Ok (PrimFloat.sqrt (2 / 9))%float ∧
     now c4 "zscore" = Ok (-2 * PrimFloat.sqrt (1 / 3))%float ∧
     past c4 "var" = Ok [PrimFloat.nan; 0; 0; next_up (1 / 3)]%float).
Proof.
  split.
  - assert (0 < R_sqrt.sqrt (1 / 3))%R as Hs3 by (apply sqrt_lt_R0; lra).
    assert (0 < R_sqrt.sqrt (2 / 9))%R as Hs9 by (apply sqrt_lt_R0; lra).
    eassert (subscribed (XFin 3) = Ok _) as E0
      by (unfold subscribed; cbn; reflexivity).
    pose proof (wf_subscribed _ _ E0) as Hwf0.
    lazymatch type of E0 with _ = Ok ?c0 =>
      eassert (push c0 [XFin 1; XFin 1; XFin 1] = Ok _) as E3 end.
    { push_start Hwf0. push_step Hwf0. push_step Hwf0. push_step Hwf0.
      reflexivity. }
    pose proof (wf_push _ _ _ Hwf0 E3) as Hwf3.
    lazymatch type of E3 with _ = Ok ?c3 =>
      eassert (push c3 [XFin 0] = Ok _) as E4 end.
    { push_start Hwf3. push_step Hwf3. reflexivity. }
    eexists _, _, _. split_and!; [exact E0|exact E3|exact E4|..].
    all: unfold now, past, attr; cbn [attrs]; attr_index; cbn.
    all: try reflexivity.
    + do 2 f_equal. lra.
    + replace (0 / 3)%R with 0%R by lra. by rewrite sqrt_0.
    + do 2 f_equal. apply (Rmult_eq_reg_r (R_sqrt.sqrt (1 / 3))); [|lra].
      pose proof (sqrt_sqrt (1 / 3)) as Hsq.
      field_simplify; [|lra]. nra.
  - eexists _, _, _. split; [vm_compute; reflexivity|].
    split; [vm_compute; reflexivity|]. split; [vm_compute; reflexivity|].
    by vm_compute.
Qed.

(** C8: in binary64 the variance after pushing 1, 1, 1 and then 0 is not
    the number that [1 / 3] evaluates to. *)
Lemma var_not_a_third :
  (c ← subscribed 3%float; c ← push c [1; 1; 1]%float;
   c ← push c [0%float]; now c "var") = Ok 0x1.5555555555556p-2%float ∧
  (1 / 3 = 0x1.5555555555555p-2)%float ∧
  feqb 0x1.5555555555556p-2%float (1 / 3)%float = false.
Proof. by vm_compute. Qed.

(** ** The theorems with a premise, at a concrete run *)

(** A whole run at once, for short ones. *)
Ltac xeval := unfold init, push, push_one, absorb, _pop, save; xcalc.

(** The join barrier of [var], subscribed after one sample, over a push of
    two samples. *)
Lemma join_barrier_witness :
  ∃ c0 c l c',
    init [1%float] infinity = Ok c0 ∧
    run c0 [Subscribe "var" [Prim PS; Prim Pn] var] = Ok c ∧
    links c !! 0 = Some l ∧ push c [2; 3]%float = Ok c' ∧
    ∃ l' vs (ws : primary → list float),
      links c' !! 0 = Some l' ∧
      MemoryFloat.history (output l') = MemoryFloat.history (output l) ++ vs ∧
      length vs = 2 ∧
      (∀ p, MemoryFloat.history (prim c' p) = MemoryFloat.history (prim c p) ++ ws p ∧
            length (ws p) = 2) ∧
      (∀ i v, vs !! i = Some v → func l (row ws l i) = Ok v).
Proof.
  eexists _, _, _, _.
  split; [vm_compute; reflexivity|]. split; [vm_compute; reflexivity|].
  split; [vm_compute; reflexivity|]. split; [vm_compute; reflexivity|].
  eapply (join_barrier_fires_once_per_sample [1%float] infinity
            [Subscribe "var" [Prim PS; Prim Pn] var] _ _ 0 _ [2; 3]%float).
  - vm_compute; reflexivity.
  - vm_compute; reflexivity.
  - vm_compute; reflexivity.
  - apply flat_test_correct. vm_compute; reflexivity.
  - vm_compute; reflexivity.
  - vm_compute; reflexivity.
Defined.

(** The lengths of the histories with [window_size = 1], two initial
    samples, [var] subscribed and three more samples. *)
Lemma history_length_witness :
  ∃ c0 c,
    init [1; 2]%float 1%float = Ok c0 ∧
    run c0 [Subscribe "var" [Prim PS; Prim Pn] var; Push [3; 4; 5]%float] = Ok c ∧
    (∀ p, length (MemoryFloat.history (prim c p)) = 2 + 3) ∧
    (∀ k l, links c !! k = Some l → flat l →
       length (MemoryFloat.history (output l)) =
       pushed (since k [Subscribe "var" [Prim PS; Prim Pn] var; Push [3; 4; 5]%float])).
Proof.
  eexists _, _.
  split; [vm_compute; reflexivity|]. split; [vm_compute; reflexivity|].
  eapply (history_length_is_samples_pushed [1; 2]%float 1%float
            [Subscribe "var" [Prim PS; Prim Pn] var; Push [3; 4; 5]%float]).
  - vm_compute; reflexivity.
  - vm_compute; reflexivity.
  - vm_compute; reflexivity.
Defined.

(** The count after pushing 1, 2, 3 into a window of 2. *)
Lemma count_is_length_witness :
  ∃ c, init [XFin 1; XFin 2; XFin 3] (XFin 2) = Ok c ∧
       data c = [XFin 2; XFin 3] ∧
       cur c Pn = XFin (INR (length (data c))).
Proof.
  eassert (init [XFin 1; XFin 2; XFin 3] (XFin 2) = Ok _) as E
    by (xeval; reflexivity).
  eexists. split; [exact E|]. split; [reflexivity|].
  apply count_is_length.
  - eapply reachable_init; [|exact E]. repeat constructor.
  - eapply unshadowed_init, E.
Defined.

(** One sample in the window, after an eviction: 5 and 7 pushed into a
    window of 1. *)
Lemma one_sample_witness :
  ∃ c, init [XFin 5; XFin 7] (XFin 1) = Ok c ∧ data c = [XFin 7] ∧
       cur c Pn = XFin 1 ∧ cur c PS = XFin 0 ∧
       zscore [cur c PS; cur c Pn; cur c Pvalue; cur c PM] = Ok XNaN.
Proof.
  eassert (init [XFin 5; XFin 7] (XFin 1) = Ok _) as E
    by (xeval; reflexivity).
  eexists. split; [exact E|]. split; [reflexivity|]. split; [reflexivity|].
  apply one_sample_has_zero_S; [| |reflexivity].
  - eapply reachable_init; [|exact E]. repeat constructor.
  - eapply unshadowed_init, E.
Defined.


(** The count under a window of 5/2: three samples, fewer than 5/2 + 1. *)
Lemma fractional_window_witness :
  ∃ c, init [XFin 1; XFin 2; XFin 3; XFin 4] (XFin (5 / 2)) = Ok c ∧
       data c = [XFin 2; XFin 3; XFin 4] ∧ cur c Pn = XFin (INR 3) ∧
       (INR 3 < 5 / 2 + 1)%R.
Proof.
  eassert (init [XFin 1; XFin 2; XFin 3; XFin 4] (XFin (5 / 2)) = Ok _) as E
    by (xeval; reflexivity).
  assert (cur_n : ∀ a b : R, a = b → XFin a = XFin b) by (by intros ?? ->).
  eexists. split; [exact E|]. split; [reflexivity|].
  split; [apply cur_n; simpl; lra|].
  eapply (count_below_window_plus_one _ (5 / 2) 3).
  - eapply reachable_init; [|exact E]. repeat constructor.
  - eapply unshadowed_init, E.
  - reflexivity.
  - lra.
  - apply cur_n; simpl; lra.
Defined.

(** The count under a window of 2: two samples. *)
Lemma whole_window_witness :
  ∃ c, init [XFin 1; XFin 2; XFin 3] (XFin (INR 2)) = Ok c ∧
       data c = [XFin 2; XFin 3] ∧ cur c Pn = XFin (INR 2) ∧ 2 ≤ 2.
Proof.
  assert (INR 2 = 2)%R as E2 by (simpl; lra).
  assert (cur_n : ∀ a b : R, a = b → XFin a = XFin b) by (by intros ?? ->).
  eassert (init [XFin 1; XFin 2; XFin 3] (XFin (INR 2)) = Ok _) as E
    by (rewrite E2; xeval; rewrite <-E2; reflexivity).
  eexists. split; [exact E|]. split; [reflexivity|].
  split; [apply cur_n; simpl; lra|].
  eapply (count_within_whole_window _ 2 2).
  - eapply reachable_init; [|exact E]. repeat constructor.
  - eapply unshadowed_init, E.
  - reflexivity.
  - lia.
  - apply cur_n; simpl; lra.
Defined.
(** The statistics of 1, 2, 3 in a window of 3. *)
Lemma welford_witness :
  ∃ c, init (XFin <$> [1; 2; 3]%R) (XFin 3) = Ok c ∧
       data c = XFin <$> [1; 2; 3]%R ∧
       cur c Pn = XFin (INR (length [1; 2; 3]%R)) ∧
       cur c PM = XFin (mean [1; 2; 3]%R) ∧
       cur c PS = XFin (sum_sq_dev [1; 2; 3]%R).
Proof.
  apply welford_before_eviction; [done|].
  unfold fgeb. simpl. apply bool_decide_eq_false. lra.
Defined.
End Scenario.

(** ** Pushing in one call or in several *)

Module Composition.
Import Container Invariants Calls ExactInvariants.
Import Shape Primaries Barrier Wf Session Welford ExactRuns Scenario.

Section composition.
Context `{PyNum F}.
Implicit Types (c : t F) (l : link F) (m : MemoryFloat.t F) (k : nat) (r : ref).

(** *** Saving does not read the retained samples *)

Lemma get_set_data c d r : get (set_data c d) r = get c r.
Proof. by destruct r. Qed.

Lemma update_set_data c d r f :
  update (set_data c d) r f = set_data (update c r f) d.
Proof. destruct r as [p|k]; [by destruct c, p|done]. Qed.

Lemma set_links_set_data c d ls :
  set_links (set_data c d) ls = set_data (set_links c ls) d.
Proof. done. Qed.

Lemma read_set_data c d rs : read (set_data c d) rs = read c rs.
Proof. unfold read. by f_equal. Qed.

Lemma hook_set_data (save_output : ref → t F → result (t F)) k r c c' d :
  (∀ r x y, save_output r x = Ok y →
            save_output r (set_data x d) = Ok (set_data y d)) →
  hook save_output k r c = Ok c' →
  hook save_output k r (set_data c d) = Ok (set_data c' d).
Proof.
  intros Hsave. unfold hook. simpl links. destruct (links c !! k) as [l|]; [|done].
  rewrite set_links_set_data.
  destruct (decide _); [|by intros [= <-]].
  rewrite read_set_data.
  intros (args & Ha & (v & Hv & (c1 & Hc1 & [= <-])%bind_Ok)%bind_Ok)%bind_Ok.
  rewrite Ha. change (Ok args ≫= ?f) with (f args). cbn beta.
  rewrite Hv. change (Ok v ≫= ?f) with (f v). cbn beta zeta.
  rewrite update_set_data, (Hsave _ _ _ Hc1). done.
Qed.

Lemma for_each_set_data {B} (body : t F → B → result (t F)) d (bs : list B) :
  (∀ c b c', body c b = Ok c' → body (set_data c d) b = Ok (set_data c' d)) →
  ∀ c c', for_each body c bs = Ok c' →
          for_each body (set_data c d) bs = Ok (set_data c' d).
Proof.
  intros Hbody. induction bs as [|b bs IH]; intros c c' Hrun; simpl in *.
  - by injection Hrun as <-.
  - apply bind_Ok in Hrun as (c1 & Hc1 & Hrun).
    rewrite (Hbody _ _ _ Hc1). simpl. by apply IH.
Qed.

Lemma save_float_set_data depth d : ∀ r c c',
  save_float depth r c = Ok c' →
  save_float depth r (set_data c d) = Ok (set_data c' d).
Proof.
  induction depth as [|depth IH]; intros r c c'; [done|]. simpl.
  rewrite get_set_data. intros (m & -> & Hrun)%bind_Ok. simpl.
  rewrite update_set_data. revert Hrun. apply for_each_set_data.
  intros c1 k c2. apply hook_set_data. intros ???. apply IH.
Qed.

Lemma save_set_data c c' d :
  save c = Ok c' → save (set_data c d) = Ok (set_data c' d).
Proof.
  unfold save. apply for_each_set_data. intros c1 p c2.
  apply save_float_set_data.
Qed.

(** *** Samples waiting behind the retained ones are not looked at *)

Lemma absorb_app c x c1 ys :
  absorb c x = Ok c1 →
  absorb (set_data c (data c ++ ys)) x = Ok (set_data c1 (data c1 ++ ys)).
Proof.
  destruct_container c. unfold absorb, _pop. cbn. intros Hc.
  split_run Hc; injection Hc as <-;
    repeat (cbn; match goal with
            | E : ?b = _ |- context [if ?b then _ else _] => rewrite E
            | E : fdiv ?a ?b = _ |- context [fdiv ?a ?b] => rewrite E
            end); cbn; done.
Qed.

Lemma push_one_app c x c' ys :
  push_one c x = Ok c' →
  push_one (set_data c (data c ++ ys)) x = Ok (set_data c' (data c' ++ ys)).
Proof.
  unfold push_one. intros (c1 & Hc1 & Hsave)%bind_Ok.
  rewrite (absorb_app _ _ _ ys Hc1). change (Ok ?a ≫= ?f) with (f a). cbn beta.
  rewrite (shape_data _ _ (shape_save _ _ Hsave)).
  by apply save_set_data.
Qed.

Lemma push_loop_app xs ys : ∀ c c',
  for_each push_one c xs = Ok c' →
  for_each push_one (set_data c (data c ++ ys)) xs =
    Ok (set_data c' (data c' ++ ys)).
Proof.
  induction xs as [|x xs IH]; intros c c' Hrun; cbn [for_each] in *.
  - by injection Hrun as <-.
  - apply bind_Ok in Hrun as (c1 & Hc1 & Hrun).
    rewrite (push_one_app _ _ _ ys Hc1). change (Ok ?a ≫= ?f) with (f a).
    cbn beta. by apply IH.
Qed.

(** Pushing in two calls is pushing in one: when [push] with the
    datapoints [xs] and then [push] with [ys] return, one [push] with all
    of them returns the same container, with the same retained samples,
    values, histories and pools. *)
Theorem push_twice_is_push_once c xs ys c1 c2 :
  fleb (window_size c) zero = false →
  push c xs = Ok c1 → push c1 ys = Ok c2 → push c (xs ++ ys) = Ok c2.
Proof.
  intros Hw Hxs Hys.
  assert (fleb (window_size c1) zero = false) as Hw1
    by (by rewrite (window_size_push _ _ _ Hxs)).
  rewrite (push_unfold _ _ Hw1) in Hys. rewrite (push_unfold _ _ Hw) in Hxs.
  rewrite (push_unfold _ _ Hw), for_each_app.
  apply (push_loop_app xs ys) in Hxs.
  replace (set_data c (data c ++ xs ++ ys))
    with (set_data (set_data c (data c ++ xs))
            (data (set_data c (data c ++ xs)) ++ ys))
    by (unfold set_data; simpl; by rewrite <-app_assoc).
  rewrite Hxs. done.
Qed.
End composition.

(** Two samples and then a third, into a window of 2. *)
Lemma push_twice_witness :
  ∃ c1 c2, push (empty 2%float) [1; 2]%float = Ok c1 ∧
           push c1 [3%float] = Ok c2 ∧
           push (empty 2%float) ([1; 2] ++ [3])%float = Ok c2.
Proof.
  eexists _, _. split; [vm_compute; reflexivity|].
  split; [vm_compute; reflexivity|].
  eapply (push_twice_is_push_once (empty 2%float) [1; 2]%float [3%float]).
  - vm_compute; reflexivity.
  - vm_compute; reflexivity.
  - vm_compute; reflexivity.
Defined.
End Composition.

(** ** What the histories and the outputs hold *)

Module Histories.
Import Container Invariants Calls ExactInvariants.
Import Shape Primaries Barrier Wf Session Guard Welford ExactRuns Scenario.

Section histories.
Context `{PyNum F}.
Implicit Types (c : t F) (l : link F) (m : MemoryFloat.t F) (k : nat) (r : ref).

Lemma absorb_value c x c1 : absorb c x = Ok c1 → cur c1 Pvalue = x.
Proof.
  destruct_container c. unfold absorb, _pop. intros Hc.
  split_run Hc; by injection Hc as <-.
Qed.

Lemma push_one_value c x c' :
  push_one c x = Ok c' →
  cur c' Pvalue = x ∧
  MemoryFloat.history (value c') = MemoryFloat.history (value c) ++ [x].
Proof.
  intros Hp. pose proof (push_one_primary _ _ _ Pvalue Hp) as Hh.
  apply bind_Ok in Hp as (c1 & Hc1 & Hsave).
  assert (cur c' Pvalue = x) as Hx.
  { rewrite (shape_cur _ _ (shape_save _ _ Hsave)). by eapply absorb_value. }
  split; [done|]. simpl in Hh. by rewrite Hh, Hx.
Qed.

Lemma push_loop_value xs : ∀ c c',
  for_each push_one c xs = Ok c' →
  cur c' Pvalue = default (cur c Pvalue) (last xs) ∧
  MemoryFloat.history (value c') = MemoryFloat.history (value c) ++ xs.
Proof.
  induction xs as [|x xs IH]; intros c c' Hrun; cbn [for_each] in Hrun.
  - injection Hrun as <-. by rewrite app_nil_r.
  - apply bind_Ok in Hrun as (c1 & Hc1 & Hrun).
    destruct (push_one_value _ _ _ Hc1) as [Hx Hh].
    destruct (IH _ _ Hrun) as [Hx' Hh']. rewrite Hx', Hh', Hh, Hx, <-app_assoc.
    split; [|done]. rewrite (last_cons x xs). by destruct (last xs).
Qed.

Lemma push_value c xs c' :
  fleb (window_size c) zero = false → push c xs = Ok c' →
  cur c' Pvalue = default (cur c Pvalue) (last xs) ∧
  MemoryFloat.history (value c') = MemoryFloat.history (value c) ++ xs.
Proof.
  intros Hw. rewrite (push_unfold _ _ Hw). intros Hrun.
  by apply push_loop_value in Hrun.
Qed.

(** In a session of calls that returned, with no subscription under one
    of the container's own names: the history of [value] is the sequence
    of all the samples ever pushed, the evicted ones included, and
    [value] holds the last of them. *)
Theorem value_history_is_all_samples data w calls c0 c :
  fleb w zero = false → init data w = Ok c0 → run c0 calls = Ok c →
  unshadowed c →
  MemoryFloat.history (value c) = data ++ samples calls ∧
  cur c Pvalue = default nan (last (data ++ samples calls)).
Proof.
  intros Hw Hinit Hrun _.
  assert (window_size c0 = w ∧
          MemoryFloat.history (value c0) = data ∧
          cur c0 Pvalue = default nan (last data)) as (Hw0 & Hh0 & Hv0).
  { unfold init in Hinit. destruct data as [|x xs]; [by injection Hinit as <-|].
    pose proof (window_size_push _ _ _ Hinit) as Hws.
    apply push_value in Hinit as [-> ->]; done. }
  rewrite <-Hw0 in Hw. clear Hinit Hw0. revert c0 data Hw Hh0 Hv0 Hrun.
  induction calls as [|[xs|name rs f] calls IH]; intros c0 data Hw Hh0 Hv0 Hrun;
    cbn [run for_each] in Hrun.
  - injection Hrun as <-. simpl. by rewrite app_nil_r.
  - apply bind_Ok in Hrun as (c1 & Hc1 & Hrun). simpl in Hc1.
    pose proof (window_size_push _ _ _ Hc1) as Hws.
    destruct (push_value _ _ _ Hw Hc1) as [Hx Hh].
    simpl samples. rewrite app_assoc. apply (IH c1); [by rewrite Hws|by rewrite Hh, Hh0| |done].
    rewrite Hx, Hv0, (last_app data xs). by destruct (last xs).
  - apply bind_Ok in Hrun as (c1 & Hc1 & Hrun). simpl in Hc1.
    destruct (subscribe_spec _ _ _ _ _ Hc1) as (_ & Hws & Hp & _).
    destruct (Hp Pvalue) as [Hx Hh]. simpl in Hh.
    apply (IH c1); [by rewrite Hws|by rewrite Hh|by rewrite Hx|done].
Qed.

Lemma push_output_current c k l xs c' :
  wf c → fleb (window_size c) zero = false →
  links c !! k = Some l → flat l → xs ≠ [] → push c xs = Ok c' →
  ∃ l' v, links c' !! k = Some l' ∧ func l (prim_values c' l) = Ok v ∧
          MemoryFloat.value (output l') = v ∧
          last (MemoryFloat.history (output l')) = Some v.
Proof.
  intros Hwf0 Hw Hk Hflat Hne. rewrite (push_unfold _ _ Hw).
  destruct xs as [|x xs _] using rev_ind; [done|]. clear Hne.
  rewrite for_each_app. intros (c1 & Hc1 & Hlast)%bind_Ok.
  cbn [for_each] in Hlast. apply bind_Ok in Hlast as (c2 & Hc2 & [= ->]).
  assert (wf (set_data c (data c ++ xs ++ [x]))) as Hwf.
  { eapply wf_stats_only; [done|apply stats_only_set_data]. }
  destruct (push_loop xs _ c1 k l Hwf) as (l1 & _ & _ & Hk1 & Hin & Hf & _); [done..|].
  assert (wf c1) as Hwf1.
  { eapply (for_each_invariant wf); [|exact Hwf|exact Hc1].
    intros ??? _. apply wf_push_one. }
  assert (flat l1) as Hflat1 by (unfold flat; by rewrite Hin).
  destruct (push_one_flat _ _ _ _ _ Hwf1 Hk1 Hflat1 Hc2) as (v & Hv & Hk').
  exists (fire l1 v), v. split_and!; [done| |done|].
  - unfold prim_values in *. by rewrite <-Hf, <-Hin.
  - simpl. by rewrite last_snoc.
Qed.


(** The commit cycle of a container that the constructor, [subscribe] and
    [push] returned, with no subscription under one of the container's
    own names, nests the calls of [MemoryFloat.save] no deeper than there
    are subscriptions, whatever these are chained to, and no hook reaches
    an object that is not there: no function of a link raising, the loop
    of [Container.save] returns for every [depth] above the number of
    links. *)
Theorem commit_cycle_returns (sample : F → Prop) c (depth : nat) :
  reachable sample c → unshadowed c → total_funcs c →
  length (links c) < depth →
  ∃ c', for_each (λ c p, save_float depth (Prim p) c) c mem_floats = Ok c'.
Proof.
  intros Hr _ Ht Hd.
  pose proof (wf_structured _ (reachable_wf sample c Hr)) as Hst.
  pose proof (total_funcs_defined _ Ht) as Hdef.
  destruct (for_each_total (shape c)
              (λ c p, save_float depth (Prim p) c) mem_floats c)
    as (c' & Hc' & _); [|apply shape_refl|by exists c'].
  intros x p _ Hsx.
  destruct (save_float_total depth (Prim p) x) as [y Hy];
    [by eapply structured_shape|by eapply defined_shape|
     simpl; rewrite (shape_length _ _ Hsx); lia|].
  exists y. split; [done|]. eapply shape_trans; [done|].
  by eapply shape_save_float.
Qed.
End histories.

(** One initial sample, two more, a subscription and a fourth sample. *)
Lemma value_history_witness :
  ∃ c0 c, init [1%float] 2%float = Ok c0 ∧
    run c0 [Push [2; 3]%float; Subscribe "var" [Prim PS; Prim Pn] var;
            Push [4%float]] = Ok c ∧
    MemoryFloat.history (value c) =
      [1%float] ++ samples [Push [2; 3]%float;
                            Subscribe "var" [Prim PS; Prim Pn] var;
                            Push [4%float]] ∧
    cur c Pvalue =
      default nan (last ([1%float] ++
                         samples [Push [2; 3]%float;
                                  Subscribe "var" [Prim PS; Prim Pn] var;
                                  Push [4%float]])).
Proof.
  eexists _, _. split; [vm_compute; reflexivity|].
  split; [vm_compute; reflexivity|].
  eapply (value_history_is_all_samples [1%float] 2%float).
  - vm_compute; reflexivity.
  - vm_compute; reflexivity.
  - vm_compute; reflexivity.
  - unshadowed_now.
Defined.


(** A subscription to [M] and one to its output: a chain of two hooks. *)
Lemma commit_cycle_witness :
  ∃ c1 c, subscribe_mean (empty 3%float) = Ok c1 ∧
          subscribe c1 "again" [Derived 0] mean_func = Ok c ∧
          ∃ c', for_each (λ c p, save_float 3 (Prim p) c) c mem_floats = Ok c'.
Proof.
  eassert (subscribe_mean (empty 3%float) = Ok _) as E1
    by (vm_compute; reflexivity).
  lazymatch type of E1 with _ = Ok ?c1 =>
    eassert (subscribe c1 "again" [Derived 0] mean_func = Ok _) as E2
      by (vm_compute; reflexivity)
  end.
  eexists _, _. split; [exact E1|]. split; [exact E2|].
  eapply (commit_cycle_returns (λ _, True)).
  - eapply reachable_subscribe; [|exact E2].
    eapply reachable_subscribe; [|exact E1].
    eapply (reachable_init _ [] 3%float); [constructor|reflexivity].
  - unshadowed_now.
  - intros k l args Hk Hlen.
    destruct k as [|[|k]]; simpl in Hk; [| |done]; injection Hk as <-;
      destruct args as [|a [|??]]; try done; by eexists.
  - simpl. lia.
Defined.
End Histories.

(** ** MemoryFloat.transform *)

Module Transform.
Import MemoryFloat.

Section transform.
Context {F : Type}.
Implicit Types (m : t F) (floats : list (t F)) (func : list F → result F).

Lemma sequence_Ok {A B : Type} (g : A → result B) (l : list A) (bs : list B) :
  sequence (g <$> l) = Ok bs ↔ Forall2 (λ a b, g a = Ok b) l bs.
Proof.
  revert bs. induction l as [|a l IH]; intros bs.
  - split; [intros [= <-]; constructor|by intros ->%Forall2_nil_inv_l].
  - rewrite fmap_cons. cbn [sequence]. split.
    + intros (b & Hb & (bs' & Hbs & [= <-])%bind_Ok)%bind_Ok.
      constructor; [done|by apply IH].
    + intros (b & bs' & Hb & Hbs & ->)%Forall2_cons_inv_l.
      apply IH in Hbs. by rewrite Hb, Hbs.
Qed.

Lemma values_at_time_Ok floats time row :
  values_at_time floats time = Ok row ↔
  Forall2 (λ m x, history m !! time = Some x) floats row.
Proof.
  unfold values_at_time. rewrite sequence_Ok.
  split; intros Hrow; (eapply Forall2_impl; [exact Hrow|]); intros m x; simpl;
    destruct (history m !! time); naive_solver.
Qed.

Lemma transform_loop floats func times : ∀ h h',
  for_each (λ h time, values ← values_at_time floats time;
                      x ← func values; Ok (h ++ [x])) h times = Ok h' →
  ∃ vs, h' = h ++ vs ∧
        Forall2 (λ time x, ∃ row, values_at_time floats time = Ok row ∧
                                  func row = Ok x) times vs.
Proof.
  induction times as [|time times IH]; intros h h' Hrun; cbn [for_each] in Hrun.
  - injection Hrun as <-. exists []. by rewrite app_nil_r.
  - apply bind_Ok in Hrun as (h1 & (row & Hrow & (x & Hx & [= <-])%bind_Ok)%bind_Ok & Hrun).
    destruct (IH _ _ Hrun) as (vs & -> & Hvs). exists (x :: vs).
    rewrite <-app_assoc. split; [done|]. constructor; [by exists row|done].
Qed.

(** What [transform] returns: a MemoryFloat without hooks, whose value is
    [func] of the current values, and whose history is as long as the one
    of the first input and holds, at every index, [func] of the entries
    of the inputs' histories at that index. *)
Theorem transform_pointwise floats func m :
  transform floats func = Ok m →
  ∃ m0 rest, floats = m0 :: rest ∧
    func (value <$> floats) = Ok (value m) ∧ hooks m = [] ∧
    length (history m) = length (history m0) ∧
    ∀ i x, history m !! i = Some x →
      ∃ row, Forall2 (λ mi y, history mi !! i = Some y) floats row ∧
             func row = Ok x.
Proof.
  unfold transform. intros (v & Hv & (first & Hfirst & (h & Hh & [= <-])%bind_Ok)%bind_Ok)%bind_Ok.
  destruct floats as [|m0 rest]; [done|]. injection Hfirst as <-.
  exists m0, rest. apply transform_loop in Hh as (vs & -> & Hvs). simpl.
  split_and!; [done..| |].
  - apply Forall2_length in Hvs. by rewrite length_seq in Hvs.
  - intros i x Hi. destruct (Forall2_lookup_r _ _ _ _ _ Hvs Hi) as (time & Htime & row & Hrow & Hx).
    apply lookup_seq in Htime as [-> _]. exists row. split; [|done].
    by apply values_at_time_Ok.
Qed.

(** *** When [transform] returns *)

Lemma values_at_time_cases floats time :
  (∃ row, values_at_time floats time = Ok row ∧ length row = length floats) ∨
  values_at_time floats time = Raise IndexError.
Proof.
  unfold values_at_time. induction floats as [|m floats IH].
  - left. by exists [].
  - rewrite fmap_cons. cbn [sequence].
    destruct (history m !! time) as [x|]; [|by right]. simpl.
    destruct IH as [(row & -> & Hlen)| ->]; [|by right].
    left. exists (x :: row). simpl. by rewrite Hlen.
Qed.

Lemma values_at_time_short floats time mi :
  mi ∈ floats → history mi !! time = None →
  values_at_time floats time = Raise IndexError.
Proof.
  intros Hin Hnone. destruct (values_at_time_cases floats time)
    as [(row & Hrow & _)|]; [|done].
  apply values_at_time_Ok in Hrow.
  apply list_elem_of_lookup in Hin as [i Hi].
  destruct (Forall2_lookup_l _ _ _ _ _ Hrow Hi) as (x & _ & Hx). congruence.
Qed.

Lemma transform_loop_short floats func times time :
  (∀ args, length args = length floats → ∃ v, func args = Ok v) →
  time ∈ times → values_at_time floats time = Raise IndexError →
  ∀ h, for_each (λ h time, values ← values_at_time floats time;
                           x ← func values; Ok (h ++ [x])) h times
       = Raise IndexError.
Proof.
  intros Hfunc Hin Hbad. induction times as [|t times IH]; intros h.
  - by apply elem_of_nil in Hin.
  - cbn [for_each].
    destruct (values_at_time_cases floats t) as [(row & Hrow & Hlen)| ->]; [|done].
    rewrite Hrow. destruct (Hfunc row Hlen) as [x Hx]. simpl. rewrite Hx. simpl.
    apply IH. apply elem_of_cons in Hin as [->|]; [congruence|done].
Qed.

Lemma transform_loop_returns floats func times :
  (∀ args, length args = length floats → ∃ v, func args = Ok v) →
  (∀ time, time ∈ times → ∃ row, values_at_time floats time = Ok row) →
  ∀ h, ∃ h', for_each (λ h time, values ← values_at_time floats time;
                                 x ← func values; Ok (h ++ [x])) h times
             = Ok h'.
Proof.
  intros Hfunc. induction times as [|t times IH]; intros Hok h; [by eexists|].
  cbn [for_each]. destruct (Hok t) as [row Hrow]; [left|].
  destruct (values_at_time_cases floats t) as [(row' & Hrow' & Hlen)|]; [|congruence].
  rewrite Hrow'. destruct (Hfunc row' Hlen) as [x Hx]. simpl. rewrite Hx. simpl.
  apply IH. intros ??. apply Hok. by right.
Qed.

(** With a function that returns on as many arguments as there are inputs,
    [transform] returns when there is an input and no input has a shorter
    history than the first one, and raises [IndexError] otherwise. *)
Theorem transform_returns_or_index_error floats func :
  (∀ args, length args = length floats → ∃ v, func args = Ok v) →
  match floats with
  | [] => transform floats func = Raise IndexError
  | m0 :: _ =>
      if decide (Forall (λ mi, len m0 ≤ len mi) floats)
      then ∃ m, transform floats func = Ok m
      else transform floats func = Raise IndexError
  end.
Proof.
  intros Hfunc. unfold transform.
  destruct (Hfunc (value <$> floats)) as [v ->]; [by rewrite length_fmap|].
  simpl. destruct floats as [|m0 rest]; [done|]. simpl.
  destruct (decide _) as [Hlong|Hshort].
  - destruct (transform_loop_returns (m0 :: rest) func (seq 0 (len m0)) Hfunc)
      with (h := @nil F) as [h ->]; [|by eexists].
    intros time [_ Htime]%elem_of_seq.
    destruct (values_at_time_cases (m0 :: rest) time) as [(row & ? & _)|Hbad];
      [by exists row|].
    exfalso. cut (∃ row, values_at_time (m0 :: rest) time = Ok row);
      [intros [? ?]; congruence|].
    cut (∃ row, Forall2 (λ m x, history m !! time = Some x) (m0 :: rest) row).
    { intros [row Hrow]. exists row. by apply values_at_time_Ok. }
    clear Hbad Hfunc. induction Hlong as [|mi ms Hmi _ IH]; [by exists []|].
    destruct IH as [row Hrow].
    destruct (lookup_lt_is_Some_2 (history mi) time) as [x Hx];
      [unfold len in *; simpl in *; lia|].
    exists (x :: row). by constructor.
  - apply not_Forall_Exists, Exists_exists in Hshort as (mi & Hin & Hlt);
      [|apply _].
    simpl in Hlt. unfold len in *.
    rewrite (transform_loop_short (m0 :: rest) func _ (len mi)); [done..| |].
    + apply elem_of_seq. unfold len. lia.
    + apply (values_at_time_short _ _ mi); [done|].
      apply lookup_ge_None. done.
Qed.

(** *** The identity transform is [copy] *)

Lemma transform_loop_identity m k : ∀ a h,
  a + k ≤ len m →
  for_each (λ h time, values ← values_at_time [m] time;
                      x ← mean_func values; Ok (h ++ [x])) h (seq a k)
  = Ok (h ++ take k (drop a (history m))).
Proof.
  induction k as [|k IH]; intros a h Hlen.
  - simpl. by rewrite app_nil_r.
  - destruct (lookup_lt_is_Some_2 (history m) a) as [x Hx];
      [unfold len in *; lia|].
    assert (values_at_time [m] a = Ok [x]) as Hrow
      by (unfold values_at_time; simpl; by rewrite Hx).
    cbn [seq for_each]. rewrite Hrow. simpl. rewrite IH by lia.
    rewrite <-app_assoc. simpl. do 3 f_equal. by rewrite (drop_S _ _ _ Hx).
Qed.

(** [transform] with one input and the identity function, the function of
    [subscribe_mean], returns what [copy] returns. *)
Theorem transform_identity_is_copy m :
  transform [m] mean_func = Ok (copy m).
Proof.
  pose proof (transform_loop_identity m (len m) 0 [] (Nat.le_refl _)) as Hloop.
  unfold transform. cbn [fmap list_fmap mean_func mbind result_bind].
  rewrite Hloop. simpl. unfold copy, len. by rewrite drop_0, take_ge by lia.
Qed.
End transform.

(** [var] on the histories of an [S] and of an [n] with a longer
    history. *)
Lemma transform_pointwise_witness :
  ∃ m, transform [mk 2%float [0; 0.5; 2]%float [];
                  mk 3%float [1; 2; 3; 3]%float [7]] var = Ok m ∧
       history m = [PrimFloat.nan; 0.5; 1]%float ∧
       ∃ m0 rest,
         [mk 2%float [0; 0.5; 2]%float []; mk 3%float [1; 2; 3; 3]%float [7]]
           = m0 :: rest ∧
         var (value <$> [mk 2%float [0; 0.5; 2]%float [];
                         mk 3%float [1; 2; 3; 3]%float [7]]) = Ok (value m) ∧
         hooks m = [] ∧ length (history m) = length (history m0) ∧
         ∀ i x, history m !! i = Some x →
           ∃ row,
             Forall2 (λ mi y, history mi !! i = Some y)
               [mk 2%float [0; 0.5; 2]%float [];
                mk 3%float [1; 2; 3; 3]%float [7]] row ∧
             var row = Ok x.
Proof.
  eexists. split; [vm_compute; reflexivity|]. split; [reflexivity|].
  apply transform_pointwise. vm_compute; reflexivity.
Defined.

(** Two inputs, the second with the shorter history. *)
Lemma transform_index_error_witness :
  transform [mk 0%float [1; 2]%float []; mk 0%float [1%float] []]
    (λ _, Ok 0%float) = Raise IndexError.
Proof.
  pose proof (transform_returns_or_index_error
                [mk 0%float [1; 2]%float []; mk 0%float [1%float] []]
                (λ _, Ok 0%float)) as Ht.
  cbv beta iota in Ht. destruct (decide _) as [Hall|_].
  - apply Forall_cons_1 in Hall as [_ [Hle _]%Forall_cons_1].
    vm_compute in Hle. lia.
  - apply Ht. intros args _. by eexists.
Defined.
End Transform.

(** ** Subscribing before the data, or transforming after it *)

Module Afterwards.
Import Container Invariants Calls ExactInvariants.
Import Shape Primaries Barrier Wf Session Welford ExactRuns Scenario.
Import Transform Histories.

Section afterwards.
Context `{PyNum F}.
Implicit Types (c : t F) (l : link F) (m : MemoryFloat.t F) (k : nat) (r : ref).

Lemma transform_loop_rows (floats : list (MemoryFloat.t F))
    (func : list F → result F) n : ∀ a (vs h : list F),
  length vs = n →
  (∀ i x, vs !! i = Some x →
     ∃ row, MemoryFloat.values_at_time floats (a + i) = Ok row ∧ func row = Ok x) →
  for_each (λ h time, values ← MemoryFloat.values_at_time floats time;
                      x ← func values; Ok (h ++ [x])) h (seq a n)
  = Ok (h ++ vs).
Proof.
  induction n as [|n IH]; intros a vs h Hlen Hrows.
  - destruct vs; [|done]. simpl. by rewrite app_nil_r.
  - destruct vs as [|x vs]; [done|]. cbn [seq for_each].
    destruct (Hrows 0 x) as (row & Hrow & Hx); [done|].
    rewrite Nat.add_0_r in Hrow. rewrite Hrow. simpl. rewrite Hx. simpl.
    rewrite (IH (Datatypes.S a) vs); [by rewrite <-app_assoc|by injection Hlen|].
    intros i y Hi. destruct (Hrows (Datatypes.S i) y Hi) as (row' & Hrow' & Hy).
    exists row'. by replace (Datatypes.S a + i) with (a + Datatypes.S i) by lia.
Qed.

(** The MemoryFloats that primaries among the inputs of a link denote. *)
Lemma floats_values c (rs : list ref) floats :
  Forall2 (λ r m, get c r = Ok m) rs floats →
  (∀ r, r ∈ rs → ∃ p, r = Prim p) →
  MemoryFloat.value <$> floats =
    (λ r, match r with Prim p => cur c p | Derived _ => nan end) <$> rs.
Proof.
  induction 1 as [|r m rs floats Hm _ IH]; intros Hprim; [done|].
  rewrite !fmap_cons, IH by (intros ??; apply Hprim; by right). f_equal.
  destruct (Hprim r) as [p ->]; [by left|]. by injection Hm as <-.
Qed.

Lemma floats_rows c (rs : list ref) floats (ws : primary → list F) i :
  Forall2 (λ r m, get c r = Ok m) rs floats →
  (∀ r, r ∈ rs → ∃ p, r = Prim p) →
  (∀ p, MemoryFloat.history (prim c p) = ws p) →
  (∀ p, i < length (ws p)) →
  MemoryFloat.values_at_time floats i =
    Ok ((λ r, match r with
              | Prim p => default nan (ws p !! i)
              | Derived _ => nan
              end) <$> rs).
Proof.
  intros Hfl Hprim Hws Hi. apply values_at_time_Ok.
  induction Hfl as [|r m rs floats Hm _ IH]; [constructor|].
  rewrite fmap_cons. constructor; [|apply IH; intros ??; apply Hprim; by right].
  destruct (Hprim r) as [p ->]; [by left|]. injection Hm as <-.
  rewrite Hws. destruct (lookup_lt_is_Some_2 (ws p) i (Hi p)) as [x ->]. done.
Qed.

End afterwards.

End Afterwards.


(** * Indexing and slicing the retained samples *)

Module Items.
Import Container Invariants Calls ExactInvariants.
Import Shape Primaries Barrier Wf Session Welford ExactRuns Scenario.

Section items.
Context `{PyNum F}.
Implicit Types (c : t F) (d : list F).

Lemma omap_lookup_seq d (a n : nat) :
  a + n ≤ length d →
  omap (λ k, d !! Z.to_nat (Z.of_nat a + Z.of_nat k * 1)) (seq 0 n)
  = take n (drop a d).
Proof.
  revert a. induction n as [|n IH]; intros a Hlen; [done|].
  rewrite seq_S, omap_app. rewrite IH by lia. simpl.
  replace (Z.to_nat (Z.of_nat a + Z.of_nat n * 1)) with (a + n) by lia.
  destruct (lookup_lt_is_Some_2 d (a + n)) as [x Hx]; [lia|].
  rewrite Hx. simpl. rewrite (take_S_r _ _ x); [done|].
  by rewrite lookup_drop.
Qed.


Lemma omap_lookup_down d :
  omap (λ k, d !! Z.to_nat (Z.of_nat (length d) - 1 + Z.of_nat k * -1))
       (seq 0 (length d))
  = reverse d.
Proof.
  induction d as [|x d IH] using rev_ind; [done|].
  rewrite length_app, Nat.add_1_r, reverse_snoc. cbn [seq omap list_omap].
  replace (Z.to_nat (Z.of_nat (Datatypes.S (length d)) - 1 + Z.of_nat 0 * -1))
    with (length d) by lia.
  rewrite lookup_app_r, Nat.sub_diag by lia. simpl. f_equal.
  rewrite <-IH, <-fmap_S_seq. apply list_omap_ext, Forall2_fmap_l.
  apply Forall_Forall2_diag, Forall_forall. intros k Hk%elem_of_seq.
  unfold compose. cbn beta. rewrite lookup_app_l by lia. f_equal. lia.
Qed.

(** A slice with the default step: the samples from [lo] up to [hi]. *)
Lemma slice_segment d (start stop : option Z) (lo hi : nat) :
  from_option (clip (Z.of_nat (length d)) 1) 0%Z start = Z.of_nat lo →
  from_option (clip (Z.of_nat (length d)) 1) (Z.of_nat (length d)) stop
    = Z.of_nat hi →
  hi ≤ length d →
  slice d start stop None = Ok (take (hi - lo) (drop lo d)).
Proof.
  intros Hlo Hhi Hle. unfold slice. simpl.
  replace (match start with Some i => clip _ 1 i | None => 0%Z end)
    with (Z.of_nat lo) by (by destruct start).
  replace (match stop with Some i => clip _ 1 i | None => _ end)
    with (Z.of_nat hi) by (by destruct stop).
  f_equal. destruct (Z.ltb_spec (Z.of_nat lo) (Z.of_nat hi)).
  - rewrite Z.div_1_r.
    replace (Z.to_nat (Z.of_nat hi - Z.of_nat lo - 1 + 1)) with (hi - lo) by lia.
    apply omap_lookup_seq. lia.
  - simpl. replace (hi - lo) with 0 by lia. done.
Qed.


End items.
End Items.


(** * The window: which samples are retained *)

Module Window.
Import Container Invariants Calls ExactInvariants.
Import Shape Primaries Barrier Wf Session Guard Welford ExactRuns Scenario.

(** *** An eviction, then the sample *)

Section eviction.
Context `{PyNum F}.
Implicit Types (c : t F).

Lemma pop_value c c' :
  _pop c = Ok c' →
  prim c' Pvalue = prim c Pvalue ∧ window_size c' = window_size c.
Proof.
  destruct_container c. unfold _pop. cbn. intros Hc.
  split_run Hc; injection Hc as <-; cbn; done.
Qed.

(** When [push] evicts for a sample, the rest of the loop's body is what
    it is for the same sample without an eviction, from the state that
    [_pop] leaves. *)
Lemma absorb_evict c (x : F) c1 :
  fgeb (cur c Pn) (window_size c) = true → absorb c x = Ok c1 →
  ∃ c0, _pop (assign c Pvalue x) = Ok c0 ∧
        (fgeb (cur c0 Pn) (window_size c0) = false → absorb c0 x = Ok c1).
Proof.
  intros Hge Hc. unfold absorb in Hc. cbv zeta in Hc.
  assert (cur (assign c Pvalue x) Pn = cur c Pn) as E1 by (by rewrite cur_assign).
  rewrite E1, window_size_assign, Hge in Hc.
  apply bind_Ok in Hc as (c0 & Hc0 & Hc). exists c0. split; [done|].
  intros Hge0. unfold absorb. cbv zeta.
  assert (assign c0 Pvalue x = c0) as ->.
  { destruct (pop_value _ _ Hc0) as [Hv _].
    assert (MemoryFloat.assign (prim c0 Pvalue) x = prim c0 Pvalue) as Hid.
    { rewrite Hv. unfold assign, update. by rewrite prim_set_prim. }
    unfold assign, update. rewrite Hid. by destruct c0. }
  by rewrite Hge0.
Qed.
End eviction.

Implicit Types (c : t xreal).

(** *** One sample, with and without an eviction *)

Lemma pop_count c c' (out : xreal) rest (k : R) :
  _pop c = Ok c' → data c = out :: rest → cur c Pn = XFin k →
  data c' = rest ∧ cur c' Pn = XFin (k - 1).
Proof.
  destruct_container c. unfold _pop. cbn. intros Hc -> ->.
  split_run Hc; injection Hc as <-; cbn; done.
Qed.

Lemma absorb_keep c (x : xreal) c1 (k : R) :
  fgeb (cur c Pn) (window_size c) = false → cur c Pn = XFin k →
  absorb c x = Ok c1 →
  data c1 = data c ∧ cur c1 Pn = XFin (k + 1) ∧ cur c1 Pvalue = x ∧
  window_size c1 = window_size c.
Proof.
  destruct_container c. unfold absorb, fgeb. cbn. intros Hge -> Hc.
  rewrite Hge in Hc. split_run Hc; injection Hc as <-; cbn; done.
Qed.

Lemma fgeb_true_window (w : xreal) (k : R) :
  fleb w zero = false → fgeb (XFin k) w = true →
  ∃ wr, w = XFin wr ∧ (0 < wr <= k)%R.
Proof.
  unfold fgeb. destruct w as [|[]|wr]; simpl; try done.
  intros Hw%bool_decide_eq_false Hk%bool_decide_eq_true. exists wr.
  split; [done|lra].
Qed.

Lemma fgeb_false_window (w : xreal) (k : R) :
  fgeb (XFin k) w = false → ∀ wr, w = XFin wr → (k < wr)%R.
Proof.
  unfold fgeb. intros Hk wr ->. simpl in Hk.
  apply bool_decide_eq_false in Hk. lra.
Qed.

Lemma kept_absorb c (x : xreal) cnt pending c1 :
  fleb (window_size c) zero = false → kept c cnt (x :: pending) →
  absorb c x = Ok c1 →
  kept c1 ((if fgeb (cur c Pn) (window_size c) then drop 1 cnt else cnt) ++ [x])
       pending ∧
  window_size c1 = window_size c.
Proof.
  intros Hw (Hd & Hn & Hlast & Hb) Hc.
  destruct (fgeb (cur c Pn) (window_size c)) eqn:Hge.
  - rewrite Hn in Hge.
    destruct (fgeb_true_window _ _ Hw Hge) as (wr & Hwr & Hpos & Hle).
    pose proof (fgeb_zero_window _ _ Hw Hge) as Hlen.
    destruct cnt as [|out cnt]; [simpl in Hlen; lia|]. clear Hlen.
    change (drop 1 (out :: cnt)) with cnt.
    rewrite <-Hn in Hge.
    destruct (absorb_evict _ _ _ Hge Hc) as (c0 & Hc0 & Hrest).
    destruct (pop_value _ _ Hc0) as [_ Hw0]. rewrite window_size_assign in Hw0.
    destruct (pop_count _ _ out (cnt ++ x :: pending)
                (INR (length (out :: cnt))) Hc0) as [Hd0 Hn0].
    { by rewrite data_assign, Hd. }
    { by rewrite cur_assign. }
    specialize (Hb wr Hwr Hpos).
    assert (fgeb (cur c0 Pn) (window_size c0) = false) as Hge0.
    { rewrite Hn0, Hw0, Hwr. unfold fgeb.
      change (fleb (XFin wr) (XFin (INR (length (out :: cnt)) - 1)))
        with (bool_decide (wr <= INR (length (out :: cnt)) - 1)%R).
      apply bool_decide_eq_false. lra. }
    destruct (absorb_keep _ _ _ _ Hge0 Hn0 (Hrest Hge0))
      as (Hd1 & Hn1 & Hv1 & Hw1).
    split; [|congruence]. split_and!.
    + rewrite Hd1, Hd0. simpl. by rewrite <-app_assoc.
    + rewrite Hn1. f_equal. rewrite length_app, Nat.add_1_r.
      rewrite length_cons, !S_INR. lra.
    + intros _. by rewrite last_snoc, Hv1.
    + intros wr' Hwr' _. rewrite Hw1, Hw0, Hwr in Hwr'. injection Hwr' as <-.
      rewrite length_app, Nat.add_1_r. by rewrite length_cons in Hb.
  - destruct (absorb_keep _ _ _ _ Hge Hn Hc) as (Hd1 & Hn1 & Hv1 & Hw1).
    split; [|done]. split_and!.
    + rewrite Hd1, Hd. by rewrite <-app_assoc.
    + rewrite Hn1, length_app, Nat.add_1_r, S_INR. done.
    + intros _. by rewrite last_snoc, Hv1.
    + intros wr Hwr _. rewrite Hw1 in Hwr. rewrite Hn in Hge.
      pose proof (fgeb_false_window _ _ Hge wr Hwr).
      rewrite length_app, Nat.add_1_r, S_INR. lra.
Qed.

Lemma kept_push_one c (x : xreal) cnt pending c' :
  fleb (window_size c) zero = false → kept c cnt (x :: pending) →
  push_one c x = Ok c' →
  kept c' ((if fgeb (cur c Pn) (window_size c) then drop 1 cnt else cnt) ++ [x])
       pending ∧
  window_size c' = window_size c.
Proof.
  intros Hw Hk (c1 & Hc1 & Hsave)%bind_Ok.
  destruct (kept_absorb _ _ _ _ _ Hw Hk Hc1) as [(Hd & Hn & Hl & Hb) Hw1].
  pose proof (shape_window_size _ _ (shape_save _ _ Hsave)) as Hws.
  split; [|congruence]. unfold kept.
  rewrite !(cur_save _ _ _ Hsave), (data_save _ _ Hsave), Hws. done.
Qed.

Lemma kept_loop xs : ∀ c cnt c',
  fleb (window_size c) zero = false → kept c cnt xs →
  for_each push_one c xs = Ok c' →
  ∃ cnt', kept c' cnt' [] ∧ (xs ≠ [] → cnt' ≠ []).
Proof.
  induction xs as [|x xs IH]; intros c cnt c' Hw Hk Hrun;
    cbn [for_each] in Hrun.
  - injection Hrun as <-. by exists cnt.
  - apply bind_Ok in Hrun as (c1 & Hc1 & Hrun).
    destruct (kept_push_one _ _ _ _ _ Hw Hk Hc1) as [Hk1 Hw1].
    assert (fleb (window_size c1) zero = false) as Hw1' by (by rewrite Hw1).
    destruct (IH _ _ _ Hw1' Hk1 Hrun) as (cnt' & Hk' & Hne).
    exists cnt'. split; [done|]. intros _.
    destruct xs as [|y xs]; [|by apply Hne].
    cbn [for_each] in Hrun. injection Hrun as <-.
    destruct Hk' as (Hd' & _). destruct Hk1 as (Hd1 & _).
    rewrite Hd1, !app_nil_r in Hd'. subst cnt'.
    intros Heq. symmetry in Heq. by apply app_cons_not_nil in Heq.
Qed.

Lemma kept_push c cnt xs c' :
  kept c cnt [] → push c xs = Ok c' →
  ∃ cnt', kept c' cnt' [].
Proof.
  intros Hk. unfold push. destruct (fleb _ _) eqn:Hw.
  - destruct xs as [|? [|??]]; try done. intros [= <-]. by exists cnt.
  - intros Hrun.
    destruct (kept_loop xs (set_data c (data c ++ xs)) cnt c')
      as (cnt' & Hk' & _); [done| |done|by exists cnt'].
    destruct Hk as (Hd & Hn & Hl & Hb). split_and!; [|done..].
    simpl. by rewrite Hd, app_nil_r.
Qed.

Lemma kept_reachable c : reachable any_sample c → ∃ cnt, kept c cnt [].
Proof.
  induction 1 as [data w c _ Hinit|c v rs f c' _ IH Hs|c xs c' _ IH _ Hp].
  - assert (kept (empty w) [] []) as Hk.
    { split_and!; [done..|]. simpl. intros ? _ ?. lra. }
    unfold init in Hinit. destruct data as [|x xs].
    + injection Hinit as <-. by exists [].
    + by eapply kept_push.
  - destruct IH as (cnt & Hd & Hn & Hl & Hb). exists cnt.
    destruct (subscribe_spec _ _ _ _ _ Hs) as (Hd' & Hw' & Hp & _).
    unfold kept. rewrite Hd', Hw', !(proj1 (Hp _)). done.
  - destruct IH as [cnt Hk]. by eapply kept_push.
Qed.

Lemma index_last (d : list xreal) x :
  last d = Some x → index d (-1) = Ok x.
Proof.
  intros Hl. unfold index.
  assert (d ≠ []) as Hne by (by intros ->).
  assert (0 < length d) as Hlen by (destruct d; [done|simpl; lia]).
  rewrite last_lookup in Hl.
  change (-1 <? 0)%Z with true. cbv iota zeta.
  destruct (Z.ltb_spec (-1 + Z.of_nat (length d)) 0); [lia|].
  destruct (Z.leb_spec (Z.of_nat (length d)) (-1 + Z.of_nat (length d))); [lia|].
  cbn [orb].
  replace (Z.to_nat (-1 + Z.of_nat (length d))) with (pred (length d)) by lia.
  by rewrite Hl.
Qed.

(** In every state that the constructor, [subscribe] and [push] return,
    in a session in which every call returned and no subscription was
    given one of the container's own names, the last retained sample is
    [value], which is also what the index [-1] gives. *)
Theorem last_sample_is_value c :
  reachable any_sample c → unshadowed c → data c ≠ [] →
  last (data c) = Some (cur c Pvalue) ∧
  getitem c (Index (-1)) = Ok (inl (cur c Pvalue)).
Proof.
  intros (cnt & Hd & _ & Hl & _)%kept_reachable _ Hne.
  rewrite app_nil_r in Hd. rewrite Hd in *. specialize (Hl Hne).
  split; [done|]. unfold getitem. rewrite Hd. by rewrite (index_last _ _ Hl).
Qed.

(** *** A window of a whole number of samples *)

Lemma whole_window_enabled (W : nat) :
  1 ≤ W → fleb (XFin (INR W)) zero = false.
Proof.
  intros HW%le_INR. simpl in HW. apply bool_decide_eq_false. lra.
Qed.

Lemma whole_window_evicts (W m : nat) :
  fgeb (XFin (INR m)) (XFin (INR W)) = bool_decide (W ≤ m).
Proof.
  unfold fgeb. simpl. apply bool_decide_ext. split; [apply INR_le|apply le_INR].
Qed.

Lemma kept_loop_whole (W : nat) xs : ∀ c cnt c',
  window_size c = XFin (INR W) → 1 ≤ W → length cnt ≤ W → kept c cnt xs →
  for_each push_one c xs = Ok c' →
  data c' = drop (length cnt + length xs - W) (cnt ++ xs) ∧
  MemoryFloat.history (n c') =
    MemoryFloat.history (n c) ++
    ((λ i, XFin (INR ((length cnt + Datatypes.S i) `min` W)))
       <$> seq 0 (length xs)).
Proof.
  induction xs as [|x xs IH]; intros c cnt c' Hw HW Hlen Hk Hrun;
    cbn [for_each] in Hrun.
  - injection Hrun as <-. destruct Hk as (-> & _).
    rewrite !app_nil_r. simpl. replace (length cnt + 0 - W) with 0 by lia. done.
  - apply bind_Ok in Hrun as (c1 & Hc1 & Hrun).
    assert (fleb (window_size c) zero = false) as Hen
      by (rewrite Hw; by apply whole_window_enabled).
    destruct (kept_push_one _ _ _ _ _ Hen Hk Hc1) as [Hk1 Hw1].
    pose proof (push_one_primary _ _ _ Pn Hc1) as Hh1. simpl in Hh1.
    destruct Hk as (_ & Hn & _).
    rewrite Hn, Hw, whole_window_evicts in Hk1.
    destruct Hk1 as (Hd1 & Hn1 & Hrest). rewrite Hn1 in Hh1.
    set (cnt1 := (if bool_decide (W ≤ length cnt) then drop 1 cnt else cnt) ++ [x])
      in *.
    assert (length cnt1 = (length cnt + 1) `min` W) as Hlen1.
    { unfold cnt1. rewrite length_app. simpl. case_bool_decide.
      - rewrite length_drop. lia.
      - lia. }
    destruct (IH c1 cnt1 c') as [Hd' Hh']; [congruence|done|lia|done|done|].
    rewrite Hd', Hh', Hh1, <-app_assoc. split.
    + unfold cnt1. case_bool_decide.
      * destruct cnt as [|out cnt0]; [simpl in *; lia|].
        change (drop 1 (out :: cnt0)) with cnt0. rewrite <-app_assoc.
        rewrite length_app. rewrite length_cons in *. simpl.
        replace (length cnt0 + 1 + length xs - W) with (length xs) by lia.
        replace (Datatypes.S (length cnt0 + Datatypes.S (length xs)) - W)
          with (Datatypes.S (length xs)) by lia.
        done.
      * rewrite <-app_assoc, length_app. simpl. f_equal. lia.
    + f_equal. rewrite length_cons. cbn [seq fmap list_fmap app]. f_equal.
      * do 2 f_equal. lia.
      * rewrite <-fmap_S_seq, <-list_fmap_compose. apply list_fmap_ext.
        intros i j _. simpl. do 2 f_equal. lia.
Qed.

(** With a window size that is a whole number [W] of at least 1, in a
    session in which every call returned and no subscription was given
    one of the container's own names: a push that returns leaves the
    last [W] of the samples that were retained or pushed (all of them
    when there are fewer), and the entries it appends to the history of
    [n] count up to [W] and stay there. *)
Theorem window_keeps_latest c (W : nat) xs c' :
  reachable any_sample c → unshadowed c →
  window_size c = XFin (INR W) → 1 ≤ W →
  push c xs = Ok c' →
  data c' = drop (length (data c) + length xs - W) (data c ++ xs) ∧
  MemoryFloat.history (n c') =
    MemoryFloat.history (n c) ++
    ((λ i, XFin (INR ((length (data c) + Datatypes.S i) `min` W)))
       <$> seq 0 (length xs)).
Proof.
  intros (cnt & Hd & Hn & Hl & Hb)%kept_reachable _ Hw HW.
  rewrite app_nil_r in Hd. subst cnt.
  rewrite (push_unfold c) by (rewrite Hw; by apply whole_window_enabled).
  intros Hrun.
  apply (kept_loop_whole W xs _ (data c)) in Hrun; [done|done|done| |].
  - specialize (Hb (INR W) Hw). rewrite <-S_INR in Hb. apply INR_lt in Hb; [lia|].
    apply (lt_INR 0). lia.
  - split_and!; [done..|]. done.
Qed.

(** ** The theorems with a premise, at a concrete run *)

(** The last of 1, 2, 3 in a window of 2. *)
Lemma last_sample_witness :
  ∃ c, init [XFin 1; XFin 2; XFin 3] (XFin 2) = Ok c ∧
       data c = [XFin 2; XFin 3] ∧
       last (data c) = Some (cur c Pvalue) ∧
       getitem c (Index (-1)) = Ok (inl (cur c Pvalue)).
Proof.
  eassert (init [XFin 1; XFin 2; XFin 3] (XFin 2) = Ok _) as E
    by (xeval; reflexivity).
  eexists. split; [exact E|]. split; [reflexivity|].
  apply last_sample_is_value; [| |done].
  - eapply reachable_init; [|exact E]. repeat constructor.
  - eapply unshadowed_init, E.
Defined.

(** Pushing 3 and 4 after 1 and 2 into a window of 2. *)
Lemma window_keeps_latest_witness :
  ∃ c c', init [XFin 1; XFin 2] (XFin (INR 2)) = Ok c ∧
          push c [XFin 3; XFin 4] = Ok c' ∧
          data c = [XFin 1; XFin 2] ∧
          data c' = drop (length (data c) + 2 - 2) (data c ++ [XFin 3; XFin 4]) ∧
          MemoryFloat.history (n c') =
            MemoryFloat.history (n c) ++
            ((λ i, XFin (INR ((length (data c) + Datatypes.S i) `min` 2)))
               <$> seq 0 2).
Proof.
  assert (INR 2 = 2)%R as E2 by (simpl; lra).
  eassert (init [XFin 1; XFin 2] (XFin (INR 2)) = Ok _) as E
    by (rewrite E2; xeval; rewrite <-E2; reflexivity).
  lazymatch type of E with _ = Ok ?c0 =>
    eassert (push c0 [XFin 3; XFin 4] = Ok _) as E' end.
  { rewrite E2. xeval. rewrite <-E2. reflexivity. }
  eexists _, _. split; [exact E|]. split; [exact E'|]. split; [reflexivity|].
  eapply (window_keeps_latest _ 2 [XFin 3; XFin 4]).
  - eapply reachable_init; [|exact E]. repeat constructor.
  - eapply unshadowed_init, E.
  - reflexivity.
  - lia.
  - exact E'.
Defined.
End Window.


(** * The mean, the spread and the reciprocals under eviction *)

Module Sums.
Import Container Invariants Calls ExactInvariants.
Import Shape Primaries Barrier Wf Session Guard Welford ExactRuns Scenario.
Import Window.
Implicit Types (c : t xreal).

(** *** What [_pop] and the body of [push] do to the statistics *)

Lemma pop_mean c c' (r k m s : R) rest :
  _pop c = Ok c' → data c = XFin r :: rest → cur c Pn = XFin k →
  (k - 1 ≠ 0)%R → cur c PM = XFin m → cur c PS = XFin s →
  cur c' PM = XFin (m - (r - m) / (k - 1)) ∧
  cur c' PS = XFin (s - (r - m) * (r - m)).
Proof.
  destruct_container c. unfold _pop. cbn. intros Hc -> -> Hk -> ->.
  cbn in Hc. rewrite (bool_decide_eq_false_2 (k + -(1) = 0)%R) in Hc by lra.
  split_run Hc; injection Hc as <-; cbn; (split; f_equal; lra).
Qed.

Lemma pop_reciprocal c c' (r k q : R) rest :
  _pop c = Ok c' → data c = XFin r :: rest → cur c Pn = XFin k →
  (k - 1 ≠ 0)%R → r ≠ 0%R → cur c Preciprocal_sum = XFin q →
  cur c' Preciprocal_sum = XFin (q - 1 / r).
Proof.
  destruct_container c. unfold _pop. cbn. intros Hc -> -> Hk Hr ->.
  cbn in Hc. rewrite (bool_decide_eq_false_2 (k + -(1) = 0)%R) in Hc by lra.
  rewrite (bool_decide_eq_false_2 (r = 0)%R) in Hc by done.
  split_run Hc; injection Hc as <-; cbn; f_equal; lra.
Qed.

Lemma absorb_reciprocal_one c (x : R) c1 :
  fgeb (cur c Pn) (window_size c) = false → cur c Pn = XFin 0 → x ≠ 0%R →
  absorb c (XFin x) = Ok c1 → cur c1 Preciprocal_sum = XFin (1 / x).
Proof.
  destruct_container c. unfold absorb, fgeb. cbn. intros Hge -> Hx Hc.
  rewrite Hge in Hc. cbn in Hc.
  rewrite (bool_decide_eq_true_2 (0 + 1 = 1)%R) in Hc by lra.
  rewrite (bool_decide_eq_false_2 (x = 0)%R) in Hc by done.
  split_run Hc; injection Hc as <-; cbn; done.
Qed.

Lemma absorb_reciprocal_update c (x k q : R) c1 :
  (0 < k)%R → fgeb (cur c Pn) (window_size c) = false →
  cur c Pn = XFin k → cur c Preciprocal_sum = XFin q → x ≠ 0%R →
  absorb c (XFin x) = Ok c1 → cur c1 Preciprocal_sum = XFin (q + 1 / x).
Proof.
  destruct_container c. unfold absorb, fgeb. cbn. intros Hk Hge -> -> Hx Hc.
  rewrite Hge in Hc. cbn in Hc.
  rewrite (bool_decide_eq_false_2 (k + 1 = 1)%R) in Hc by lra.
  rewrite (bool_decide_eq_false_2 (k + 1 = 0)%R) in Hc by lra.
  rewrite (bool_decide_eq_false_2 (x = 0)%R) in Hc by done.
  split_run Hc; injection Hc as <-; cbn; done.
Qed.

(** *** One eviction; afterwards there is room for the sample *)

Lemma kept_evict c (x : xreal) cnt pending c0 :
  fleb (window_size c) zero = false → kept c cnt (x :: pending) →
  fgeb (cur c Pn) (window_size c) = true →
  _pop (assign c Pvalue x) = Ok c0 →
  ∃ out cnt0, cnt = out :: cnt0 ∧ cur c0 Pn = XFin (INR (length cnt0)) ∧
              fgeb (cur c0 Pn) (window_size c0) = false.
Proof.
  intros Hw (Hd & Hn & Hlast & Hb) Hge Hc0.
  rewrite Hn in Hge.
  destruct (fgeb_true_window _ _ Hw Hge) as (wr & Hwr & Hpos & Hle).
  pose proof (fgeb_zero_window _ _ Hw Hge) as Hlen.
  destruct cnt as [|out cnt]; [simpl in Hlen; lia|]. clear Hlen.
  destruct (pop_value _ _ Hc0) as [_ Hw0]. rewrite window_size_assign in Hw0.
  destruct (pop_count _ _ out (cnt ++ x :: pending)
              (INR (length (out :: cnt))) Hc0) as [Hd0 Hn0].
  { by rewrite data_assign, Hd. }
  { by rewrite cur_assign. }
  specialize (Hb wr Hwr Hpos).
  exists out, cnt. split; [done|].
  assert (cur c0 Pn = XFin (INR (length cnt))) as Hn0'.
  { rewrite Hn0. f_equal. rewrite length_cons, S_INR. lra. }
  split; [done|]. rewrite Hn0', Hw0, Hwr. unfold fgeb.
  change (fleb (XFin wr) (XFin (INR (length cnt))))
    with (bool_decide (wr <= INR (length cnt))%R).
  apply bool_decide_eq_false. rewrite length_cons, S_INR in Hb. lra.
Qed.

(** *** A statistic that each step keeps up with the counted samples *)

Section tracking.
Variable ok : R → Prop.
Variable tracks : t xreal → list R → Prop.
Hypothesis tracks_cur : ∀ c c' cnt,
  (∀ p, p ≠ Pvalue → cur c' p = cur c p) → tracks c cnt → tracks c' cnt.
Hypothesis tracks_nil : ∀ c, tracks c [].
Hypothesis tracks_room : ∀ c x cnt c1,
  ok x → Forall ok cnt →
  fgeb (cur c Pn) (window_size c) = false →
  cur c Pn = XFin (INR (length cnt)) → tracks c cnt →
  absorb c (XFin x) = Ok c1 → tracks c1 (cnt ++ [x]).
Hypothesis tracks_pop : ∀ c out cnt rest c0,
  ok out → cnt ≠ [] → data c = XFin out :: rest →
  cur c Pn = XFin (INR (length (out :: cnt))) → tracks c (out :: cnt) →
  _pop c = Ok c0 → tracks c0 cnt.

Lemma fmap_evicted (b : bool) (cnt : list R) (x : R) :
  (if b then drop 1 (XFin <$> cnt) else XFin <$> cnt) ++ [XFin x]
  = XFin <$> ((if b then drop 1 cnt else cnt) ++ [x]).
Proof. destruct b; by rewrite fmap_app, ?fmap_drop. Qed.

Lemma tracks_absorb c (x : R) (cnt : list R) pending c1 :
  fleb (window_size c) zero = false → ok x → Forall ok cnt →
  kept c (XFin <$> cnt) (XFin x :: pending) → tracks c cnt →
  absorb c (XFin x) = Ok c1 →
  tracks c1 ((if fgeb (cur c Pn) (window_size c) then drop 1 cnt else cnt)
             ++ [x]) ∧
  Forall ok ((if fgeb (cur c Pn) (window_size c) then drop 1 cnt else cnt)
             ++ [x]).
Proof.
  intros Hw Hx Hcnt Hk Ht Hc.
  destruct (fgeb (cur c Pn) (window_size c)) eqn:Hge.
  - destruct (absorb_evict _ _ _ Hge Hc) as (c0 & Hc0 & Hrest).
    destruct (kept_evict _ _ _ _ _ Hw Hk Hge Hc0) as (o & cnt0 & E & Hn0 & Hge0).
    destruct cnt as [|out cnt]; [done|]. simpl in E. injection E as _ E.
    rewrite <-E, length_fmap in Hn0. clear o cnt0 E.
    change (drop 1 (out :: cnt)) with cnt.
    apply Forall_cons in Hcnt as [Hout Hcnt].
    split; [|by apply Forall_app_2; [|apply Forall_singleton]].
    apply (tracks_room c0); [done..| |by apply Hrest].
    destruct (decide (cnt = [])) as [->|Hne]; [apply tracks_nil|].
    destruct Hk as (Hd & Hn & _).
    apply (tracks_pop (assign c Pvalue (XFin x)) out cnt
             ((XFin <$> cnt) ++ XFin x :: pending)); [done..| | | |done].
    + by rewrite data_assign, Hd.
    + rewrite cur_assign. simpl. by rewrite Hn, length_fmap.
    + apply (tracks_cur c); [|done]. intros p Hp. rewrite cur_assign.
      by destruct (decide _).
  - split; [|by apply Forall_app_2; [|apply Forall_singleton]].
    destruct Hk as (_ & Hn & _). rewrite length_fmap in Hn.
    by apply (tracks_room c).
Qed.

Lemma tracks_loop (xs : list R) : ∀ c (cnt : list R) c',
  fleb (window_size c) zero = false → Forall ok xs → Forall ok cnt →
  kept c (XFin <$> cnt) (XFin <$> xs) → tracks c cnt →
  for_each push_one c (XFin <$> xs) = Ok c' →
  ∃ cnt', kept c' (XFin <$> cnt') [] ∧ Forall ok cnt' ∧ tracks c' cnt'.
Proof.
  induction xs as [|x xs IH]; intros c cnt c' Hw Hxs Hcnt Hk Ht Hrun.
  - injection Hrun as <-. by exists cnt.
  - rewrite fmap_cons in Hrun, Hk. cbn [for_each] in Hrun.
    apply bind_Ok in Hrun as (c1 & Hc1 & Hrun).
    apply Forall_cons in Hxs as [Hx Hxs].
    destruct (kept_push_one _ _ _ _ _ Hw Hk Hc1) as [Hk1 Hw1].
    rewrite fmap_evicted in Hk1.
    apply bind_Ok in Hc1 as (c0 & Hc0 & Hsave).
    destruct (tracks_absorb _ _ _ _ _ Hw Hx Hcnt Hk Ht Hc0) as [Ht0 Hok0].
    eapply (IH c1); [by rewrite Hw1|done|exact Hok0|exact Hk1| |exact Hrun].
    apply (tracks_cur c0); [|done]. intros p _. by apply cur_save.
Qed.

Lemma tracks_push c (cnt xs : list R) c' :
  Forall ok xs → Forall ok cnt → kept c (XFin <$> cnt) [] → tracks c cnt →
  push c (XFin <$> xs) = Ok c' →
  ∃ cnt', kept c' (XFin <$> cnt') [] ∧ Forall ok cnt' ∧ tracks c' cnt'.
Proof.
  intros Hxs Hcnt Hk Ht. unfold push. destruct (fleb _ _) eqn:Hw.
  - destruct xs as [|? [|??]]; try done. intros [= <-]. by exists cnt.
  - intros Hrun.
    apply (tracks_loop xs (set_data c (data c ++ (XFin <$> xs))) cnt c');
      [done..| | |done].
    + destruct Hk as (Hd & Hn & Hl & Hb). split_and!; [|done..].
      simpl. by rewrite Hd, app_nil_r.
    + by apply (tracks_cur c).
Qed.

Lemma Forall_sampled (xs : list xreal) :
  Forall (sampled ok) xs → ∃ rs, xs = XFin <$> rs ∧ Forall ok rs.
Proof.
  induction 1 as [|x xs (r & -> & Hr) _ (rs & -> & Hrs)]; [by exists []|].
  exists (r :: rs). split; [done|]. by apply Forall_cons_2.
Qed.

Lemma tracks_reachable c :
  reachable (sampled ok) c →
  ∃ cnt, kept c (XFin <$> cnt) [] ∧ Forall ok cnt ∧ tracks c cnt.
Proof.
  induction 1 as [data w c Hfin Hinit|c v rs f c' _ IH Hs|c xs c' _ IH Hfin Hp].
  - assert (kept (empty w) (XFin <$> []) []) as Hk.
    { split_and!; [done..|]. simpl. intros ? _ ?. lra. }
    unfold init in Hinit. destruct data as [|x xs].
    + injection Hinit as <-. exists []. split; [done|]. split; [done|].
      apply tracks_nil.
    + apply Forall_sampled in Hfin as (rs & Hrs & Hok). rewrite Hrs in Hinit.
      by apply (tracks_push (empty w) [] rs).
  - destruct IH as (cnt & (Hd & Hn & Hl & Hb) & Hok & Ht). exists cnt.
    destruct (subscribe_spec _ _ _ _ _ Hs) as (Hd' & Hw' & Hp & _).
    split; [|split; [done|]].
    + unfold kept. rewrite Hd', Hw', !(proj1 (Hp _)). done.
    + apply (tracks_cur c); [|done]. intros p _. apply Hp.
  - destruct IH as (cnt & Hk & Hok & Ht).
    apply Forall_sampled in Hfin as (rs & -> & Hrs).
    by apply (tracks_push c cnt rs).
Qed.
End tracking.

(** *** The mean *)

Lemma mean_tail (out : R) (cnt : list R) :
  cnt ≠ [] →
  (mean (out :: cnt)
   - (out - mean (out :: cnt)) / (INR (length (out :: cnt)) - 1))%R
  = mean cnt.
Proof.
  intros Hne. unfold mean. rewrite length_cons, S_INR.
  change (sum_list (out :: cnt)) with (out + sum_list cnt)%R.
  assert (0 < INR (length cnt))%R as Hpos.
  { apply lt_0_INR. destruct cnt; [done|simpl; lia]. }
  field. lra.
Qed.

(** Taking a sample out lowers the sum of squared deviations by at least
    the square of its deviation. *)
Lemma sum_sq_dev_tail (out : R) (cnt : list R) :
  cnt ≠ [] →
  (sum_sq_dev cnt <=
   sum_sq_dev (out :: cnt)
   - (out - mean (out :: cnt)) * (out - mean (out :: cnt)))%R.
Proof.
  intros Hne. rewrite (sum_sq_dev_mean (out :: cnt)). unfold sq_dev.
  rewrite fmap_cons.
  change (sum_list (?a :: ?l)) with (a + sum_list l)%R.
  fold (sq_dev (mean (out :: cnt)) cnt). rewrite (sq_dev_mean _ cnt Hne).
  assert (0 <= INR (length cnt)
               * ((mean cnt - mean (out :: cnt)) * (mean cnt - mean (out :: cnt))))%R.
  { apply Rmult_le_pos; [apply pos_INR|]. apply Rle_0_sqr. }
  lra.
Qed.

Lemma averaged_cur c c' cnt :
  (∀ p, p ≠ Pvalue → cur c' p = cur c p) → averaged c cnt → averaged c' cnt.
Proof. intros Hcur Ha Hne. rewrite !Hcur by done. by apply Ha. Qed.

Lemma averaged_room c (x : R) cnt c1 :
  fgeb (cur c Pn) (window_size c) = false →
  cur c Pn = XFin (INR (length cnt)) → averaged c cnt →
  absorb c (XFin x) = Ok c1 → averaged c1 (cnt ++ [x]).
Proof.
  intros Hge Hn Ha Hc _.
  destruct (decide (cnt = [])) as [->|Hne].
  - destruct (absorb_one _ _ _ Hge Hn Hc) as (_ & _ & HM & HS).
    rewrite HM, HS. simpl app. rewrite mean_one, sum_sq_dev_one.
    split; [done|]. eexists. split; [done|lra].
  - destruct (Ha Hne) as [HM (s & HS & Hle)].
    assert (0 < INR (length cnt))%R as Hpos.
    { apply lt_0_INR. destruct cnt; [done|simpl; lia]. }
    destruct (absorb_update _ _ _ _ _ _ Hpos Hge Hn HM HS Hc)
      as (_ & _ & HM1 & HS1).
    rewrite HM1, HS1, sum_sq_dev_snoc, mean_snoc by done.
    split; [done|]. eexists. split; [done|lra].
Qed.

Lemma averaged_pop c (out : R) cnt rest c0 :
  cnt ≠ [] → data c = XFin out :: rest →
  cur c Pn = XFin (INR (length (out :: cnt))) → averaged c (out :: cnt) →
  _pop c = Ok c0 → averaged c0 cnt.
Proof.
  intros Hne Hd Hn Ha Hc0 _.
  destruct (Ha ltac:(done)) as [HM (s & HS & Hle)].
  assert (INR (length (out :: cnt)) - 1 ≠ 0)%R as Hk.
  { rewrite length_cons, S_INR.
    assert (0 < INR (length cnt))%R; [|lra].
    apply lt_0_INR. destruct cnt; [done|simpl; lia]. }
  destruct (pop_mean _ _ _ _ _ _ _ Hc0 Hd Hn Hk HM HS) as [HM0 HS0].
  rewrite HM0, HS0, mean_tail by done. split; [done|].
  eexists. split; [done|]. pose proof (sum_sq_dev_tail out cnt Hne). lra.
Qed.

Lemma sum_sq_dev_nonneg (cnt : list R) : (0 <= sum_sq_dev cnt)%R.
Proof.
  unfold sum_sq_dev. generalize (mean cnt). intros a.
  induction cnt as [|x cnt IH]; [simpl; lra|].
  rewrite fmap_cons. change (sum_list (?a :: ?l)) with (a + sum_list l)%R.
  pose proof (Rle_0_sqr (x - a)) as Hsq. unfold Rsqr in Hsq. lra.
Qed.

Lemma averaged_reachable c :
  reachable finite c →
  ∃ cnt, kept c (XFin <$> cnt) [] ∧ averaged c cnt.
Proof.
  intros Hr.
  destruct (tracks_reachable (λ _, True) averaged) with (c := c)
    as (cnt & Hk & _ & Ha); [| | | | |by exists cnt].
  - apply averaged_cur.
  - by intros c1 ?.
  - intros; by eapply averaged_room.
  - intros; by eapply averaged_pop.
  - clear -Hr. induction Hr as [data w c Hf Hi|c v rs f c' _ IH Hs|c xs c' _ IH Hf Hp].
    + eapply reachable_init; [|done].
      eapply Forall_impl; [done|]. intros x [r ->]. by exists r.
    + by eapply reachable_subscribe.
    + eapply reachable_push; [done| |done].
      eapply Forall_impl; [done|]. intros x [r ->]. by exists r.
Qed.

(** In exact arithmetic, in a session in which every call returned and
    no subscription was given one of the container's own names: whatever
    was evicted, [M] is the arithmetic mean of the samples that the
    container retains, [sum] is their sum and [n] their number, when all
    the samples pushed were numbers. *)
Theorem mean_of_retained c :
  reachable finite c → unshadowed c → data c ≠ [] →
  ∃ rs, data c = XFin <$> rs ∧ cur c Pn = XFin (INR (length rs)) ∧
        cur c Psum = XFin (sum_list rs) ∧ cur c PM = XFin (mean rs) ∧
        mean_func [cur c PM] = Ok (XFin (sum_list rs / INR (length rs))).
Proof.
  intros Hr _ Hne.
  destruct (averaged_reachable _ Hr) as (cnt & (Hd & Hn & _) & Ha).
  destruct (settled_reachable _ Hr) as (cnt' & (Hd' & _ & Hs) & _).
  rewrite app_nil_r in Hd, Hd'. rewrite length_fmap in Hn.
  assert (cnt' = cnt) as ->.
  { rewrite Hd in Hd'. revert Hd'. clear. revert cnt'.
    induction cnt as [|x cnt IH]; intros [|y cnt']; try done.
    intros [= -> ->%IH]. done. }
  assert (cnt ≠ []) as Hcnt by (intros ->; by rewrite Hd in Hne).
  destruct (Ha Hcnt) as [HM _].
  exists cnt. split_and!; [done..|]. simpl. by rewrite HM.
Qed.

(** In exact arithmetic, in a session in which every call returned and
    no subscription was given one of the container's own names: whatever
    was evicted, [S] is a number that is not below the sum of the squared
    deviations of the retained samples from their mean, which is what it
    is before the first eviction. *)
Theorem S_not_below_squared_deviations c :
  reachable finite c → unshadowed c → data c ≠ [] →
  ∃ rs s, data c = XFin <$> rs ∧ cur c PS = XFin s ∧
          (0 <= sum_sq_dev rs <= s)%R.
Proof.
  intros Hr _ Hne.
  destruct (averaged_reachable _ Hr) as (cnt & (Hd & Hn & _) & Ha).
  rewrite app_nil_r in Hd.
  assert (cnt ≠ []) as Hcnt by (intros ->; by rewrite Hd in Hne).
  destruct (Ha Hcnt) as [_ (s & HS & Hle)].
  pose proof (sum_sq_dev_nonneg cnt).
  exists cnt, s. split_and!; [done..|lra|done].
Qed.

(** *** The sum of the reciprocals *)

Lemma inverted_reachable c :
  reachable (sampled (λ r, r ≠ 0%R)) c →
  ∃ cnt, kept c (XFin <$> cnt) [] ∧ Forall (λ r, r ≠ 0%R) cnt ∧
         inverted c cnt.
Proof.
  apply tracks_reachable.
  - intros c1 c2 cnt Hcur Ha Hne. rewrite !Hcur by done. by apply Ha.
  - by intros c1 ?.
  - intros c1 x cnt c2 Hx _ Hge Hn Ha Hc _.
    destruct (decide (cnt = [])) as [->|Hne].
    + rewrite (absorb_reciprocal_one _ _ _ Hge Hn Hx Hc).
      f_equal. unfold sum_list. simpl. lra.
    + assert (0 < INR (length cnt))%R as Hpos.
      { apply lt_0_INR. destruct cnt; [done|simpl; lia]. }
      rewrite (absorb_reciprocal_update _ _ _ _ _ Hpos Hge Hn (Ha Hne) Hx Hc).
      rewrite fmap_app, sum_list_app. f_equal. unfold sum_list at 3. simpl. lra.
  - intros c1 out cnt rest c0 Hout Hne Hd Hn Ha Hc0 _.
    assert (INR (length (out :: cnt)) - 1 ≠ 0)%R as Hk.
    { rewrite length_cons, S_INR.
      assert (0 < INR (length cnt))%R; [|lra].
      apply lt_0_INR. destruct cnt; [done|simpl; lia]. }
    rewrite (pop_reciprocal _ _ _ _ _ _ Hc0 Hd Hn Hk Hout (Ha ltac:(done))).
    f_equal. rewrite fmap_cons.
    change (sum_list (1 / out :: ((λ r, 1 / r) <$> cnt))%R)
      with (1 / out + sum_list ((λ r, 1 / r) <$> cnt))%R. lra.
Qed.

(** In exact arithmetic, in a session in which every call returned and
    no subscription was given one of the container's own names: with
    samples that are numbers other than zero, and whatever was evicted,
    [reciprocal_sum] is the sum of the reciprocals of the retained
    samples, and where that sum is not zero the harmonic mean's function
    gives their number over it. *)
Theorem reciprocal_sum_of_retained c :
  reachable (sampled (λ r, r ≠ 0%R)) c → unshadowed c → data c ≠ [] →
  ∃ rs, data c = XFin <$> rs ∧
        cur c Preciprocal_sum = XFin (sum_list ((λ r, 1 / r)%R <$> rs)) ∧
        (sum_list ((λ r, 1 / r)%R <$> rs) ≠ 0%R →
         harmonic_mean_func [cur c Preciprocal_sum; cur c Pn] =
           Ok (XFin (INR (length rs) / sum_list ((λ r, 1 / r)%R <$> rs)))).
Proof.
  intros (cnt & (Hd & Hn & _) & _ & Ha)%inverted_reachable _ Hne.
  rewrite app_nil_r in Hd. rewrite length_fmap in Hn.
  assert (cnt ≠ []) as Hcnt by (intros ->; by rewrite Hd in Hne).
  exists cnt. rewrite (Ha Hcnt), Hn. split_and!; [done..|].
  intros Hsum. simpl. by rewrite bool_decide_eq_false_2.
Qed.

(** ** The theorems with a premise, at a concrete run *)

(** The mean of what a window of 2 retains of 1, 2, 3. *)
Lemma mean_of_retained_witness :
  ∃ c, init [XFin 1; XFin 2; XFin 3] (XFin 2) = Ok c ∧
       data c = [XFin 2; XFin 3] ∧
       ∃ rs, data c = XFin <$> rs ∧ cur c Pn = XFin (INR (length rs)) ∧
             cur c Psum = XFin (sum_list rs) ∧ cur c PM = XFin (mean rs) ∧
             mean_func [cur c PM] = Ok (XFin (sum_list rs / INR (length rs))).
Proof.
  eassert (init [XFin 1; XFin 2; XFin 3] (XFin 2) = Ok _) as E
    by (xeval; reflexivity).
  eexists. split; [exact E|]. split; [reflexivity|].
  apply mean_of_retained; [| |done].
  - eapply reachable_init; [|exact E].
    repeat (constructor; [eexists; reflexivity|]). constructor.
  - eapply unshadowed_init, E.
Defined.

(** [S] of what a window of 2 retains of 1, 2, 4. *)
Lemma S_not_below_witness :
  ∃ c, init [XFin 1; XFin 2; XFin 4] (XFin 2) = Ok c ∧
       data c = [XFin 2; XFin 4] ∧
       ∃ rs s, data c = XFin <$> rs ∧ cur c PS = XFin s ∧
               (0 <= sum_sq_dev rs <= s)%R.
Proof.
  eassert (init [XFin 1; XFin 2; XFin 4] (XFin 2) = Ok _) as E
    by (xeval; reflexivity).
  eexists. split; [exact E|]. split; [reflexivity|].
  apply S_not_below_squared_deviations; [| |done].
  - eapply reachable_init; [|exact E].
    repeat (constructor; [eexists; reflexivity|]). constructor.
  - eapply unshadowed_init, E.
Defined.

(** The reciprocals of what a window of 2 retains of 1, 2, 4. *)
Lemma reciprocal_sum_witness :
  ∃ c, init [XFin 1; XFin 2; XFin 4] (XFin 2) = Ok c ∧
       data c = [XFin 2; XFin 4] ∧
       ∃ rs, data c = XFin <$> rs ∧
             cur c Preciprocal_sum = XFin (sum_list ((λ r, 1 / r)%R <$> rs)) ∧
             (sum_list ((λ r, 1 / r)%R <$> rs) ≠ 0%R →
              harmonic_mean_func [cur c Preciprocal_sum; cur c Pn] =
                Ok (XFin (INR (length rs)
                          / sum_list ((λ r, 1 / r)%R <$> rs)))).
Proof.
  eassert (init [XFin 1; XFin 2; XFin 4] (XFin 2) = Ok _) as E
    by (xeval; reflexivity).
  eexists. split; [exact E|]. split; [reflexivity|].
  apply reciprocal_sum_of_retained; [| |done].
  - eapply reachable_init; [|exact E].
    repeat (constructor; [eexists; split; [reflexivity|lra]|]). constructor.
  - eapply unshadowed_init, E.
Defined.
End Sums.


(** * Counting the retained samples, in any arithmetic *)

Module Counting.
Import Container Invariants Calls ExactInvariants Samples.
Import Shape Primaries Wf Session Guard Welford ExactRuns.
Section counting.
Context `{PyNum F}.
Implicit Types (c : t F).

Lemma pop_tally c c' out rest :
  _pop c = Ok c' → data c = out :: rest →
  data c' = rest ∧ cur c' Pn = fsub (cur c Pn) one ∧
  (feqb (cur c' Pn) zero = true →
   cur c' PS = nan ∧ cur c' PM = nan ∧ cur c' Preciprocal_sum = nan).
Proof.
  destruct_container c. unfold _pop. cbn. intros Hc ->.
  split_run Hc; injection Hc as <-; cbn; (split_and!; [done..|]);
    intros E; first [done|congruence].
Qed.

Lemma pop_returns N c out rest m :
  counting N → m < N → data c = out :: rest →
  cur c Pn = count (Datatypes.S m) → ∃ c', _pop c = Ok c'.
Proof.
  intros (Hz & _ & Hdiv & Hc) Hm Hd Hn. destruct (Hc m Hm) as [Hsub Hne].
  destruct_container c. unfold _pop. cbn in *. subst.
  rewrite Hsub. destruct m as [|m].
  - simpl. rewrite Hz. by eexists.
  - destruct (Hc m) as [_ Hne']; [lia|]. cbn in *. rewrite Hne'.
    match goal with
    | |- context [fdiv ?a ?b] => destruct (Hdiv a b Hne') as [q ->]
    end. cbn.
    destruct (feqb out zero) eqn:Ho; [by eexists|].
    destruct (Hdiv one out Ho) as [r ->]. by eexists.
Qed.

(** What the body of [push] does to the count and to the retained
    samples: one more, after one less when it evicts. *)
Lemma absorb_count_step c x c1 :
  absorb c x = Ok c1 →
  (fgeb (cur c Pn) (window_size c) = false ∧ data c1 = data c ∧
   cur c1 Pn = fadd (cur c Pn) one) ∨
  (fgeb (cur c Pn) (window_size c) = true ∧
   (∃ out, data c = out :: data c1) ∧
   cur c1 Pn = fadd (fsub (cur c Pn) one) one).
Proof.
  destruct_container c. unfold absorb, _pop, fgeb. cbn. intros Hc.
  match type of Hc with
  | context [if fleb ?w ?v then _ else _] => destruct (fleb w v) eqn:Hge
  end; [right|left].
  all: split; [done|].
  all: split_run Hc; injection Hc as <-; cbn; split; by eauto.
Qed.

Lemma absorb_tally N c x c1 m pending :
  counting N → fleb (window_size c) zero = false → m < N →
  cur c Pn = count m → length (data c) = m + Datatypes.S pending →
  absorb c x = Ok c1 →
  ∃ m1, cur c1 Pn = count m1 ∧ length (data c1) = m1 + pending ∧
        0 < m1 ≤ Datatypes.S m.
Proof.
  intros (Hz & _ & Hdiv & Hc) Hw Hm Hn Hlen Habs.
  destruct (absorb_count_step _ _ _ Habs)
    as [(Hge & Hd1 & Hn1)|(Hge & [out Hd1] & Hn1)].
  - exists (Datatypes.S m). rewrite Hn1, Hd1, Hn. split_and!; [done|lia|lia|lia].
  - destruct m as [|m].
    { rewrite Hn in Hge. unfold fgeb in Hge. simpl in Hge. congruence. }
    destruct (Hc m) as [Hsub _]; [lia|].
    exists (Datatypes.S m). rewrite Hn1, Hn, Hsub. rewrite Hd1 in Hlen.
    simpl in Hlen. split_and!; [done|lia|lia|lia].
Qed.

Lemma tallied_push_one N c x c' pending :
  counting N → fleb (window_size c) zero = false →
  length (MemoryFloat.history (n c)) < N →
  tallied c (Datatypes.S pending) → push_one c x = Ok c' →
  tallied c' pending.
Proof.
  intros HN Hw Hb (m & Hn & Hlen & Hm & _) Hp.
  pose proof (push_one_primary _ _ _ Pn Hp) as Hh. simpl in Hh.
  apply bind_Ok in Hp as (c1 & Hc1 & Hsave).
  destruct (absorb_tally N _ _ _ m pending HN Hw ltac:(lia) Hn Hlen Hc1)
    as (m1 & Hn1 & Hlen1 & Hm1).
  exists m1.
  rewrite (shape_cur _ _ (shape_save _ _ Hsave)),
    (shape_data _ _ (shape_save _ _ Hsave)), Hh, length_app. simpl.
  split_and!; [done|done|lia|lia].
Qed.

Lemma tallied_loop N xs : ∀ c c',
  counting N → fleb (window_size c) zero = false →
  length (MemoryFloat.history (n c)) + length xs ≤ N →
  tallied c (length xs) → for_each push_one c xs = Ok c' → tallied c' 0.
Proof.
  induction xs as [|x xs IH]; intros c c' HN Hw Hb Hc Hrun.
  - by injection Hrun as <-.
  - cbn [for_each] in Hrun. apply bind_Ok in Hrun as (c1 & Hc1 & Hrun).
    simpl in Hb.
    apply (IH c1); [done|by rewrite (window_size_push_one _ _ _ Hc1)| | |done].
    + pose proof (push_one_primary _ _ _ Pn Hc1) as Hh. simpl in Hh.
      rewrite Hh, length_app. simpl. lia.
    + eapply (tallied_push_one N); [done..|lia|done|done].
Qed.

Lemma tallied_push N c xs c' :
  counting N → length (MemoryFloat.history (n c')) ≤ N →
  tallied c 0 → push c xs = Ok c' → tallied c' 0.
Proof.
  intros HN Hb Hc Hp. pose proof Hp as Hp'. revert Hp.
  unfold push. destruct (fleb _ _) eqn:Hw.
  - destruct xs as [|? [|??]]; try done. by intros [= <-].
  - pose proof (push_primaries _ _ _ Pn Hw Hp') as Hh. simpl in Hh.
    apply (tallied_loop N); [done|done|simpl; lia|].
    destruct Hc as (m & ? & Hlen & ? & ?). exists m. split_and!; [done| |done..].
    simpl. rewrite length_app. lia.
Qed.

Lemma tallied_empty (w : F) : tallied (empty w) 0.
Proof. exists 0. by split_and!. Qed.

Lemma history_grows (sample : F → Prop) c xs c' :
  push c xs = Ok c' →
  length (MemoryFloat.history (n c)) ≤ length (MemoryFloat.history (n c')).
Proof.
  intros Hp. destruct (fleb (window_size c) zero) eqn:Hw.
  - revert Hp. unfold push. rewrite Hw.
    destruct xs as [|? [|??]]; try done. by intros [= <-].
  - pose proof (push_primaries _ _ _ Pn Hw Hp) as Hh. simpl in Hh. lia.
Qed.

Lemma tallied_reachable N (sample : F → Prop) c :
  counting N → reachable sample c →
  length (MemoryFloat.history (n c)) ≤ N → tallied c 0.
Proof.
  intros HN.
  induction 1 as [data w c _ Hinit|c v rs f c' _ IH Hs|c xs c' _ IH _ Hp];
    intros Hb.
  - unfold init in Hinit. destruct data as [|x xs].
    + injection Hinit as <-. apply tallied_empty.
    + eapply (tallied_push N); [done|done|apply tallied_empty|done].
  - destruct (subscribe_spec _ _ _ _ _ Hs) as (Hd & Hw & Hp & _).
    destruct (Hp Pn) as [Hn Hh]. simpl in Hh. rewrite Hh in Hb.
    destruct (IH Hb) as (m & ? & ? & ? & Hbl).
    exists m. rewrite Hd, Hn, Hh.
    destruct (Hp PS) as [-> _], (Hp PM) as [-> _],
      (Hp Preciprocal_sum) as [-> _]. done.
  - eapply (tallied_push N); [done|done| |done]. apply IH.
    pose proof (history_grows sample _ _ _ Hp). lia.
Qed.

(** Evicting every retained sample, when [n] counts them. *)
Lemma evict_tally N : ∀ (ticks : list F) c m,
  counting N → m ≤ N → length ticks = m →
  cur c Pn = count m → length (data c) = m →
  (m = 0 → cur c PS = nan ∧ cur c PM = nan ∧ cur c Preciprocal_sum = nan) →
  ∃ c', for_each (λ c _, _pop c) c ticks = Ok c' ∧ data c' = [] ∧
        cur c' Pn = zero ∧ cur c' PS = nan ∧ cur c' PM = nan ∧
        cur c' Preciprocal_sum = nan.
Proof.
  induction ticks as [|tick ticks IH]; intros c m HN Hm Hlen Hn Hd Hb.
  - simpl in Hlen. subst m. exists c. destruct (Hb eq_refl) as (?&?&?).
    split_and!; [done| |done..]. by destruct (data c).
  - simpl in Hlen. destruct m as [|m]; [done|].
    destruct (data c) as [|out rest] eqn:Hdc; [done|].
    destruct (pop_returns N c out rest m HN ltac:(lia) Hdc Hn) as [c1 Hc1].
    destruct (pop_tally _ _ _ _ Hc1 Hdc) as (Hd1 & Hn1 & Hb1).
    destruct HN as (Hz & Hone & Hdiv & Hc). destruct (Hc m) as [Hsub _]; [lia|].
    rewrite Hn, Hsub in Hn1.
    cbn [for_each]. rewrite Hc1. change (Ok c1 ≫= ?f) with (f c1). cbn beta.
    apply (IH c1 m); [by split_and!|lia|lia|done|..].
    + rewrite Hd1. simpl in Hd. lia.
    + intros ->. apply Hb1. by rewrite Hn1.
Qed.
End counting.

(** *** Counting in exact arithmetic and in binary64 *)

Lemma count_exact (k : nat) : count k = XFin (INR k).
Proof.
  induction k as [|k IH]; [done|].
  cbn [count]. rewrite IH, S_INR. done.
Qed.

Lemma counting_exact (N : nat) : counting (F := xreal) N.
Proof.
  split_and!.
  - by apply bool_decide_eq_true.
  - apply bool_decide_eq_false. lra.
  - intros x [| |b] Hy; simpl; [by eexists..|].
    apply bool_decide_eq_false in Hy.
    rewrite bool_decide_eq_false_2 by done. by eexists.
  - intros k _. rewrite !count_exact, S_INR. pose proof (pos_INR k). split.
    + simpl. f_equal. lra.
    + apply bool_decide_eq_false. lra.
Qed.

(** Below 4096, by computation. *)
Lemma counting_float : counting (F := float) 4096.
Proof.
  split_and!.
  - done.
  - done.
  - intros x y Hy. simpl in *. rewrite Hy. by eexists.
  - assert ((λ k, fsub (count (Datatypes.S k)) one) <$> seq 0 4096
            = (count <$> seq 0 4096 : list float)) as Hsub
      by (vm_compute; reflexivity).
    assert ((λ k, feqb (count (F := float) (Datatypes.S k)) zero) <$> seq 0 4096
            = (λ _, false) <$> seq 0 4096) as Hne
      by (vm_compute; reflexivity).
    intros k Hk. split.
    + apply (f_equal (.!! k)) in Hsub. rewrite !list_lookup_fmap in Hsub.
      rewrite lookup_seq_lt in Hsub by done. by injection Hsub.
    + apply (f_equal (.!! k)) in Hne. rewrite !list_lookup_fmap in Hne.
      rewrite lookup_seq_lt in Hne by done. by injection Hne.
Qed.


End Counting.


(** * The statistics whose divisions are guarded *)

Module Guarded.
Import Container Invariants Calls ExactInvariants Samples.
Import Shape Primaries Barrier Wf Session Guard Welford ExactRuns.
Import Counting.
Section guarded.
Context `{PyNum F}.
Implicit Types (c : t F).

(** With exact counting the body of [push] returns: its divisions are by
    counts of at least one and by samples that are not [== 0]. *)
Lemma absorb_returns N c x m pending :
  counting N → fleb (window_size c) zero = false → m < N →
  cur c Pn = count m → length (data c) = m + Datatypes.S pending →
  ∃ c1, absorb c x = Ok c1.
Proof.
  intros HN Hw Hm Hn Hlen. pose proof HN as (Hz & _ & Hdiv & Hc).
  assert (∃ c0 j, (if fgeb (cur (assign c Pvalue x) Pn)
                         (window_size (assign c Pvalue x))
                   then _pop (assign c Pvalue x) else Ok (assign c Pvalue x))
                  = Ok c0 ∧ cur c0 Pn = count j ∧ j < N) as (c0 & j & Hc0 & Hn0 & Hj).
  { rewrite cur_assign, window_size_assign. simpl.
    destruct (fgeb (cur c Pn) (window_size c)) eqn:Hge.
    - destruct m as [|m].
      { rewrite Hn in Hge. unfold fgeb in Hge. simpl in Hge. congruence. }
      destruct (data c) as [|out rest] eqn:Hd; [done|].
      destruct (pop_returns N (assign c Pvalue x) out rest m) as [c0 Hc0];
        [done|lia|by rewrite data_assign|by rewrite cur_assign|].
      destruct (pop_tally _ _ out rest Hc0) as (_ & Hn0 & _);
        [by rewrite data_assign|].
      rewrite cur_assign in Hn0. simpl in Hn0. rewrite Hn in Hn0.
      destruct (Hc m) as [Hsub _]; [lia|]. rewrite Hsub in Hn0.
      exists c0, m. split_and!; [done|done|lia].
    - exists (assign c Pvalue x), m. rewrite cur_assign. simpl. by split_and!. }
  unfold absorb. cbv zeta. rewrite Hc0. change (Ok c0 ≫= ?f) with (f c0).
  cbn beta.
  assert (∃ rcp, (if feqb x zero then Ok nan else fdiv one x) = Ok rcp)
    as [rcp ->].
  { destruct (feqb x zero) eqn:Hx; [by eexists|]. by apply Hdiv. }
  change (Ok rcp ≫= ?f) with (f rcp). cbn beta.
  destruct (feqb _ one); [by eexists|].
  match goal with
  | |- context [fdiv ?a ?b] => destruct (Hdiv a b) as [q ->]
  end; [|by eexists].
  rewrite !cur_assign. simpl. rewrite Hn0. by apply (Hc j).
Qed.

Lemma guarded_flat (l : link F) : guarded l → flat l.
Proof.
  intros [[Hi _]|[Hi _]]; unfold flat; rewrite Hi.
  all: split; [done|]; split.
  all: try (repeat (apply NoDup_cons_2; [set_solver|]); apply NoDup_nil_2).
  all: intros r Hr; repeat (apply elem_of_cons in Hr as [->|Hr]; [by eexists|]).
  all: by apply elem_of_nil in Hr.
Qed.

(** No function of a guarded link raises where [n] is a count of at
    least one. *)
Lemma guarded_defined N c m :
  counting N → 0 < m ≤ N → cur c Pn = count m →
  (∀ k l, links c !! k = Some l → guarded l) → defined c.
Proof.
  intros (Hz & Hone & Hdiv & Hc) Hm Hn Hg k l args Hk _ Hargs.
  specialize (Hg k l Hk). rewrite (Hargs (guarded_flat l Hg)).
  unfold prim_values. destruct l as [ins f ids pl out]. unfold guarded in Hg.
  cbn [inputs func] in *.
  destruct Hg as [[-> Hf]|[-> ->]]; [|cbn; by eexists].
  cbn [fmap list_fmap]. rewrite Hn.
  destruct m as [|[|m]]; [lia| |].
  - destruct Hf as [->| ->]; unfold var, pop_var; cbv beta iota;
      rewrite Hone; by eexists.
  - destruct (Hc (Datatypes.S m)) as [Hsub Hne]; [lia|].
    destruct (Hc m) as [_ Hne']; [lia|].
    destruct Hf as [->| ->]; unfold var, pop_var; cbv beta iota;
      (destruct (fgtb (count (Datatypes.S (Datatypes.S m))) one);
       [|by eexists]).
    + rewrite Hsub. by apply Hdiv.
    + by apply Hdiv.
Qed.

(** *** A push returns *)

Lemma guarded_push_one N c x pending :
  counting N → wf c → (∀ k l, links c !! k = Some l → guarded l) →
  fleb (window_size c) zero = false →
  length (MemoryFloat.history (n c)) < N →
  tallied c (Datatypes.S pending) →
  ∃ c', push_one c x = Ok c' ∧ wf c' ∧
        (∀ k l, links c' !! k = Some l → guarded l) ∧
        tallied c' pending.
Proof.
  intros HN Hwf Hg Hw Hb Ht. pose proof Ht as (m & Hn & Hlen & Hm & _).
  destruct (absorb_returns N c x m pending) as [c1 Hc1]; [done|done|lia|done..|].
  destruct (absorb_tally N _ _ _ m pending HN Hw ltac:(lia) Hn Hlen Hc1)
    as (m1 & Hn1 & _ & Hm1).
  pose proof (stats_only_absorb _ _ _ Hc1) as Hs.
  assert (∀ k l, links c1 !! k = Some l → guarded l) as Hg1.
  { destruct Hs as (-> & _). done. }
  destruct (save_total c1) as [c' Hc'].
  { by eapply wf_structured, wf_stats_only. }
  { apply (guarded_defined N c1 m1); [done|lia|done..]. }
  assert (push_one c x = Ok c') as Hp by (unfold push_one; by rewrite Hc1).
  exists c'. split_and!.
  - done.
  - by eapply wf_push_one.
  - intros k l' Hl'.
    destruct (shape_lookup_r _ _ _ _ (shape_save _ _ Hc') Hl')
      as (l & Hl & (Hin & Hf & _)).
    specialize (Hg1 k l Hl). unfold guarded. by rewrite Hin, Hf.
  - by eapply (tallied_push_one N).
Qed.

Lemma guarded_loop N xs : ∀ c,
  counting N → wf c → (∀ k l, links c !! k = Some l → guarded l) →
  fleb (window_size c) zero = false →
  length (MemoryFloat.history (n c)) + length xs ≤ N →
  tallied c (length xs) →
  ∃ c', for_each push_one c xs = Ok c'.
Proof.
  induction xs as [|x xs IH]; intros c HN Hwf Hg Hw Hb Ht; [by eexists|].
  simpl in Hb.
  destruct (guarded_push_one N c x (length xs))
    as (c1 & Hc1 & Hwf1 & Hg1 & Ht1); [done..|lia|done|].
  cbn [for_each]. rewrite Hc1. change (Ok c1 ≫= ?f) with (f c1). cbn beta.
  apply IH; [done..|by rewrite (window_size_push_one _ _ _ Hc1)| |done].
  pose proof (push_one_primary _ _ _ Pn Hc1) as Hh. simpl in Hh.
  rewrite Hh, length_app. simpl. lia.
Qed.

(** With only subscriptions made by [subscribe_var], [subscribe_pop_var]
    and [subscribe_mean], in a session in which every call returned and
    no subscription was given one of the container's own names, a push
    returns, in every arithmetic that counts exactly as far as samples
    are pushed: the divisions of [push], [_pop], [var] and [pop_var] are
    by counts of at least one and by samples that are not zero. *)
Theorem guarded_statistics_never_raise N (sample : F → Prop) c xs :
  counting N → reachable sample c → unshadowed c →
  (∀ k l, links c !! k = Some l → guarded l) →
  fleb (window_size c) zero = false →
  length (MemoryFloat.history (n c)) + length xs ≤ N →
  ∃ c', push c xs = Ok c'.
Proof.
  intros HN Hr _ Hg Hw Hb.
  unfold push. rewrite Hw.
  apply (guarded_loop N xs); [done| |done|done|done|].
  - eapply wf_stats_only; [by eapply reachable_wf|apply stats_only_set_data].
  - destruct (tallied_reachable N sample c HN Hr) as (m & ? & Hlen & ? & ?);
      [lia|].
    exists m. split_and!; [done| |done..]. simpl. rewrite length_app. lia.
Qed.
End guarded.

(** In binary64: [var] and [pop_var], subscribed after 1, 2, 3 went into
    a window of 2, and a push of 4 and 5. *)
Lemma guarded_statistics_witness :
  ∃ c0 c1 c : t float,
    init [1; 2; 3]%float 2%float = Ok c0 ∧
    subscribe_var c0 = Ok c1 ∧ subscribe_pop_var c1 = Ok c ∧
    ∃ c', push c [4; 5]%float = Ok c'.
Proof.
  eassert (init [1; 2; 3]%float 2%float = Ok _) as E0
    by (vm_compute; reflexivity).
  lazymatch type of E0 with _ = Ok ?c0 =>
    eassert (subscribe_var c0 = Ok _) as E1 by (vm_compute; reflexivity) end.
  lazymatch type of E1 with _ = Ok ?c1 =>
    eassert (subscribe_pop_var c1 = Ok _) as E2
      by (vm_compute; reflexivity) end.
  eexists _, _, _. split; [exact E0|]. split; [exact E1|]. split; [exact E2|].
  apply (guarded_statistics_never_raise 4096 (λ _, True)).
  - apply counting_float.
  - eapply reachable_subscribe; [|exact E2].
    eapply reachable_subscribe; [|exact E1].
    eapply reachable_init; [|exact E0]. by repeat constructor.
  - unshadowed_now.
  - intros [|[|k]] l; simpl; intros [= <-]; unfold guarded; simpl; auto.
  - reflexivity.
  - cbn [n MemoryFloat.history length]. lia.
Defined.
End Guarded.


(** * After a call that raised, and after a subscription under one of
      the container's own names *)

Module Rebinding.
Import Live.
Import Container Invariants Calls Samples.

(** C9 fails after a call of [push] that raised: with the harmonic mean
    subscribed, [push(1)] returns, [push(-1, 5)] raises at [-1] and
    leaves 1, -1, 5 retained with [n = 2], and [push(7)] then returns
    with four samples retained and [n = 3].  It also fails after
    [subscribe("n", ...)], here with the function that returns 0:
    [push(5, 6, 7)] into a window of 2 then evicts nothing, and [n.value]
    is 0. *)
Lemma count_is_not_length :
  (∃ c1 c2 c3 c4 : t float,
     Live.subscribe_harmonic_mean (empty infinity) = Done c1 ∧
     Live.push c1 [1%float] = Done c2 ∧
     Live.push c2 [(-1)%float; 5%float] = Raised ZeroDivisionError c3 ∧
     data c3 = [1; -1; 5]%float ∧ val c3 (self_ c3 Pn) = 2%float ∧
     Live.push c3 [7%float] = Done c4 ∧
     data c4 = [1; -1; 5; 7]%float ∧ val c4 (self_ c4 Pn) = 3%float) ∧
  (∃ c1 c2 : t float,
     Live.subscribe (empty 2%float) "n" [Prim Pvalue] (λ _, Ok zero) = Done c1 ∧
     Live.push c1 [5; 6; 7]%float = Done c2 ∧
     data c2 = [5; 6; 7]%float ∧ val c2 (self_ c2 Pn) = 0%float).
Proof.
  split.
  - eexists _, _, _, _. split; [vm_compute; reflexivity|].
    split; [vm_compute; reflexivity|]. split; [vm_compute; reflexivity|].
    split; [vm_compute; reflexivity|]. split; [vm_compute; reflexivity|].
    split; [vm_compute; reflexivity|]. by vm_compute.
  - eexists _, _. split; [vm_compute; reflexivity|].
    split; [vm_compute; reflexivity|]. by vm_compute.
Qed.

(** C10 fails after [subscribe("S", c.M, func=lambda m: m)]: [push(5)]
    then assigns 0 to the output that [self.S] is, the hook of [M]
    assigns 5 to it, and the push ends with [n = 1] and [S.value = 5],
    where the guard of [zscore] holds. *)
Lemma one_sample_with_S_not_zero :
  ∃ c1 c2 : t float,
    Live.subscribe (empty infinity) "S" [Prim PM] mean_func = Done c1 ∧
    Live.push c1 [5%float] = Done c2 ∧
    data c2 = [5%float] ∧
    val c2 (self_ c2 Pn) = 1%float ∧ val c2 (self_ c2 PS) = 5%float ∧
    fgtb (val c2 (self_ c2 PS)) zero && fgtb (val c2 (self_ c2 Pn)) zero = true.
Proof.
  eexists _, _. split; [vm_compute; reflexivity|].
  split; [vm_compute; reflexivity|]. by vm_compute.
Qed.
End Rebinding.
